(** * webcrawler: the crawl engine and the page renderer

    A shallow embedding of package [webcrawler] (Go): the [Page] and [Link]
    records, [Page.String], [Crawl], [crawlPage] and [parseHTML].

    Pointers [*Page] are addresses into a heap of [Page] objects, the map
    [visitedPages] is a [gmap] from URLs to addresses, and the goroutines
    started with [go crawlPage(c, p)] are a pool whose members are run one
    step at a time in an arbitrary order. *)

From Stdlib Require Import String Ascii List Arith Lia Bool.
From stdpp Require Import base option list gmap strings.

Import ListNotations.
Local Open Scope string_scope.
Local Open Scope list_scope.
Local Open Scope nat_scope.

(** ** Strings (Go's [strings] and [fmt] on byte strings) *)

Definition nl : string := String "010"%char EmptyString.

(** [strings.HasPrefix(s, prefix)]. *)
Definition HasPrefix (s pre : string) : bool := String.prefix pre s.

(** [strings.Replace(s, "\n", new, -1)]: every newline byte of [s] is
    replaced. *)
Fixpoint ReplaceNewlines (s new : string) : string :=
  match s with
  | EmptyString => EmptyString
  | String ch rest =>
      if Ascii.eqb ch "010"%char then new +:+ ReplaceNewlines rest new
      else String ch (ReplaceNewlines rest new)
  end.

Definition bytes (l : list nat) : string :=
  string_of_list_ascii (map ascii_of_nat l).

(** The UTF-8 encodings of the code points for which [unicode.IsSpace]
    holds: the six ASCII ones, U+0085, U+00A0, U+1680, U+2000 to U+200A,
    U+2028, U+2029, U+202F, U+205F and U+3000. *)
Definition spaceRunes : list string :=
  map bytes
    ([[9]; [10]; [11]; [12]; [13]; [32]; [194; 133]; [194; 160];
      [225; 154; 128]]
     ++ map (fun k => [226; 128; 128 + k]) (seq 0 11)
     ++ [[226; 128; 168]; [226; 128; 169]; [226; 128; 175];
         [226; 129; 159]; [227; 128; 128]]).

Fixpoint stripPrefix (pre s : string) : option string :=
  match pre, s with
  | EmptyString, _ => Some s
  | String a pre', String b s' =>
      if Ascii.eqb a b then stripPrefix pre' s' else None
  | String _ _, EmptyString => None
  end.

Fixpoint stripAny (pats : list string) (s : string) : option string :=
  match pats with
  | [] => None
  | pat :: pats' =>
      match stripPrefix pat s with
      | Some rest => Some rest
      | None => stripAny pats' s
      end
  end.

Fixpoint trimLeftWith (pats : list string) (fuel : nat) (s : string) : string :=
  match fuel with
  | 0 => s
  | S fuel' =>
      match stripAny pats s with
      | Some rest => trimLeftWith pats fuel' rest
      | None => s
      end
  end.

Definition revString (s : string) : string :=
  string_of_list_ascii (rev (list_ascii_of_string s)).

Definition TrimLeft (s : string) : string :=
  trimLeftWith spaceRunes (String.length s) s.

Definition TrimRight (s : string) : string :=
  revString (trimLeftWith (map revString spaceRunes) (String.length s) (revString s)).

(** [strings.TrimSpace(s)]: leading and trailing white space removed. *)
Definition TrimSpace (s : string) : string := TrimRight (TrimLeft s).

(** A string put together from the strings [pats]. *)
Inductive madeOf (pats : list string) : string → Prop :=
  | madeOf_nil : madeOf pats ""
  | madeOf_cons pat s : pat ∈ pats → madeOf pats s → madeOf pats (pat +:+ s).

(** A string of white space: code points for which [unicode.IsSpace] holds,
    one after the other. *)
Definition whiteSpace : string → Prop := madeOf spaceRunes.

(** ** Data model *)

(** A [*Page]: [None] is the nil pointer. *)
Abbreviation addr := nat (only parsing).

Module Link.
(** [type Link struct { Page *Page; CyclicPage bool }] *)
Record t := mk { Page : option addr; CyclicPage : bool }.
(** [var link Link] *)
Definition zero : t := {| Page := None; CyclicPage := false |}.
End Link.

(** [type Page struct { URL string; Fail bool; Links []Link; StaticAssets []string }] *)
Record Page := mkPage {
  URL : string;
  Fail : bool;
  Links : list Link.t;
  StaticAssets : list string
}.

(** [&Page{URL: url}] *)
Definition newPage (url : string) : Page :=
  {| URL := url; Fail := false; Links := []; StaticAssets := [] |}.

(** ** Page.String *)

Definition nonEmpty (s : string) : bool := Nat.ltb 0 (String.length s).

(** The first loop of [String]: one line per static asset. *)
Definition renderAssets (assets : list string) : string :=
  fold_left
    (fun staticAssets staticAsset =>
       (if nonEmpty staticAssets then staticAssets +:+ nl else staticAssets)
       +:+ "  StaticAsset:  " +:+ staticAsset)
    assets "".

(** The last part of [String]: the header and the two optional blocks. *)
Definition renderPage (p : Page) (staticAssets links : string) : string :=
  let pageStr :=
    if Fail p then nl +:+ "Page: " +:+ URL p +:+ " (Failed to get this URL)" +:+ nl
    else nl +:+ "Page: " +:+ URL p +:+ nl in
  let pageStr :=
    if nonEmpty staticAssets then pageStr +:+ nl +:+ staticAssets +:+ nl
    else pageStr in
  if nonEmpty links then pageStr +:+ nl +:+ links +:+ nl else pageStr.

Section Render.
(** The objects the [*Page] pointers of the graph refer to. *)
Variable h : list Page.

(** The recursion of [String] through [link.Page.String()] is bounded by
    [fuel]; [None] is a recursion deeper than [fuel] (or a pointer outside
    the heap, which a Go program cannot build). *)
Fixpoint PageString (fuel : nat) (p : Page) : option string :=
  match fuel with
  | 0 => None
  | S fuel' =>
      let linkPageOf (link : Link.t) : option string :=
        match Link.Page link with
        | None => Some ""
        | Some a =>
            q ← h !! a;
            if Link.CyclicPage link then Some (nl +:+ "    Page: " +:+ URL q)
            else s ← PageString fuel' q;
                 Some (ReplaceNewlines s (nl +:+ "    "))
        end in
      links ← fold_left
                (fun acc link =>
                   links ← acc;
                   linkPage ← linkPageOf link;
                   Some ((if nonEmpty links then links +:+ nl else links)
                         +:+ "  Links in current page: " +:+ linkPage))
                (Links p) (Some "");
      Some (renderPage p (renderAssets (StaticAssets p)) links)
  end.
End Render.

(** The local [linkPage] of [String] for one link, when the calls of
    [String] it makes may nest [fuel] deep. *)
Definition linkPage (h : list Page) (fuel : nat) (link : Link.t) : option string :=
  match Link.Page link with
  | None => Some ""
  | Some a =>
      q ← h !! a;
      if Link.CyclicPage link then Some (nl +:+ "    Page: " +:+ URL q)
      else s ← PageString h fuel q;
           Some (ReplaceNewlines s (nl +:+ "    "))
  end.

(** A page that links to itself, the link not marked cyclic. *)
Definition selfLinked : Page := mkPage "example.com" false [Link.mk (Some 0) false] [].

(** A page that links to itself, the link marked cyclic, and to a second
    page that links back, marked cyclic too. *)
Definition markedCycle : list Page :=
  [ mkPage "example.com" false [Link.mk (Some 0) true; Link.mk (Some 1) false] [];
    mkPage "example.com/a" false [Link.mk (Some 0) true] ["a.css"] ].

(** ** The parsed document ([golang.org/x/net/html]) *)

Inductive NodeType :=
  ErrorNode | TextNode | DocumentNode | ElementNode | CommentNode | DoctypeNode | RawNode.

(** [html.Attribute] *)
Record Attribute := mkAttr { Namespace : string; Key : string; Val : string }.

(** [html.Node]: the children are the [FirstChild]/[NextSibling] chain. *)
#[warnings="-register-all"]
Inductive Node :=
  mkNode (Type_ : NodeType) (Data : string) (Attr : list Attribute) (Children : list Node).

Definition Type_ (n : Node) : NodeType := let 'mkNode t _ _ _ := n in t.
Definition Data (n : Node) : string := let 'mkNode _ d _ _ := n in d.
Definition Attr (n : Node) : list Attribute := let 'mkNode _ _ a _ := n in a.
Definition Children (n : Node) : list Node := let 'mkNode _ _ _ c := n in c.

(** ** The crawler and its goroutines *)

(** [type Fetcher interface { Fetch(url string) (io.Reader, error) }]: a
    reader is its content, an error is [None]; an implementation may keep
    state (the network, for [HTTPFetcher]), which a call hands back. *)
Class Fetcher (F : Type) := Fetch : F → string → option string * F.

(** [type FakeFetcher func(url string) (io.Reader, error)] *)
Definition FakeFetcher := string → option string.
#[export] Instance FakeFetcher_Fetcher : Fetcher FakeFetcher :=
  fun f url => (f url, f).

Definition maxOutstanding : nat := 256.

(** A goroutine started by [go crawlPage(c, page)]. *)
Inductive goroutine :=
  | Spawned (page : addr)                      (* waiting at [<-sem] *)
  | Running (page : addr)                      (* holds a slot, before [Fetch] *)
  | Walking (page : addr) (todo : list Node)   (* in [parseHTML]: the nodes still to visit, in document order *)
  | Finished.                                  (* returned; the deferred function has run *)

(** The [crawler] struct ([domain], [wg], [visitedPages]; the lock is
    implicit: a step that touches [visitedPages] is atomic) together with
    what its pointers and goroutines live in: the [Page] objects, the
    goroutines, the free slots of [sem], and a log of the calls of [Fetch]
    (the page of the calling task and the URL it asked for). *)
Record state := mkState {
  domain : string;
  wg : nat;
  visitedPages : gmap string addr;
  heap : list Page;
  goroutines : list goroutine;
  sem : nat;
  fetched : list (addr * string)
}.

Definition with_wg (f : nat → nat) (s : state) : state :=
  mkState (domain s) (f (wg s)) (visitedPages s) (heap s) (goroutines s) (sem s) (fetched s).
Definition with_visitedPages (f : gmap string addr → gmap string addr) (s : state) : state :=
  mkState (domain s) (wg s) (f (visitedPages s)) (heap s) (goroutines s) (sem s) (fetched s).
Definition with_heap (f : list Page → list Page) (s : state) : state :=
  mkState (domain s) (wg s) (visitedPages s) (f (heap s)) (goroutines s) (sem s) (fetched s).
Definition with_goroutines (f : list goroutine → list goroutine) (s : state) : state :=
  mkState (domain s) (wg s) (visitedPages s) (heap s) (f (goroutines s)) (sem s) (fetched s).
Definition with_sem (f : nat → nat) (s : state) : state :=
  mkState (domain s) (wg s) (visitedPages s) (heap s) (goroutines s) (f (sem s)) (fetched s).
Definition with_fetched (f : list (addr * string) → list (addr * string)) (s : state) : state :=
  mkState (domain s) (wg s) (visitedPages s) (heap s) (goroutines s) (sem s) (f (fetched s)).

(** [page.Fail = true] *)
Definition setFail (page : addr) : state → state :=
  with_heap (alter (fun p => mkPage (URL p) true (Links p) (StaticAssets p)) page).

(** [page.Links = append(page.Links, link)] *)
Definition appendLink (page : addr) (link : Link.t) : state → state :=
  with_heap (alter (fun p => mkPage (URL p) (Fail p) (Links p ++ [link]) (StaticAssets p)) page).

(** [page.StaticAssets = append(page.StaticAssets, val)] *)
Definition appendAsset (page : addr) (val : string) : state → state :=
  with_heap (alter (fun p => mkPage (URL p) (Fail p) (Links p) (StaticAssets p ++ [val])) page).

(** [go crawlPage(c, page)] *)
Definition spawn (page : option addr) (s : state) : state :=
  match page with
  | Some a => with_goroutines (fun g => g ++ [Spawned a]) s
  | None => s
  end.

(** *** parseHTML *)

(** The section of [parseHTML] between [Lock] and [Unlock]: [ok] and the
    local [link] after it, and the new state. *)
Definition lookupOrRegister (linkURL : string) (page : addr) (link : Link.t)
    (s : state) : bool * Link.t * state :=
  match visitedPages s !! linkURL with
  | Some _ =>
      (true, {| Link.Page := Some page; Link.CyclicPage := true |}, s)
  | None =>
      let fresh := length (heap s) in
      (false,
       {| Link.Page := Some fresh; Link.CyclicPage := Link.CyclicPage link |},
       with_visitedPages <[linkURL := fresh]>
         (with_heap (fun h => h ++ [newPage linkURL]) s))
  end.

(** The URL an [href] value stands for. *)
Definition resolve (dom val : string) : string :=
  let linkURL := TrimSpace val in
  if HasPrefix linkURL "/" then dom +:+ linkURL else linkURL.

(** [case "a"]: the loop over the attributes, left at the first [href]. *)
Fixpoint anchor (attrs : list Attribute) (page : addr) (link : Link.t)
    (s : state) : state :=
  match attrs with
  | [] => s
  | attr :: rest =>
      if negb (String.eqb (Key attr) "href") then anchor rest page link s
      else
        let linkURL := resolve (domain s) (Val attr) in
        if HasPrefix linkURL (domain s) then
          let '(ok, link, s) := lookupOrRegister linkURL page link s in
          if negb ok then
            spawn (Link.Page link) (with_wg (fun n => n + 1) (appendLink page link s))
          else s
        else s
  end.

(** [case "link"] and [case "img", "script"]: one asset per attribute [key]. *)
Definition assets (key : string) (attrs : list Attribute) (page : addr)
    (s : state) : state :=
  fold_left
    (fun s attr =>
       if String.eqb (Key attr) key then appendAsset page (Val attr) s else s)
    attrs s.

(** The [if node.Type == html.ElementNode { switch node.Data ... }] of
    [parseHTML]: what visiting one node does. *)
Definition visitNode (node : Node) (page : addr) (s : state) : state :=
  match Type_ node with
  | ElementNode =>
      if String.eqb (Data node) "a" then anchor (Attr node) page Link.zero s
      else if String.eqb (Data node) "link" then assets "href" (Attr node) page s
      else if String.eqb (Data node) "img" || String.eqb (Data node) "script"
      then assets "src" (Attr node) page s
      else s
  | _ => s
  end.

(** [parseHTML(c, node, page)] run without interruption: the node, then its
    children from first to last. *)
Fixpoint parseHTML (node : Node) (page : addr) (s : state) : state :=
  fold_left (fun s child => parseHTML child page s) (Children node)
    (visitNode node page s).

(** *** crawlPage and Crawl *)

Section Crawler.
Context {F : Type} `{Fetcher F}.
(** [html.Parse], on the content of the reader. *)
Variable Parse : string → option Node.

(** The deferred function of [crawlPage]: [sem <- 1; c.wg.Done()]. *)
Definition finish (i : nat) (s : state) : state :=
  with_goroutines <[i := Finished]>
    (with_wg (fun n => n - 1) (with_sem (fun n => n + 1) s)).

(** One step of goroutine [i], on the fetcher and the state of the crawl:
    taking a slot of [sem] (possible only when one is free); [Fetch] and
    [html.Parse]; the visit of the next node of the document; the return.
    The visit of a node and the return are one step each here; [Fine.step]
    below takes the statements after [Unlock] and the two statements of the
    deferred function one by one. *)
Definition step (i : nat) (c : F * state) : F * state :=
  let '(fetcher, s) := c in
  match goroutines s !! i with
  | None | Some Finished => c
  | Some (Spawned page) =>
      if Nat.eqb (sem s) 0 then c
      else (fetcher,
            with_goroutines <[i := Running page]> (with_sem (fun n => n - 1) s))
  | Some (Running page) =>
      let url := domain s in
      let s := with_fetched (fun l => l ++ [(page, url)]) s in
      let '(r, fetcher) := Fetch fetcher url in
      match r with
      | None => (fetcher, finish i (setFail page s))
      | Some r =>
          match Parse r with
          | None => (fetcher, finish i (setFail page s))
          | Some root => (fetcher, with_goroutines <[i := Walking page [root]]> s)
          end
      end
  | Some (Walking page []) => (fetcher, finish i s)
  | Some (Walking page (node :: todo)) =>
      (fetcher,
       with_goroutines <[i := Walking page (Children node ++ todo)]>
         (visitNode node page s))
  end.

(** The goroutines run in the order [sched] names them. *)
Definition run (sched : list nat) (c : F * state) : F * state :=
  fold_left (fun c i => step i c) sched c.

(** [Crawl] up to [c.wg.Wait()]. *)
Definition Crawl_start (url : string) : state :=
  {| domain := url; wg := 1; visitedPages := {[ url := 0 ]};
     heap := [newPage url]; goroutines := [Spawned 0];
     sem := maxOutstanding; fetched := [] |}.

(** [Crawl(url, fetcher)] under the schedule [sched]: [c.wg.Wait()]
    returns when the counter is zero, and [Crawl] returns [p] (here with
    the state, whose heap holds the pages [p] links to). *)
Definition Crawl (fetcher : F) (sched : list nat) (url : string)
    : option (state * Page) :=
  let s := (run sched (fetcher, Crawl_start url)).2 in
  if Nat.eqb (wg s) 0 then p ← heap s !! 0; Some (s, p) else None.
End Crawler.

(** ** The test of the package *)

Definition elem (tag : string) (attrs : list (string * string)) (ch : list Node) : Node :=
  mkNode ElementNode tag (map (fun kv => mkAttr "" kv.1 kv.2) attrs) ch.
Definition text (t : string) : Node := mkNode TextNode t [] [].

(** The element nodes of the document of [TestCrawler], in the order and
    with the attributes [html.Parse] gives them. Of the text nodes only the
    one of the anchor is kept: left out are the ones that hold white space,
    and the text child that [html.Parse] gives the [script] element, which
    [/>] does not close, so that the rest of the document becomes its text.
    [parseHTML] looks at element nodes only (line 478), and a text node has
    no children, so the text nodes play no part in what it does. *)
Definition testDocument : Node :=
  mkNode DocumentNode "" []
    [elem "html" []
       [elem "head" []
          [elem "link" [("rel", "stylesheet"); ("type", "text/css"); ("href", "example.css")] []];
        elem "body" []
          [elem "a" [("href", "example.com/test")] [text "Example"];
           elem "img" [("src", "example.png"); ("alt", "example")] [];
           elem "script" [("type", "text/javascript"); ("src", "example.js")] []]]].

Definition testFetcher : FakeFetcher := fun _ => Some "testData".
Definition testParse : string → option Node := fun _ => Some testDocument.

(** ** The locked section of parseHTML, at the grain of the lock

    Two goroutines run [Lock(); _, ok = visitedPages[linkURL]; ...;
    Unlock()] for their own [linkURL], every statement a step of its own,
    in any interleaving. *)

Module Registry.
Inductive pc :=
  | AtLock      (* before [c.visitedPagesLock.Lock()] *)
  | AtLookup    (* holds the lock, before [_, ok = c.visitedPages[linkURL]] *)
  | AtStore     (* [ok] is false, before the two statements of the else branch *)
  | AtUnlock    (* before [c.visitedPagesLock.Unlock()] *)
  | Done.

(** The locals of one goroutine: [linkURL], [page], [ok] and [link]. *)
Record task := mkTask {
  at_ : pc;
  linkURL : string;
  page : addr;
  ok : bool;
  link : Link.t
}.

(** [visitedPagesLock], [visitedPages] and the [Page] objects. *)
Record shared := mkShared {
  locked : bool;
  visitedPages : gmap string addr;
  heap : list Page
}.

(** One statement of task [t]; [Lock] does not return while the lock is
    held. *)
Definition exec (t : task) (sh : shared) : task * shared :=
  match at_ t with
  | AtLock =>
      if locked sh then (t, sh)
      else (mkTask AtLookup (linkURL t) (page t) (ok t) (link t),
            mkShared true (visitedPages sh) (heap sh))
  | AtLookup =>
      match visitedPages sh !! linkURL t with
      | Some _ =>
          (mkTask AtUnlock (linkURL t) (page t) true
             {| Link.Page := Some (page t); Link.CyclicPage := true |}, sh)
      | None => (mkTask AtStore (linkURL t) (page t) false (link t), sh)
      end
  | AtStore =>
      let fresh := length (heap sh) in
      (mkTask AtUnlock (linkURL t) (page t) (ok t)
         {| Link.Page := Some fresh; Link.CyclicPage := Link.CyclicPage (link t) |},
       mkShared (locked sh) (<[linkURL t := fresh]> (visitedPages sh))
         (heap sh ++ [newPage (linkURL t)]))
  | AtUnlock =>
      (mkTask Done (linkURL t) (page t) (ok t) (link t),
       mkShared false (visitedPages sh) (heap sh))
  | Done => (t, sh)
  end.

(** [n] statements of one task in a row. *)
Fixpoint execN (n : nat) (t : task) (s : shared) : task * shared :=
  match n with
  | 0 => (t, s)
  | S n' => let '(t', s') := exec t s in execN n' t' s'
  end.

Record system := mkSystem { sh : shared; t1 : task; t2 : task }.

(** The scheduler picks the first task ([false]) or the second ([true]). *)
Definition step (who : bool) (s : system) : system :=
  if who then let '(t, sh') := exec (t2 s) (sh s) in mkSystem sh' (t1 s) t
  else let '(t, sh') := exec (t1 s) (sh s) in mkSystem sh' t (t2 s).

Definition run (sched : list bool) (s : system) : system :=
  fold_left (fun s who => step who s) sched s.

(** Both tasks arrive at the locked section ([ok := true], [var link Link])
    with the lock free. *)
Definition start (m : gmap string addr) (h : list Page)
    (u1 : string) (p1 : addr) (u2 : string) (p2 : addr) : system :=
  mkSystem (mkShared false m h)
    (mkTask AtLock u1 p1 true Link.zero) (mkTask AtLock u2 p2 true Link.zero).

Definition finished (s : system) : bool :=
  match at_ (t1 s), at_ (t2 s) with Done, Done => true | _, _ => false end.

(** What a task saw: [ok] false is "created", [ok] true is "already
    present". *)
Definition created (t : task) : bool := negb (ok t).

Definition inCritical (t : task) : bool :=
  match at_ t with AtLookup | AtStore | AtUnlock => true | _ => false end.

(** The task has run the else branch: it created the page. *)
Definition stored (t : task) : bool :=
  match at_ t with AtUnlock | Done => negb (ok t) | _ => false end.

(** What is known of a task of referring page [p] on the URL [u], in a run
    that started with [length h] pages. *)
Definition taskOk (h : list Page) (u : string) (p : addr)
    (s : shared) (t : task) : Prop :=
  linkURL t = u ∧ page t = p ∧
  match at_ t with
  | AtLock | AtLookup => ok t = true ∧ link t = Link.zero
  | AtStore =>
      ok t = false ∧ link t = Link.zero ∧ visitedPages s !! u = None
  | AtUnlock | Done =>
      if ok t then link t = Link.mk (Some p) true ∧ is_Some (visitedPages s !! u)
      else link t = Link.mk (Some (length h)) false
  end.

(** What holds at every moment of a run of two tasks on the same URL [u]
    that started from the map [m] and the pages [h]. *)
Definition inv (m : gmap string addr) (h : list Page) (u : string)
    (p1 p2 : addr) (s : system) : Prop :=
  taskOk h u p1 (sh s) (t1 s) ∧ taskOk h u p2 (sh s) (t2 s)
  ∧ locked (sh s) = (inCritical (t1 s) || inCritical (t2 s))
  ∧ inCritical (t1 s) && inCritical (t2 s) = false
  ∧ stored (t1 s) && stored (t2 s) = false
  ∧ (if stored (t1 s) || stored (t2 s)
     then visitedPages (sh s) = <[u := length h]> m
          ∧ heap (sh s) = h ++ [newPage u] ∧ m !! u = None
     else visitedPages (sh s) = m ∧ heap (sh s) = h).
End Registry.

(** ** Notions the properties are stated with *)

(** Every pointer of the graph refers to an object of the heap (which holds
    of every Go heap). *)
Definition pointersValid (h : list Page) : Prop :=
  ∀ a p link b, h !! a = Some p → link ∈ Links p →
    Link.Page link = Some b → is_Some (h !! b).

(** [String], called on the page at [a], calls itself on the page at [b]:
    a link of [a] that is not marked cyclic points to [b]. *)
Definition expands (h : list Page) (a b : addr) : Prop :=
  ∃ p link, h !! a = Some p ∧ link ∈ Links p ∧
            Link.Page link = Some b ∧ Link.CyclicPage link = false.

(** The values of the attributes named [key], in the order of the element. *)
Definition attrValues (key : string) (attrs : list Attribute) : list string :=
  map Val (List.filter (fun attr => String.eqb (Key attr) key) attrs).

(** [page.StaticAssets = append(page.StaticAssets, vals...)] *)
Definition appendAssets (page : addr) (vals : list string) : state → state :=
  with_heap (alter (fun p => mkPage (URL p) (Fail p) (Links p) (StaticAssets p ++ vals)) page).

(** The asset references of one node, as the specification words them:
    the [href] values of a [link] element, the [src] values of an [img] or
    [script] element. *)
Definition nodeAssets (node : Node) : list string :=
  match Type_ node with
  | ElementNode =>
      if String.eqb (Data node) "link" then attrValues "href" (Attr node)
      else if String.eqb (Data node) "img" || String.eqb (Data node) "script"
      then attrValues "src" (Attr node)
      else []
  | _ => []
  end.

(** The asset references of a document in document order: a node before its
    children, the children from first to last. *)
Fixpoint documentAssets (node : Node) : list string :=
  nodeAssets node ++ flat_map documentAssets (Children node).

(** What [parseHTML] does with a link into the domain (lines 493 to 512):
    the locked section, then the append, [wg.Add] and [go] when the URL is
    new. *)
Definition followLink (linkURL : string) (page : addr) (s : state) : state :=
  let '(ok, link, s) := lookupOrRegister linkURL page Link.zero s in
  if negb ok then
    spawn (Link.Page link) (with_wg (fun n => n + 1) (appendLink page link s))
  else s.

(** An anchor, as the specification words it: the first [href] attribute,
    trimmed, resolved against the domain when it starts with a slash, and
    dropped when the result does not start with the domain. *)
Definition anchorSpec (attrs : list Attribute) (page : addr) (s : state) : state :=
  match List.find (fun attr => String.eqb (Key attr) "href") attrs with
  | None => s
  | Some attr =>
      let trimmed := TrimSpace (Val attr) in
      let resolved :=
        if HasPrefix trimmed "/" then domain s +:+ trimmed else trimmed in
      if HasPrefix resolved (domain s) then followLink resolved page s else s
  end.

(** The page a goroutine works on. *)
Definition pageOf (g : goroutine) : option addr :=
  match g with
  | Spawned page | Running page | Walking page _ => Some page
  | Finished => None
  end.

(** The fetcher and the state of a crawl of [url] at some moment of some
    schedule. *)
Definition reachable {F : Type} `{Fetcher F} (fetcher : F)
    (Parse : string → option Node) (url : string) (c : F * state) : Prop :=
  ∃ sched, c = run Parse sched (fetcher, Crawl_start url).

(** What [TestCrawler] expects. *)
Definition expectedHeap : list Page :=
  [ mkPage "example.com" false [Link.mk (Some 1) false]
      ["example.css"; "example.png"; "example.js"];
    mkPage "example.com/test" false []
      ["example.css"; "example.png"; "example.js"] ].

(** Every goroutine that has not returned works on a page of the heap whose
    [Fail] flag is not set, and no two of them work on the same page;
    [pages] are the pages of the goroutines, [None] for one that returned. *)
Definition ownLivePages (h : list Page) (pages : list (option addr)) : Prop :=
  (∀ i a, pages !! i = Some (Some a) → ∃ p, h !! a = Some p ∧ Fail p = false)
  ∧ (∀ i j a, pages !! i = Some (Some a) → pages !! j = Some (Some a) → i = j).

Definition invariant (s : state) : Prop :=
  ownLivePages (heap s) (pageOf <$> goroutines s).

(** Every link of the heap points to a page created after the page that
    holds it, and is not marked cyclic. *)
Definition linksForward (h : list Page) : Prop :=
  ∀ a p link, h !! a = Some p → link ∈ Links p →
    ∃ b, Link.Page link = Some b ∧ a < b < length h
         ∧ Link.CyclicPage link = false.

(** The nodes of a document, and of a list of documents. *)
Fixpoint nodeCount (node : Node) : nat :=
  S (list_sum (map nodeCount (Children node))).

Definition forestCount (nodes : list Node) : nat :=
  list_sum (map nodeCount nodes).

(** [parseHTML] on each node of a list in turn, as its loop over the
    children does. *)
Definition parseAll (nodes : list Node) (page : addr) (s : state) : state :=
  fold_left (fun s node => parseHTML node page s) nodes s.

(** No goroutine works on [page]. *)
Definition unowned (s : state) (page : addr) : Prop :=
  ∀ k g, goroutines s !! k = Some g → pageOf g ≠ Some page.

(** Goroutine [i] is in [parseHTML] for [page], and the assets of the page
    followed by those of the nodes still before the goroutine are [total];
    or it has returned, and the assets of the page are [total]. *)
Definition walked (i : nat) (page : addr) (total : list string) (s : state) : Prop :=
  ∃ p, heap s !! page = Some p
    ∧ ((∃ todo, goroutines s !! i = Some (Walking page todo)
          ∧ StaticAssets p ++ flat_map documentAssets todo = total)
       ∨ (goroutines s !! i = Some Finished ∧ unowned s page
          ∧ StaticAssets p = total)).

(** A fetcher that serves the document of the test a given number of times
    and fails from then on. *)
Record flakyFetcher := mkFlaky { remaining : nat }.
#[export] Instance flakyFetcher_Fetcher : Fetcher flakyFetcher :=
  fun f url =>
    match remaining f with
    | 0 => (None, f)
    | S n => (Some "testData", mkFlaky n)
    end.

(** A fetcher for which every request fails. *)
Definition failingFetcher : FakeFetcher := fun _ => None.

(** A fetcher that serves the seed of the test and fails for any other URL. *)
Definition seedOnlyFetcher : FakeFetcher :=
  fun url => if String.eqb url "example.com" then Some "testData" else None.

(** The crawl of [url] when the seed task holds a slot. *)
Definition seedRunning (url : string) : state :=
  mkState url 1 {[ url := 0 ]} [newPage url] [Running 0] (maxOutstanding - 1) [].

(** The crawl of [url] when the seed task has failed and returned. *)
Definition seedFailed (url : string) : state :=
  mkState url 0 {[ url := 0 ]} [mkPage url true [] []] [Finished]
    maxOutstanding [(0, url)].

(** A document that names one image twice, with spaces around the value. *)
Definition repeatedAssets : Node :=
  elem "body" []
    [elem "img" [("src", " a.png ")] [];
     elem "a" [("href", "/next")] [elem "img" [("src", " a.png ")] []];
     elem "link" [("rel", "icon"); ("href", "a.ico")] []].

(** ** The steps of a crawl as a relation

    What [parseHTML] does with a URL of the domain that is not in
    [visitedPages] (lines 500 to 511): a new page, its registration, the
    link, [wg.Add(1)] and the goroutine. *)
Definition register (linkURL : string) (page : addr) (s : state) : state :=
  let fresh := length (heap s) in
  spawn (Some fresh)
    (with_wg (fun n => n + 1)
       (appendLink page (Link.mk (Some fresh) false)
          (with_visitedPages <[linkURL := fresh]>
             (with_heap (fun h => h ++ [newPage linkURL]) s)))).

(** Every change of the state that a step of a goroutine can make, in the
    revision of [crawlPage] that asks the fetcher for [c.domain] and in the
    earlier one that asks for [page.URL]: [call] is the entry of the log,
    the page of the task and the URL it asked for. *)
Inductive transition : state → state → Prop :=
  | tr_none s : transition s s
  | tr_acquire s i page :
      goroutines s !! i = Some (Spawned page) → sem s ≠ 0 →
      transition s
        (with_goroutines <[i := Running page]> (with_sem (fun n => n - 1) s))
  | tr_fail s i page call :
      goroutines s !! i = Some (Running page) → call.1 = page →
      transition s
        (finish i (setFail page (with_fetched (fun l => l ++ [call]) s)))
  | tr_parsed s i page call root :
      goroutines s !! i = Some (Running page) → call.1 = page →
      transition s
        (with_goroutines <[i := Walking page [root]]>
           (with_fetched (fun l => l ++ [call]) s))
  | tr_return s i page :
      goroutines s !! i = Some (Walking page []) →
      transition s (finish i s)
  | tr_assets s i page node todo vals :
      goroutines s !! i = Some (Walking page (node :: todo)) →
      transition s
        (with_goroutines <[i := Walking page (Children node ++ todo)]>
           (appendAssets page vals s))
  | tr_register s i page node todo u :
      goroutines s !! i = Some (Walking page (node :: todo)) →
      visitedPages s !! u = None → HasPrefix u (domain s) = true →
      transition s
        (with_goroutines <[i := Walking page (Children node ++ todo)]>
           (register u page s)).

(** The goroutines of a list that satisfy [f]. *)
Definition countIf (f : goroutine → bool) (gs : list goroutine) : nat :=
  length (List.filter f gs).

(** The goroutine has not returned. *)
Definition live (g : goroutine) : bool :=
  match g with Finished => false | _ => true end.

(** The goroutine holds a slot of [sem]: it is between [<-sem] and the
    deferred [sem <- 1]. *)
Definition holdsSlot (g : goroutine) : bool :=
  match g with Running _ | Walking _ _ => true | _ => false end.

(** The goroutine has called [Fetch]. *)
Definition pastFetch (g : goroutine) : bool :=
  match g with Walking _ _ | Finished => true | _ => false end.

(** ** The earlier revision of crawlPage (lines 200 to 241)

    [Crawl(url)] and [crawlPage] before the [Fetcher] interface:
    [http.Get(page.URL)] and [ioutil.ReadAll], here the fetcher, then
    [html.Parse]; [parseHTML] is the same. *)
Module Earlier.
Section Crawler.
Context {F : Type} `{Fetcher F}.
Variable Parse : string → option Node.

Definition step (i : nat) (c : F * state) : F * state :=
  let '(network, s) := c in
  match goroutines s !! i with
  | None | Some Finished => c
  | Some (Spawned page) =>
      if Nat.eqb (sem s) 0 then c
      else (network,
            with_goroutines <[i := Running page]> (with_sem (fun n => n - 1) s))
  | Some (Running page) =>
      match heap s !! page with
      | None => c
      | Some p =>
          let url := URL p in
          let s := with_fetched (fun l => l ++ [(page, url)]) s in
          let '(body, network) := Fetch network url in
          match body with
          | None => (network, finish i (setFail page s))
          | Some body =>
              match Parse body with
              | None => (network, finish i (setFail page s))
              | Some root =>
                  (network, with_goroutines <[i := Walking page [root]]> s)
              end
          end
      end
  | Some (Walking page []) => (network, finish i s)
  | Some (Walking page (node :: todo)) =>
      (network,
       with_goroutines <[i := Walking page (Children node ++ todo)]>
         (visitNode node page s))
  end.

Definition run (sched : list nat) (c : F * state) : F * state :=
  fold_left (fun c i => step i c) sched c.

Definition Crawl (network : F) (sched : list nat) (url : string)
    : option (state * Page) :=
  let s := (run sched (network, Crawl_start url)).2 in
  if Nat.eqb (wg s) 0 then p ← heap s !! 0; Some (s, p) else None.
End Crawler.
End Earlier.

(** [wg] counts the goroutines that have not returned, and the free slots
    of [sem] and the goroutines that hold one add up to [maxOutstanding]. *)
Definition accounted (s : state) : Prop :=
  wg s = countIf live (goroutines s)
  ∧ sem s + countIf holdsSlot (goroutines s) = maxOutstanding.

(** A page as it is later in a crawl: the same URL, [Fail] still set if it
    was, and the links and the assets it had, with what was appended. *)
Definition grows (p p' : Page) : Prop :=
  URL p' = URL p ∧ (Fail p = true → Fail p' = true)
  ∧ Links p `prefix_of` Links p'
  ∧ StaticAssets p `prefix_of` StaticAssets p'.

(** [visitedPages] maps a URL to a page exactly when the page has this
    URL. *)
Definition registryAgrees (s : state) : Prop :=
  ∀ u a, visitedPages s !! u = Some a ↔ URL <$> heap s !! a = Some u.

(** Goroutine [i] is the one started for page [i]. *)
Definition ownPage (s : state) : Prop :=
  length (goroutines s) = length (heap s)
  ∧ ∀ i g, goroutines s !! i = Some g → pageOf g = Some i ∨ g = Finished.

(** No goroutine is still to call [Fetch] for the page [a]. *)
Definition fetchDone (s : state) (a : addr) : Prop :=
  ∀ i g, goroutines s !! i = Some g → g ≠ Spawned a ∧ g ≠ Running a.

(** The log of the calls of [Fetch] names no page twice, and names the
    pages whose goroutine has called [Fetch]. *)
Definition fetchedOnce (s : state) : Prop :=
  NoDup (fetched s).*1
  ∧ ∀ a, a ∈ (fetched s).*1
         ↔ ∃ g, goroutines s !! a = Some g ∧ pastFetch g = true.

(** The link [parseHTML] appends for a new page. *)
Definition linkTo (b : addr) : Link.t := Link.mk (Some b) false.

(** ** What parseHTML makes of a document

    The URL an anchor element stands for, when it is a URL of the domain
    [dom]: its first [href], trimmed and resolved. *)
Definition nodeURL (dom : string) (node : Node) : option string :=
  match Type_ node with
  | ElementNode =>
      if String.eqb (Data node) "a" then
        attr ← List.find (fun attr => String.eqb (Key attr) "href") (Attr node);
        let linkURL := resolve dom (Val attr) in
        if HasPrefix linkURL dom then Some linkURL else None
      else None
  | _ => None
  end.

(** The URLs of the domain that the anchors of a document stand for, in
    document order. *)
Fixpoint documentURLs (dom : string) (node : Node) : list string :=
  option_list (nodeURL dom node) ++ flat_map (documentURLs dom) (Children node).

(** [found], and [u] after it unless [m] registers [u] or [found] has it. *)
Definition collect (m : gmap string addr) (found : list string) (u : string)
    : list string :=
  if decide (is_Some (m !! u) ∨ u ∈ found) then found else found ++ [u].

(** The URLs of [urls] that [m] does not register, each once, in the order
    in which they first occur. *)
Definition newURLs (m : gmap string addr) (urls : list string) : list string :=
  fold_left (collect m) urls [].

(** [m] with the URLs [us] registered to the addresses from [fresh] on. *)
Fixpoint registerAll (fresh : addr) (us : list string) (m : gmap string addr)
    : gmap string addr :=
  match us with
  | [] => m
  | u :: us => registerAll (S fresh) us (<[u := fresh]> m)
  end.

(** The state [s] after the task of [page] has found the new URLs [us] and
    the assets [vals]: a page, a registration, a goroutine and a count of
    [wg] for each URL, and the page of the task with a link to each new
    page and with the assets. *)
Definition afterDocument (s : state) (page : addr) (us vals : list string) : state :=
  let n := length (heap s) in
  {| domain := domain s;
     wg := wg s + length us;
     visitedPages := registerAll n us (visitedPages s);
     heap :=
       alter (fun p => mkPage (URL p) (Fail p)
                         (Links p ++ (linkTo <$> seq n (length us)))
                         (StaticAssets p ++ vals))
         page (heap s ++ (newPage <$> us));
     goroutines := goroutines s ++ (Spawned <$> seq n (length us));
     sem := sem s;
     fetched := fetched s |}.

(** ** crawlPage as one function

    [crawlPage(c, page)], run by goroutine [i] from its first statement to
    its return without another goroutine in between. *)
Definition crawlPage {F : Type} `{Fetcher F} (Parse : string → option Node)
    (i : nat) (page : addr) (c : F * state) : F * state :=
  let '(fetcher, s) := c in
  let s := with_sem (fun n => n - 1) s in
  let s := with_fetched (fun l => l ++ [(page, domain s)]) s in
  let '(r, fetcher) := Fetch fetcher (domain s) in
  match r with
  | None => (fetcher, finish i (setFail page s))
  | Some r =>
      match Parse r with
      | None => (fetcher, finish i (setFail page s))
      | Some root => (fetcher, finish i (parseHTML root page s))
      end
  end.

(** The steps a goroutine takes from [<-sem] to its return: two when the
    fetch or the parse fails, and else these two, one for every node of
    the document, and the return. *)
Definition crawlPageSteps {F : Type} `{Fetcher F} (Parse : string → option Node)
    (c : F * state) : nat :=
  match (Fetch c.1 (domain c.2)).1 ≫= Parse with
  | Some root => nodeCount root + 3
  | None => 2
  end.

(** Every call of the log asked for the URL of the page of its task. *)
Definition logged (s : state) : Prop :=
  ∀ a u, (a, u) ∈ fetched s → URL <$> heap s !! a = Some u.

(** The task of goroutine [i] is in [parseHTML] and every URL of [urls] is
    registered or is the URL of an anchor still before it; or the task has
    returned and every URL of [urls] is registered. *)
Definition followed (i : nat) (dom : string) (urls : list string) (s : state) : Prop :=
  (∃ page todo,
     goroutines s !! i = Some (Walking page todo)
     ∧ ∀ u, u ∈ urls →
         is_Some (visitedPages s !! u) ∨ u ∈ flat_map (documentURLs dom) todo)
  ∨ (goroutines s !! i = Some Finished
     ∧ ∀ u, u ∈ urls → is_Some (visitedPages s !! u)).

(** ** A fetcher that answers a request for a URL always the same way

    The document every task of a crawl of [url] parses when the fetcher is
    a [FakeFetcher]: [crawlPage] asks for [c.domain] whatever its page. *)
Definition served (f : FakeFetcher) (Parse : string → option Node) (url : string)
    : option Node :=
  f url ≫= Parse.

(** The URLs of the domain its anchors stand for, and its nodes. *)
Definition servedURLs (f : FakeFetcher) (Parse : string → option Node)
    (url : string) : list string :=
  match served f Parse url with
  | Some root => documentURLs url root
  | None => []
  end.

Definition servedNodes (f : FakeFetcher) (Parse : string → option Node)
    (url : string) : nat :=
  match served f Parse url with
  | Some root => nodeCount root
  | None => 0
  end.

(** The anchors still before a goroutine stand for URLs of [urls]. *)
Definition todoWithin (urls : list string) (dom : string) (g : goroutine) : Prop :=
  match g with
  | Walking _ todo => ∀ u, u ∈ flat_map (documentURLs dom) todo → u ∈ urls
  | _ => True
  end.

(** What holds all along a crawl of [url] with the fetcher [f]. *)
Definition replaying (f : FakeFetcher) (Parse : string → option Node)
    (url : string) (s : state) : Prop :=
  domain s = url ∧ ownPage s ∧ registryAgrees s ∧ accounted s
  ∧ (∀ u a, visitedPages s !! u = Some a →
       u = url ∨ u ∈ servedURLs f Parse url)
  ∧ (∀ k g, goroutines s !! k = Some g →
       todoWithin (servedURLs f Parse url) url g).

(** The steps a goroutine has before it at most, when a document has [K]
    nodes. *)
Definition stepsLeft (K : nat) (g : goroutine) : nat :=
  match g with
  | Spawned _ => K + 3
  | Running _ => K + 2
  | Walking _ todo => forestCount todo + 1
  | Finished => 0
  end.

(** The steps the goroutines have before them at most, those not yet
    started included, when there are at most [B] pages. *)
Definition workLeft (K B : nat) (s : state) : nat :=
  list_sum (stepsLeft K <$> goroutines s) + (B - length (goroutines s)) * (K + 3).

Definition crawlWork (f : FakeFetcher) (Parse : string → option Node)
    (url : string) (s : state) : nat :=
  workLeft (servedNodes f Parse url) (1 + length (servedURLs f Parse url)) s.

(** What the assets of the page of a goroutine are, when every task parses
    the document [D]: none before [parseHTML]; with those of the nodes
    still before the goroutine, the assets of [D]; the assets of [D] after
    the return. *)
Definition assetsDue (D : Node) (g : goroutine) (q : Page) : Prop :=
  match g with
  | Spawned _ | Running _ => StaticAssets q = []
  | Walking _ todo =>
      StaticAssets q ++ flat_map documentAssets todo = documentAssets D
  | Finished => StaticAssets q = documentAssets D
  end.

(** The page of goroutine [i] has not failed and has the assets due. *)
Definition pageReady (D : Node) (s : state) (i : nat) (g : goroutine) : Prop :=
  ∃ q, heap s !! i = Some q ∧ Fail q = false ∧ assetsDue D g q.

(** The seed task has not called [Fetch]. *)
Definition seedWaiting (s : state) : Prop :=
  goroutines s !! 0 = Some (Spawned 0) ∨ goroutines s !! 0 = Some (Running 0).

(** What holds all along a crawl of [url] whose fetcher [f] serves the
    document [D] for it. *)
Definition mapping (f : FakeFetcher) (Parse : string → option Node)
    (url : string) (D : Node) (s : state) : Prop :=
  replaying f Parse url s
  ∧ (∀ i g, goroutines s !! i = Some g → pageReady D s i g)
  ∧ (seedWaiting s ∨ followed 0 url (documentURLs url D) s).

(** ** The site map of the earlier revision

    The document of a page, when the fetcher is a function of the URL: what
    [http.Get(page.URL)] and [html.Parse] give for its URL. *)
Definition docOf (f : FakeFetcher) (Parse : string → option Node) (q : Page)
    : option Node :=
  f (URL q) ≫= Parse.

(** What is due of the page [q] of a goroutine, [m] being [visitedPages]:
    before the fetch the page is empty; in [parseHTML] it has, with the
    assets of the nodes still before the goroutine, those of its document,
    and every URL of the document is registered or still to come; after
    the return it has failed, if it has no document, or has the assets of
    its document, of which every URL is registered. *)
Definition surveyDue (f : FakeFetcher) (Parse : string → option Node)
    (url : string) (m : gmap string addr) (g : goroutine) (q : Page) : Prop :=
  match g with
  | Spawned _ | Running _ => Fail q = false ∧ StaticAssets q = []
  | Walking _ todo =>
      Fail q = false
      ∧ ∃ D, docOf f Parse q = Some D
             ∧ StaticAssets q ++ flat_map documentAssets todo = documentAssets D
             ∧ (∀ u, u ∈ flat_map (documentURLs url) todo → u ∈ documentURLs url D)
             ∧ (∀ u, u ∈ documentURLs url D →
                  is_Some (m !! u) ∨ u ∈ flat_map (documentURLs url) todo)
  | Finished =>
      match docOf f Parse q with
      | None => Fail q = true ∧ StaticAssets q = []
      | Some D =>
          Fail q = false ∧ StaticAssets q = documentAssets D
          ∧ ∀ u, u ∈ documentURLs url D → is_Some (m !! u)
      end
  end.

Definition pageSurveyed (f : FakeFetcher) (Parse : string → option Node)
    (url : string) (s : state) (i : nat) (g : goroutine) : Prop :=
  ∃ q, heap s !! i = Some q ∧ surveyDue f Parse url (visitedPages s) g q.

(** Every page but the first has its URL in the document of a page created
    before it. *)
Definition linkedFrom (f : FakeFetcher) (Parse : string → option Node)
    (url : string) (h : list Page) : Prop :=
  ∀ a q, h !! a = Some q →
    a = 0 ∨ ∃ b qb D, b < a ∧ h !! b = Some qb ∧ docOf f Parse qb = Some D
                      ∧ URL q ∈ documentURLs url D.

(** What holds all along a crawl of [url] by the earlier revision. *)
Definition surveying (f : FakeFetcher) (Parse : string → option Node)
    (url : string) (s : state) : Prop :=
  domain s = url ∧ ownPage s ∧ registryAgrees s ∧ accounted s
  ∧ (∀ i g, goroutines s !! i = Some g → pageSurveyed f Parse url s i g)
  ∧ linkedFrom f Parse url (heap s).

(** ** The crawl, statement by statement

    The crawl of [step], with the statements of [parseHTML] after [Unlock]
    (lines 508 to 511) and the two statements of the deferred function of
    [crawlPage] (lines 456 and 457) as steps of their own. Still one step
    each are: [Fetch], [html.Parse] and the assignment of [Fail], which
    write to the page of the task alone; the appends of a [link], [img] or
    [script] element, to the page of the task alone; and the attribute loop
    of an anchor up to [Unlock], of which only what is between [Lock] and
    [Unlock] touches what the goroutines share. *)
Module Fine.
(** A goroutine, by the statement it is at. *)
Inductive task :=
  | Spawned (page : addr)      (* at [<-sem], line 453 *)
  | Running (page : addr)      (* holds a slot: at [c.fetcher.Fetch], line 460 *)
  | Walking (page : addr) (todo : list Node)
                               (* in [parseHTML], at the first node of [todo] *)
  | AtAppend (page : addr) (link : Link.t) (todo : list Node)
                               (* [ok] is false: at the append, line 509 *)
  | AtAdd (page : addr) (link : Link.t) (todo : list Node)
                               (* at [c.wg.Add(1)], line 510 *)
  | AtGo (page : addr) (link : Link.t) (todo : list Node)
                               (* at [go crawlPage(c, link.Page)], line 511 *)
  | AtRelease (page : addr)    (* [crawlPage] returns: at [sem <- 1], line 456 *)
  | AtDone (page : addr)       (* at [c.wg.Done()], line 457 *)
  | Finished.

(** The crawler, the heap, [sem] and the log as in [state] (whose
    [goroutines] stay empty), and the goroutines. *)
Record system := mkSystem { shared : state; tasks : list task }.

(** The loop over the attributes of [case "a"] down to the locked section:
    the URL it reaches [Lock] with, if it does. *)
Fixpoint anchorURL (attrs : list Attribute) (dom : string) : option string :=
  match attrs with
  | [] => None
  | attr :: rest =>
      if negb (String.eqb (Key attr) "href") then anchorURL rest dom
      else
        let linkURL := resolve dom (Val attr) in
        if HasPrefix linkURL dom then Some linkURL else None
  end.

(** The visit of one node down to [Unlock], with [rest] the nodes to visit
    after it: where the task is then, and the state. *)
Definition visit (node : Node) (page : addr) (rest : list Node) (s : state)
    : task * state :=
  match Type_ node with
  | ElementNode =>
      if String.eqb (Data node) "a" then
        match anchorURL (Attr node) (domain s) with
        | None => (Walking page rest, s)
        | Some linkURL =>
            let '(ok, link, s) := lookupOrRegister linkURL page Link.zero s in
            if negb ok then (AtAppend page link rest, s)
            else (Walking page rest, s)
        end
      else if String.eqb (Data node) "link"
      then (Walking page rest, assets "href" (Attr node) page s)
      else if String.eqb (Data node) "img" || String.eqb (Data node) "script"
      then (Walking page rest, assets "src" (Attr node) page s)
      else (Walking page rest, s)
  | _ => (Walking page rest, s)
  end.

(** The goroutine that [go crawlPage(c, link.Page)] starts. *)
Definition started (link : Link.t) : list task :=
  match Link.Page link with
  | Some a => [Spawned a]
  | None => []
  end.

Section Crawler.
Context {F : Type} `{Fetcher F}.
Variable Parse : string → option Node.

(** One step of goroutine [i]. *)
Definition step (i : nat) (c : F * system) : F * system :=
  let '(fetcher, y) := c in
  let s := shared y in
  let become (t : task) (s : state) := mkSystem s (<[i := t]> (tasks y)) in
  match tasks y !! i with
  | None | Some Finished => c
  | Some (Spawned page) =>
      if Nat.eqb (sem s) 0 then c
      else (fetcher, become (Running page) (with_sem (fun n => n - 1) s))
  | Some (Running page) =>
      let url := domain s in
      let s := with_fetched (fun l => l ++ [(page, url)]) s in
      let '(r, fetcher) := Fetch fetcher url in
      match r with
      | None => (fetcher, become (AtRelease page) (setFail page s))
      | Some r =>
          match Parse r with
          | None => (fetcher, become (AtRelease page) (setFail page s))
          | Some root => (fetcher, become (Walking page [root]) s)
          end
      end
  | Some (Walking page []) => (fetcher, become (AtRelease page) s)
  | Some (Walking page (node :: todo)) =>
      let '(t, s) := visit node page (Children node ++ todo) s in
      (fetcher, become t s)
  | Some (AtAppend page link todo) =>
      (fetcher, become (AtAdd page link todo) (appendLink page link s))
  | Some (AtAdd page link todo) =>
      (fetcher, become (AtGo page link todo) (with_wg (fun n => n + 1) s))
  | Some (AtGo page link todo) =>
      (fetcher,
       mkSystem s (<[i := Walking page todo]> (tasks y) ++ started link))
  | Some (AtRelease page) =>
      (fetcher, become (AtDone page) (with_sem (fun n => n + 1) s))
  | Some (AtDone page) =>
      (fetcher, become Finished (with_wg (fun n => n - 1) s))
  end.

Definition run (sched : list nat) (c : F * system) : F * system :=
  fold_left (fun c i => step i c) sched c.

(** [Crawl] at [c.wg.Wait()], line 447: the seed is registered, [wg] is
    one and the goroutine of the seed is started. *)
Definition Crawl_start (url : string) : system :=
  mkSystem (with_goroutines (fun _ => []) (Crawl_start url)) [Spawned 0].

Definition Crawl (fetcher : F) (sched : list nat) (url : string)
    : option (system * Page) :=
  let y := (run sched (fetcher, Crawl_start url)).2 in
  if Nat.eqb (wg (shared y)) 0 then p ← heap (shared y) !! 0; Some (y, p)
  else None.
End Crawler.

(** The tasks of a list that satisfy [f]. *)
Definition count (f : task → bool) (ts : list task) : nat :=
  length (List.filter f ts).

(** The goroutine has not called [wg.Done()]. *)
Definition notDone (t : task) : bool :=
  match t with Finished => false | _ => true end.

(** The task has called [wg.Add(1)] for a goroutine it has not started. *)
Definition atGo (t : task) : bool :=
  match t with AtGo _ _ _ => true | _ => false end.

(** What a task adds to [wg] as long as it is where it is. *)
Definition weight (t : task) : nat := Nat.b2n (notDone t) + Nat.b2n (atGo t).

(** The link a task has made for a page it has registered, and not yet
    appended. *)
Definition held (t : task) : list Link.t :=
  match t with AtAppend _ link _ => [link] | _ => [] end.

(** The page of a task is one of the [n] pages, and the link it has made
    points to a page created after its own. *)
Definition taskOk (n : nat) (t : task) : Prop :=
  match t with
  | Spawned p | Running p | Walking p _ | AtRelease p | AtDone p => p < n
  | AtAppend p link _ | AtAdd p link _ | AtGo p link _ =>
      ∃ b, link = linkTo b ∧ p < b < n
  | Finished => True
  end.

(** What holds at every moment of a crawl. *)
Definition inv (y : system) : Prop :=
  0 < length (heap (shared y))
  ∧ wg (shared y) = count notDone (tasks y) + count atGo (tasks y)
  ∧ (∀ k t, tasks y !! k = Some t → taskOk (length (heap (shared y))) t)
  ∧ flat_map Links (heap (shared y)) ++ flat_map held (tasks y)
    ≡ₚ linkTo <$> seq 1 (length (heap (shared y)) - 1)
  ∧ linksForward (heap (shared y)).
End Fine.

(** * Properties *)

(** ** strings.TrimSpace *)

Lemma append_cons ch (a b : string) : String ch a +:+ b = String ch (a +:+ b).
Proof. reflexivity. Qed.

Lemma append_assoc_string (a b c : string) : (a +:+ b) +:+ c = a +:+ (b +:+ c).
Proof.
  induction a as [|ch a IH]; [reflexivity|]. now rewrite !append_cons, IH.
Qed.

Lemma length_append_string (a b : string) :
  String.length (a +:+ b) = String.length a + String.length b.
Proof.
  induction a as [|ch a IH]; [reflexivity|]. rewrite append_cons. simpl.
  now rewrite IH.
Qed.

Lemma stripPrefix_Some pre : ∀ s r, stripPrefix pre s = Some r ↔ s = pre +:+ r.
Proof.
  induction pre as [|a pre IH]; intros s r; simpl.
  - split; [intros [= ->]|intros ->]; reflexivity.
  - destruct s as [|b s]; [split; discriminate|].
    destruct (Ascii.eqb a b) eqn:E.
    + apply Ascii.eqb_eq in E as ->. rewrite IH.
      split; [intros ->; reflexivity|intros [= ->]; reflexivity].
    + split; [discriminate|]. intros [= -> _].
      now rewrite Ascii.eqb_refl in E.
Qed.

Lemma stripAny_Some pats s r :
  stripAny pats s = Some r → ∃ pat, In pat pats ∧ s = pat +:+ r.
Proof.
  induction pats as [|pat pats IH]; simpl; [discriminate|].
  destruct (stripPrefix pat s) as [r'|] eqn:E.
  - intros [= ->]. apply stripPrefix_Some in E. eauto.
  - intros Hs. destruct (IH Hs) as (pat' & ? & ?). eauto.
Qed.

Lemma stripAny_None pats s :
  stripAny pats s = None ↔ ∀ pat r, In pat pats → s ≠ pat +:+ r.
Proof.
  induction pats as [|pat pats IH]; simpl.
  - split; [intros _ pat r []|reflexivity].
  - destruct (stripPrefix pat s) as [r'|] eqn:E.
    + split; [discriminate|]. intros Hno. exfalso.
      apply (Hno pat r'); [now left|]. now apply stripPrefix_Some.
    + rewrite IH. split.
      * intros Hno pat' r [<-|Hin]; [|now apply Hno].
        intros Heq. apply stripPrefix_Some in Heq. congruence.
      * intros Hno pat' r Hin. apply Hno. now right.
Qed.

(** Trimming on the left removes a prefix, and what is left does not start
    with one of the patterns. *)
Lemma trimLeftWith_suffix pats fuel :
  ∀ s, ∃ w, s = w +:+ trimLeftWith pats fuel s.
Proof.
  induction fuel as [|fuel IH]; intros s; simpl; [now exists ""|].
  destruct (stripAny pats s) as [r|] eqn:E; [|now exists ""].
  destruct (stripAny_Some _ _ _ E) as (pat & _ & ->).
  destruct (IH r) as [w Hw]. exists (pat +:+ w).
  now rewrite append_assoc_string, <- Hw.
Qed.

Lemma trimLeftWith_trimmed pats :
  Forall (fun pat => pat ≠ "") pats →
  ∀ fuel s, String.length s ≤ fuel →
    stripAny pats (trimLeftWith pats fuel s) = None.
Proof.
  intros Hpats. induction fuel as [|fuel IH]; intros s Hlen; simpl.
  - destruct s; [|simpl in Hlen; lia].
    apply stripAny_None. intros pat r Hin Heq.
    rewrite Forall_forall in Hpats. apply (Hpats pat); [now apply list_elem_of_In|].
    destruct pat; [reflexivity|discriminate].
  - destruct (stripAny pats s) as [r|] eqn:E; [|exact E].
    apply IH. destruct (stripAny_Some _ _ _ E) as (pat & Hin & ->).
    rewrite length_append_string in Hlen.
    rewrite Forall_forall in Hpats.
    assert (pat ≠ "") by (apply Hpats; now apply list_elem_of_In).
    destruct pat; [contradiction|simpl in Hlen; lia].
Qed.

Lemma revString_involutive s : revString (revString s) = s.
Proof.
  unfold revString.
  now rewrite list_ascii_of_string_of_list_ascii, rev_involutive,
    string_of_list_ascii_of_string.
Qed.

Lemma list_ascii_of_string_append a b :
  list_ascii_of_string (a +:+ b) = list_ascii_of_string a ++ list_ascii_of_string b.
Proof.
  induction a as [|ch a IH]; [reflexivity|]. rewrite append_cons. simpl.
  now rewrite IH.
Qed.

Lemma string_of_list_ascii_app l1 l2 :
  string_of_list_ascii (l1 ++ l2) = string_of_list_ascii l1 +:+ string_of_list_ascii l2.
Proof.
  induction l1 as [|ch l1 IH]; [reflexivity|]. simpl. now rewrite IH, append_cons.
Qed.

Lemma revString_append a b : revString (a +:+ b) = revString b +:+ revString a.
Proof.
  unfold revString.
  now rewrite list_ascii_of_string_append, rev_app_distr, string_of_list_ascii_app.
Qed.

Lemma revString_length s : String.length (revString s) = String.length s.
Proof.
  unfold revString.
  assert (Hlen : ∀ l, String.length (string_of_list_ascii l) = length l)
    by (induction l; simpl; auto).
  assert (Hlen' : ∀ t, length (list_ascii_of_string t) = String.length t)
    by (induction t; simpl; auto).
  now rewrite Hlen, length_rev, Hlen'.
Qed.

Lemma spaceRunes_nonempty : Forall (fun pat => pat ≠ "") spaceRunes.
Proof. repeat constructor; discriminate. Qed.

Lemma TrimRight_prefix t : ∃ w, t = TrimRight t +:+ w.
Proof.
  unfold TrimRight.
  destruct (trimLeftWith_suffix (map revString spaceRunes) (String.length t)
              (revString t)) as [w Hw].
  exists (revString w).
  rewrite <- revString_append, <- Hw. now rewrite revString_involutive.
Qed.

(** [TrimSpace s] is a part of [s] that neither starts nor ends with white
    space. *)
Lemma TrimSpace_trimmed s :
  (∃ before after, s = before +:+ TrimSpace s +:+ after)
  ∧ stripAny spaceRunes (TrimSpace s) = None
  ∧ stripAny (map revString spaceRunes) (revString (TrimSpace s)) = None.
Proof.
  unfold TrimSpace.
  destruct (TrimRight_prefix (TrimLeft s)) as [after Hafter].
  destruct (trimLeftWith_suffix spaceRunes (String.length s) s) as [before Hbefore].
  fold (TrimLeft s) in Hbefore.
  assert (Hleft : stripAny spaceRunes (TrimLeft s) = None)
    by (apply trimLeftWith_trimmed; [apply spaceRunes_nonempty|lia]).
  split; [|split].
  - exists before, after. now rewrite <- Hafter.
  - apply stripAny_None. intros pat r Hin Heq.
    rewrite stripAny_None in Hleft. apply (Hleft pat (r +:+ after) Hin).
    now rewrite Hafter, Heq, append_assoc_string.
  - unfold TrimRight. rewrite revString_involutive.
    apply trimLeftWith_trimmed; [|now rewrite revString_length].
    apply Forall_forall. intros pat Hin.
    apply list_elem_of_In, in_map_iff in Hin as (pat0 & <- & Hin0).
    intros Hnil.
    assert (Hpat0 : pat0 = "")
      by (rewrite <- (revString_involutive pat0), Hnil; reflexivity).
    pose proof spaceRunes_nonempty as Hne. rewrite Forall_forall in Hne.
    apply (Hne pat0); [now apply list_elem_of_In|exact Hpat0].
Qed.

Lemma append_nil_string (a : string) : a +:+ "" = a.
Proof. induction a as [|ch a IH]; [reflexivity|]. now rewrite append_cons, IH. Qed.

Lemma madeOf_app pats a b : madeOf pats a → madeOf pats b → madeOf pats (a +:+ b).
Proof.
  induction 1 as [|pat a Hpat _ IH]; intros Hb; [exact Hb|].
  rewrite append_assoc_string. constructor; auto.
Qed.

(** What trimming on the left removes is made of the patterns. *)
Lemma trimLeftWith_removed pats fuel :
  ∀ s, ∃ w, madeOf pats w ∧ s = w +:+ trimLeftWith pats fuel s.
Proof.
  induction fuel as [|fuel IH]; intros s; simpl;
    [exists ""; split; [constructor|reflexivity]|].
  destruct (stripAny pats s) as [r|] eqn:E;
    [|exists ""; split; [constructor|reflexivity]].
  destruct (stripAny_Some _ _ _ E) as (pat & Hin & ->).
  destruct (IH r) as (w & Hw & Heq). exists (pat +:+ w). split.
  - constructor; [now apply list_elem_of_In|exact Hw].
  - now rewrite append_assoc_string, <- Heq.
Qed.

Lemma madeOf_revString pats w :
  madeOf (map revString pats) w → madeOf pats (revString w).
Proof.
  induction 1 as [|pat w Hpat _ IH]; [constructor|].
  rewrite revString_append. apply madeOf_app; [exact IH|].
  apply list_elem_of_In, in_map_iff in Hpat as (pat0 & <- & Hin0).
  rewrite revString_involutive, <- (append_nil_string pat0).
  constructor; [now apply list_elem_of_In|constructor].
Qed.

(** [TrimSpace s] is what is left of [s] when a string of white space is
    taken from its start and another from its end, and it neither starts
    nor ends with white space: the white space around [s], all of it and
    nothing more. *)
Lemma TrimSpace_spec s :
  ∃ before after,
    s = before +:+ TrimSpace s +:+ after
    ∧ whiteSpace before ∧ whiteSpace after
    ∧ ∀ r rest, r ∈ spaceRunes →
        TrimSpace s ≠ r +:+ rest ∧ TrimSpace s ≠ rest +:+ r.
Proof.
  destruct (TrimSpace_trimmed s) as (_ & Hstart & Hend).
  destruct (trimLeftWith_removed spaceRunes (String.length s) s)
    as (before & Hbefore & Hs).
  fold (TrimLeft s) in Hs.
  destruct (trimLeftWith_removed (map revString spaceRunes)
              (String.length (TrimLeft s)) (revString (TrimLeft s)))
    as (w & Hw & Hrev).
  exists before, (revString w). split; [|split; [exact Hbefore|split]].
  - rewrite Hs at 1. f_equal. unfold TrimSpace, TrimRight.
    rewrite <- revString_append, <- Hrev. now rewrite revString_involutive.
  - now apply madeOf_revString.
  - intros r rest Hr. apply list_elem_of_In in Hr. split; intros Heq.
    + rewrite stripAny_None in Hstart. now apply (Hstart r rest Hr).
    + rewrite stripAny_None in Hend.
      apply (Hend (revString r) (revString rest)).
      * apply in_map_iff. eauto.
      * now rewrite Heq, revString_append.
Qed.

Lemma TrimSpace_example :
  TrimSpace (" " +:+ nl +:+ bytes [194; 160] +:+ "/a b " +:+ bytes [226; 128; 138; 9])
  = "/a b".
Proof. reflexivity. Qed.

(** ** Page.String *)

Section RenderFacts.
Variable h : list Page.

Lemma PageString_unfold fuel p :
  PageString h (S fuel) p =
    links ← fold_left
              (fun acc link =>
                 links ← acc;
                 linkPage ← linkPage h fuel link;
                 Some ((if nonEmpty links then links +:+ nl else links)
                       +:+ "  Links in current page: " +:+ linkPage))
              (Links p) (Some "");
    Some (renderPage p (renderAssets (StaticAssets p)) links).
Proof. reflexivity. Qed.

(** A loop over links whose [linkPage] are all known is the loop of
    [renderLinks] over them. *)
Lemma links_loop_Some fuel links :
  ∀ acc,
    Forall (fun link => is_Some (linkPage h fuel link)) links →
    is_Some (fold_left
      (fun acc link =>
         links ← acc;
         linkPage ← linkPage h fuel link;
         Some ((if nonEmpty links then links +:+ nl else links)
               +:+ "  Links in current page: " +:+ linkPage))
      links (Some acc)).
Proof.
  induction links as [|link links IH]; intros acc Hall; simpl.
  - eauto.
  - inversion Hall as [|? ? [lp Hlp] Hrest]; subst.
    rewrite Hlp. simpl. apply IH, Hrest.
Qed.

Lemma links_loop_None fuel links :
  fold_left
    (fun acc link =>
       links ← acc;
       linkPage ← linkPage h fuel link;
       Some ((if nonEmpty links then links +:+ nl else links)
             +:+ "  Links in current page: " +:+ linkPage))
    links None = None.
Proof. induction links; simpl; auto. Qed.

(** What a link marked cyclic contributes does not depend on how deep
    [String] may recurse, nor on anything of the target but its URL. *)
Lemma linkPage_cyclic fuel link b q :
  Link.Page link = Some b → Link.CyclicPage link = true → h !! b = Some q →
  linkPage h fuel link = Some (nl +:+ "    Page: " +:+ URL q).
Proof.
  intros Hp Hc Hq. unfold linkPage. rewrite Hp. simpl. rewrite Hq. simpl.
  now rewrite Hc.
Qed.

Hypothesis Hvalid : pointersValid h.

(** From some depth on, every link of [links] has a [linkPage]. *)
Lemma linkPages_eventually p links :
  (∀ link, link ∈ links → link ∈ Links p) →
  (∀ link b q, link ∈ Links p → Link.Page link = Some b →
     Link.CyclicPage link = false → h !! b = Some q →
     ∃ n, ∀ fuel, n ≤ fuel → is_Some (PageString h fuel q)) →
  ∀ a, h !! a = Some p →
  ∃ n, ∀ fuel, n ≤ fuel →
    Forall (fun link => is_Some (linkPage h fuel link)) links.
Proof.
  intros Hsub Hrec a Ha.
  induction links as [|link links IH].
  - exists 0. intros; constructor.
  - destruct IH as [n Hn].
    { intros l Hl. apply Hsub. now right. }
    assert (Hin : link ∈ Links p) by (apply Hsub; now left).
    destruct (Link.Page link) as [b|] eqn:Hb.
    + destruct (Hvalid a p link b Ha Hin Hb) as [q Hq].
      destruct (Link.CyclicPage link) eqn:Hc.
      * exists n. intros fuel Hle. constructor; [|now apply Hn].
        rewrite (linkPage_cyclic fuel link b q Hb Hc Hq). eauto.
      * destruct (Hrec link b q Hin Hb Hc Hq) as [k Hk].
        exists (Nat.max n k). intros fuel Hle.
        constructor; [|apply Hn; lia].
        unfold linkPage. rewrite Hb. simpl. rewrite Hq. simpl. rewrite Hc.
        destruct (Hk fuel ltac:(lia)) as [s1 Hs1]. rewrite Hs1. simpl. eauto.
    + exists n. intros fuel Hle. constructor; [|now apply Hn].
      unfold linkPage. rewrite Hb. eauto.
Qed.

(** [String] returns on every page from which no chain of unmarked links
    goes on for ever. *)
Lemma PageString_returns a :
  Acc (flip (expands h)) a →
  ∀ p, h !! a = Some p →
  ∃ n, ∀ fuel, n ≤ fuel → is_Some (PageString h fuel p).
Proof.
  induction 1 as [a _ IH]. intros p Ha.
  destruct (linkPages_eventually p (Links p)) with (a := a) as [n Hn]; auto.
  { intros link b q Hin Hb Hc Hq. apply (IH b); [|exact Hq].
    exists p, link. auto. }
  exists (S n). intros fuel Hle.
  destruct fuel as [|fuel]; [lia|].
  rewrite PageString_unfold.
  destruct (links_loop_Some fuel (Links p) "" (Hn fuel ltac:(lia))) as [ls Hls].
  rewrite Hls. simpl. eauto.
Qed.
End RenderFacts.

(** A loop over links that ends with a text had a [linkPage] for every
    link. *)
Lemma links_loop_inv h fuel links :
  ∀ acc,
    is_Some (fold_left
      (fun acc link =>
         links ← acc;
         linkPage ← linkPage h fuel link;
         Some ((if nonEmpty links then links +:+ nl else links)
               +:+ "  Links in current page: " +:+ linkPage))
      links acc) →
    Forall (fun link => is_Some (linkPage h fuel link)) links.
Proof.
  induction links as [|link links IH]; intros acc Hsome; [constructor|].
  simpl in Hsome.
  destruct acc as [ls|]; simpl in Hsome;
    [|rewrite links_loop_None in Hsome; now destruct Hsome].
  destruct (linkPage h fuel link) as [lp|] eqn:Hlp; simpl in Hsome;
    [|rewrite links_loop_None in Hsome; now destruct Hsome].
  constructor; [eauto|]. eapply IH, Hsome.
Qed.

(** Conversely, [String] returns only on a page from which no chain of
    unmarked links goes on for ever. *)
Lemma PageString_returns_only_if h fuel :
  ∀ a p, h !! a = Some p → is_Some (PageString h fuel p) →
         Acc (flip (expands h)) a.
Proof.
  induction fuel as [|fuel IH]; intros a p Ha [s Hs]; [discriminate|].
  rewrite PageString_unfold in Hs.
  destruct (fold_left _ (Links p) (Some "")) as [ls|] eqn:Hfold; [|discriminate].
  assert (Hall : Forall (fun link => is_Some (linkPage h fuel link)) (Links p))
    by (eapply links_loop_inv; rewrite Hfold; eauto).
  constructor. intros b (p' & link & Ha' & Hin & Hb & Hc).
  assert (p' = p) by congruence. subst p'.
  rewrite Forall_forall in Hall. destruct (Hall link Hin) as [lp Hlp].
  unfold linkPage in Hlp. rewrite Hb in Hlp. simpl in Hlp.
  destruct (h !! b) as [q|] eqn:Hq; [|discriminate]. simpl in Hlp.
  rewrite Hc in Hlp.
  destruct (PageString h fuel q) as [sq|] eqn:Hsq; [|discriminate].
  apply (IH b q Hq). eauto.
Qed.

(** An unmarked link of a page to itself: [String] never returns. *)
Lemma selfLinked_diverges fuel : PageString [selfLinked] fuel selfLinked = None.
Proof.
  induction fuel as [|fuel IH]; [reflexivity|].
  rewrite PageString_unfold. simpl. unfold linkPage. simpl.
  rewrite IH. reflexivity.
Qed.

(** Splits [link ∈ [l1; ...; ln]] into its cases. *)
Ltac links_cases H :=
  repeat (apply elem_of_cons in H as [H|H]; [subst|]);
  try (apply elem_of_nil in H; destruct H).

(** C4, as amended: on a page graph whose pointers are valid and in which
    no chain of links not marked [CyclicPage] goes on for ever from the page
    (so every cycle, a page linking to itself included, passes through a
    marked link), [Page.String] returns; and a link marked [CyclicPage] is
    rendered as the URL of its target alone, whatever the target links to
    and without a nested call of [String]. *)
Theorem String_returns_when_cycles_are_marked (h : list Page) (a : addr) (p : Page) :
  pointersValid h → h !! a = Some p → Acc (flip (expands h)) a →
  (∃ fuel s, PageString h fuel p = Some s) ∧
  (∀ fuel link b q,
     Link.Page link = Some b → Link.CyclicPage link = true → h !! b = Some q →
     linkPage h fuel link = Some (nl +:+ "    Page: " +:+ URL q)).
Proof.
  intros Hvalid Ha Hacc. split.
  - destruct (PageString_returns h Hvalid a Hacc p Ha) as [n Hn].
    destruct (Hn n (le_n n)) as [s Hs]. eauto.
  - intros fuel link b q. apply linkPage_cyclic.
Qed.

Lemma String_returns_when_cycles_are_marked_witness :
  (∃ fuel s,
     PageString markedCycle fuel
       (mkPage "example.com" false [Link.mk (Some 0) true; Link.mk (Some 1) false] [])
     = Some s) ∧
  linkPage markedCycle 0 (Link.mk (Some 1) true)
  = Some (nl +:+ "    Page: example.com/a").
Proof.
  destruct (String_returns_when_cycles_are_marked markedCycle 0
              (mkPage "example.com" false
                 [Link.mk (Some 0) true; Link.mk (Some 1) false] []))
    as [Hret Hcyc].
  - intros a p link b Ha Hin Hb.
    destruct a as [|[|a]]; simpl in Ha; inversion Ha; subst; simpl in Hin;
      links_cases Hin; simpl in Hb; inversion Hb; subst; simpl; eauto.
  - reflexivity.
  - constructor. intros b (p & link & Ha & Hin & Hb & Hc).
    simpl in Ha. inversion Ha; subst. simpl in Hin.
    links_cases Hin; simpl in Hb, Hc; inversion Hb; subst; try discriminate.
    constructor. intros b' (p' & link' & Ha' & Hin' & Hb' & Hc').
    simpl in Ha'. inversion Ha'; subst. simpl in Hin'.
    links_cases Hin'; simpl in Hc'; discriminate.
  - split; [exact Hret|].
    apply (Hcyc 0 (Link.mk (Some 1) true) 1
             (mkPage "example.com/a" false [Link.mk (Some 0) true] ["a.css"]));
      reflexivity.
Defined.

(** C4, as stated, fails: a page whose link to itself is not marked
    [CyclicPage] is a page graph with a cycle on which [String] does not
    return. *)
Lemma String_diverges_on_unmarked_cycle :
  pointersValid [selfLinked] ∧ [selfLinked] !! 0 = Some selfLinked ∧
  expands [selfLinked] 0 0 ∧
  ¬ ∃ fuel s, PageString [selfLinked] fuel selfLinked = Some s.
Proof.
  split; [|split; [reflexivity|split]].
  - intros a p link b Ha Hin Hb.
    destruct a as [|a]; simpl in Ha; inversion Ha; subst. simpl in Hin.
    links_cases Hin. simpl in Hb. inversion Hb; subst. simpl. eauto.
  - exists selfLinked, (Link.mk (Some 0) false).
    repeat split; auto. simpl. left.
  - intros (fuel & s & Hs). rewrite selfLinked_diverges in Hs. discriminate.
Qed.

(** ** parseHTML, element by element *)

Lemma Node_induction (P : Node → Prop) :
  (∀ t d attrs ch, Forall P ch → P (mkNode t d attrs ch)) → ∀ n, P n.
Proof.
  intros step. fix IH 1. intros [t d attrs ch]. apply step.
  induction ch as [|c ch IHch]; constructor; [apply IH | exact IHch].
Qed.

Lemma with_heap_id f s : f (heap s) = heap s → with_heap f s = s.
Proof. destruct s; unfold with_heap; simpl; intros ->; reflexivity. Qed.

Lemma appendAssets_nil page s : appendAssets page [] s = s.
Proof.
  apply with_heap_id, list_alter_id. intros [u f l a]; simpl.
  now rewrite app_nil_r.
Qed.

Lemma appendAssets_cons page v vals s :
  appendAssets page (v :: vals) s = appendAssets page vals (appendAsset page v s).
Proof.
  unfold appendAssets, appendAsset, with_heap; simpl. f_equal.
  rewrite list_alter_alter_eq. apply list_alter_ext; [|reflexivity].
  intros p _; simpl. now rewrite <- app_assoc.
Qed.

(** The loops of [case "link"] and [case "img", "script"] append the values
    of the attributes named [key], all of them and in their order. *)
Lemma assets_appendAssets key attrs page :
  ∀ s, assets key attrs page s = appendAssets page (attrValues key attrs) s.
Proof.
  unfold assets, attrValues.
  induction attrs as [|attr attrs IH]; intros s; simpl.
  - now rewrite appendAssets_nil.
  - destruct (String.eqb (Key attr) key); simpl.
    + now rewrite IH, appendAssets_cons.
    + apply IH.
Qed.

Lemma appendAssets_lookup page vals s :
  heap (appendAssets page vals s) !! page =
    (fun p => mkPage (URL p) (Fail p) (Links p) (StaticAssets p ++ vals))
      <$> heap s !! page.
Proof. unfold appendAssets; simpl. apply list_lookup_alter_eq. Qed.

(** The loop of [case "a"] is left at the first [href]. *)
Lemma anchor_anchorSpec attrs page :
  ∀ s, anchor attrs page Link.zero s = anchorSpec attrs page s.
Proof.
  unfold anchorSpec.
  induction attrs as [|attr attrs IH]; intros s; simpl; [reflexivity|].
  destruct (String.eqb (Key attr) "href"); simpl; [|apply IH].
  unfold resolve, followLink. reflexivity.
Qed.

Lemma visitNode_anchor attrs ch page s :
  visitNode (mkNode ElementNode "a" attrs ch) page s = anchorSpec attrs page s.
Proof. unfold visitNode; simpl. apply anchor_anchorSpec. Qed.

(** C6: of an anchor element only the first [href] attribute is used; its
    value is trimmed of surrounding white space; a trimmed value that starts
    with a slash is appended to the domain; and when the result does not
    start with the domain the element leaves the state as it was: no link
    is appended, nothing is registered, no task is started. Trimmed of
    surrounding white space is: of any value, a string of white space is
    taken from the start and another from the end, and what is left
    neither starts nor ends with white space. *)
Theorem anchor_first_href_trimmed_resolved_filtered
    (attrs : list Attribute) (ch : list Node) (page : addr) (s : state) :
  visitNode (mkNode ElementNode "a" attrs ch) page s =
    match List.find (fun attr => String.eqb (Key attr) "href") attrs with
    | None => s
    | Some attr =>
        let trimmed := TrimSpace (Val attr) in
        let resolved :=
          if HasPrefix trimmed "/" then domain s +:+ trimmed else trimmed in
        if HasPrefix resolved (domain s) then followLink resolved page s else s
    end
  ∧ ∀ val, ∃ before after,
      val = before +:+ TrimSpace val +:+ after
      ∧ whiteSpace before ∧ whiteSpace after
      ∧ ∀ r rest, r ∈ spaceRunes →
          TrimSpace val ≠ r +:+ rest ∧ TrimSpace val ≠ rest +:+ r.
Proof. split; [apply visitNode_anchor|apply TrimSpace_spec]. Qed.

(** An anchor with a [name], then an [href] with a space before it and a
    tab and a newline after it, then a second [href]: the first [href],
    trimmed to [/a], is resolved to [example.com/a] and followed; the
    second plays no part. *)
Lemma anchor_first_href_trimmed_resolved_filtered_witness :
  visitNode
    (elem "a" [("name", "top"); ("href", " /a" +:+ bytes [9; 10]); ("href", "/b")] [])
    0 (Crawl_start "example.com")
  = followLink "example.com/a" 0 (Crawl_start "example.com")
  ∧ ∃ before after,
      " /a" +:+ bytes [9; 10] = before +:+ "/a" +:+ after
      ∧ whiteSpace before ∧ whiteSpace after
      ∧ ∀ r rest, r ∈ spaceRunes → "/a" ≠ r +:+ rest ∧ "/a" ≠ rest +:+ r.
Proof.
  destruct (anchor_first_href_trimmed_resolved_filtered
              [mkAttr "" "name" "top"; mkAttr "" "href" (" /a" +:+ bytes [9; 10]);
               mkAttr "" "href" "/b"]
              [] 0 (Crawl_start "example.com")) as [Hvisit Htrim].
  split; [exact Hvisit|exact (Htrim (" /a" +:+ bytes [9; 10]))].
Defined.

(** C10: a [link] element adds the value of each of its [href] attributes
    to the assets of the page, and an [img] or [script] element the value
    of each of its [src] attributes, one entry for every such attribute;
    the [rel] attribute of a [link] element plays no part. *)
Theorem link_elements_add_every_href
    (attrs : list Attribute) (ch : list Node) (page : addr) (s : state) (p : Page) :
  heap s !! page = Some p →
  heap (visitNode (mkNode ElementNode "link" attrs ch) page s) !! page
    = Some (mkPage (URL p) (Fail p) (Links p)
              (StaticAssets p ++ attrValues "href" attrs))
  ∧ heap (visitNode (mkNode ElementNode "img" attrs ch) page s) !! page
    = Some (mkPage (URL p) (Fail p) (Links p)
              (StaticAssets p ++ attrValues "src" attrs))
  ∧ heap (visitNode (mkNode ElementNode "script" attrs ch) page s) !! page
    = Some (mkPage (URL p) (Fail p) (Links p)
              (StaticAssets p ++ attrValues "src" attrs))
  ∧ (∀ key, length (attrValues key attrs)
            = length (List.filter (fun attr => String.eqb (Key attr) key) attrs))
  ∧ (∀ ns rel,
       visitNode (mkNode ElementNode "link" (mkAttr ns "rel" rel :: attrs) ch) page s
       = visitNode (mkNode ElementNode "link" attrs ch) page s).
Proof.
  intros Hp. unfold visitNode; simpl.
  rewrite !assets_appendAssets, !appendAssets_lookup, Hp; simpl.
  repeat split; try reflexivity.
  intros key. unfold attrValues. now rewrite length_map.
Qed.

Lemma link_elements_add_every_href_witness :
  let attrs := [mkAttr "" "rel" "icon"; mkAttr "" "href" " a.ico";
                mkAttr "" "href" " a.ico"] in
  heap (visitNode (mkNode ElementNode "link" attrs []) 0
          (Crawl_start "example.com")) !! 0
  = Some (mkPage "example.com" false [] [" a.ico"; " a.ico"]).
Proof.
  intros attrs.
  exact (proj1 (link_elements_add_every_href attrs [] 0
                  (Crawl_start "example.com") (newPage "example.com") eq_refl)).
Defined.

(** What [followLink] does to the [Page] objects that exist already: the
    page of the task may get a link, nothing else changes. *)
Lemma followLink_heap linkURL page s a p :
  heap s !! a = Some p →
  ∃ p', heap (followLink linkURL page s) !! a = Some p'
        ∧ URL p' = URL p ∧ Fail p' = Fail p
        ∧ StaticAssets p' = StaticAssets p
        ∧ (a ≠ page → p' = p).
Proof.
  intros Ha. unfold followLink, lookupOrRegister.
  destruct (visitedPages s !! linkURL); simpl.
  - exists p. auto.
  - destruct (decide (page = a)) as [->|Hne].
    + rewrite list_lookup_alter_eq, (lookup_app_l_Some _ _ _ _ Ha). simpl.
      eexists. split; [reflexivity|]. simpl. repeat split; auto.
      intros Hc; now destruct Hc.
    + rewrite list_lookup_alter_ne, (lookup_app_l_Some _ _ _ _ Ha) by exact Hne.
      exists p. auto.
Qed.

Lemma anchorSpec_heap attrs page s a p :
  heap s !! a = Some p →
  ∃ p', heap (anchorSpec attrs page s) !! a = Some p'
        ∧ URL p' = URL p ∧ Fail p' = Fail p
        ∧ StaticAssets p' = StaticAssets p
        ∧ (a ≠ page → p' = p).
Proof.
  intros Ha. unfold anchorSpec.
  destruct (List.find _ attrs) as [attr|]; [|exists p; auto].
  simpl. destruct (HasPrefix _ (domain s)); [|exists p; auto].
  now apply followLink_heap.
Qed.

Lemma appendAssets_heap page vals s a p :
  heap s !! a = Some p →
  ∃ p', heap (appendAssets page vals s) !! a = Some p'
        ∧ URL p' = URL p ∧ Fail p' = Fail p
        ∧ (a ≠ page → p' = p)
        ∧ (a = page → StaticAssets p' = StaticAssets p ++ vals).
Proof.
  intros Ha. destruct (decide (page = a)) as [->|Hne].
  - rewrite appendAssets_lookup, Ha. simpl. eexists. split; [reflexivity|].
    simpl. repeat split; auto. intros Hc; now destruct Hc.
  - unfold appendAssets; simpl. rewrite list_lookup_alter_ne by exact Hne.
    exists p. repeat split; auto. intros ->. now destruct Hne.
Qed.

(** Visiting a node leaves the URL and the [Fail] flag of every page, leaves
    the other pages as they are, and appends the assets of the node to the
    page of the task. *)
Lemma visitNode_heap node page s a p :
  heap s !! a = Some p →
  ∃ p', heap (visitNode node page s) !! a = Some p'
        ∧ URL p' = URL p ∧ Fail p' = Fail p
        ∧ (a ≠ page → p' = p)
        ∧ (a = page → StaticAssets p' = StaticAssets p ++ nodeAssets node).
Proof.
  intros Ha. unfold visitNode, nodeAssets.
  destruct (Type_ node);
    try (exists p; rewrite app_nil_r; now auto).
  destruct (String.eqb (Data node) "a") eqn:Ea.
  - apply String.eqb_eq in Ea. rewrite Ea; simpl.
    rewrite anchor_anchorSpec.
    destruct (anchorSpec_heap (Attr node) page s a p Ha)
      as (p' & H1 & H2 & H3 & H4 & H5).
    exists p'. rewrite app_nil_r. auto.
  - destruct (String.eqb (Data node) "link").
    { rewrite assets_appendAssets. now apply appendAssets_heap. }
    destruct (String.eqb (Data node) "img" || String.eqb (Data node) "script").
    { rewrite assets_appendAssets. now apply appendAssets_heap. }
    exists p. rewrite app_nil_r. auto.
Qed.

Lemma parseHTML_unfold node page s :
  parseHTML node page s =
    fold_left (fun s child => parseHTML child page s) (Children node)
      (visitNode node page s).
Proof. destruct node; reflexivity. Qed.

Lemma documentAssets_unfold node :
  documentAssets node = nodeAssets node ++ flat_map documentAssets (Children node).
Proof. destruct node; reflexivity. Qed.

Lemma parseHTML_assets page :
  ∀ node s p,
    heap s !! page = Some p →
    ∃ p', heap (parseHTML node page s) !! page = Some p'
          ∧ URL p' = URL p ∧ Fail p' = Fail p
          ∧ StaticAssets p' = StaticAssets p ++ documentAssets node.
Proof.
  induction node as [t d attrs ch IH] using Node_induction. intros s p Hp.
  rewrite parseHTML_unfold, documentAssets_unfold.
  destruct (visitNode_heap (mkNode t d attrs ch) page s page p Hp)
    as (p1 & H1 & Hu & Hf & _ & Ha).
  specialize (Ha eq_refl). simpl Children.
  revert H1 Hu Hf Ha.
  generalize (nodeAssets (mkNode t d attrs ch)).
  generalize (visitNode (mkNode t d attrs ch) page s). clear Hp s.
  revert p1.
  induction IH as [|c ch Hc _ IHch]; intros p1 s pre H1 Hu Hf Ha; simpl.
  - exists p1. rewrite app_nil_r. auto.
  - destruct (Hc s p1 H1) as (p2 & H2 & Hu2 & Hf2 & Ha2).
    destruct (IHch p2 (parseHTML c page s) (pre ++ documentAssets c) H2)
      as (p3 & H3 & Hu3 & Hf3 & Ha3); try congruence.
    { rewrite Ha2, Ha. now rewrite app_assoc. }
    exists p3. repeat split; auto.
    rewrite Ha3, <- !app_assoc. reflexivity.
Qed.

(** C7: [parseHTML] appends to the assets of the page, in document order,
    the value of every [href] attribute of a [link] element and of every
    [src] attribute of an [img] or [script] element, as it stands (not
    trimmed, not resolved) and once for every occurrence. *)
Theorem static_assets_in_document_order
    (root : Node) (page : addr) (s : state) (p : Page) :
  heap s !! page = Some p →
  ∃ p', heap (parseHTML root page s) !! page = Some p'
        ∧ StaticAssets p' = StaticAssets p ++ documentAssets root.
Proof.
  intros Hp.
  destruct (parseHTML_assets page root s p Hp) as (p' & H1 & _ & _ & H2).
  eauto.
Qed.

Lemma static_assets_in_document_order_witness :
  ∃ p', heap (parseHTML repeatedAssets 0 (Crawl_start "example.com")) !! 0 = Some p'
        ∧ StaticAssets p' = [" a.png "; " a.png "; "a.ico"].
Proof.
  exact (static_assets_in_document_order repeatedAssets 0
           (Crawl_start "example.com") (newPage "example.com") eq_refl).
Defined.

Lemma followLink_present linkURL page s :
  is_Some (visitedPages s !! linkURL) → followLink linkURL page s = s.
Proof.
  intros [a Ha]. unfold followLink, lookupOrRegister. now rewrite Ha.
Qed.

(** C2: what the code does with an anchor whose resolved URL, inside the
    domain, is in [visitedPages] already: the link it has built, marked
    [CyclicPage], is dropped. The state stays as it was, so no task is
    started, and no link is appended to the page either. *)
Theorem registered_target_gets_no_link
    (attrs : list Attribute) (ch : list Node) (page : addr) (s : state)
    (attr : Attribute) :
  List.find (fun attr => String.eqb (Key attr) "href") attrs = Some attr →
  HasPrefix (resolve (domain s) (Val attr)) (domain s) = true →
  is_Some (visitedPages s !! resolve (domain s) (Val attr)) →
  visitNode (mkNode ElementNode "a" attrs ch) page s = s.
Proof.
  intros Hfind Hpre Hreg.
  rewrite visitNode_anchor. unfold anchorSpec. rewrite Hfind.
  fold (resolve (domain s) (Val attr)). rewrite Hpre.
  now apply followLink_present.
Qed.

Lemma registered_target_gets_no_link_witness :
  visitNode (elem "a" [("href", " example.com ")] [text "home"]) 0
    (Crawl_start "example.com")
  = Crawl_start "example.com".
Proof.
  apply (registered_target_gets_no_link _ _ 0 (Crawl_start "example.com")
           (mkAttr "" "href" " example.com ")).
  - reflexivity.
  - reflexivity.
  - exists 0. reflexivity.
Defined.

(** C8: what the code does with an anchor that has no [href] attribute:
    the loop over the attributes ends without an append, and the state,
    the links of the page included, stays as it was. *)
Theorem anchor_without_href_gets_no_link
    (attrs : list Attribute) (ch : list Node) (page : addr) (s : state) :
  List.find (fun attr => String.eqb (Key attr) "href") attrs = None →
  visitNode (mkNode ElementNode "a" attrs ch) page s = s.
Proof.
  intros Hfind.
  rewrite visitNode_anchor. unfold anchorSpec. now rewrite Hfind.
Qed.

Lemma anchor_without_href_gets_no_link_witness :
  visitNode (elem "a" [("name", "top")] []) 0 (Crawl_start "example.com")
  = Crawl_start "example.com".
Proof.
  apply (anchor_without_href_gets_no_link _ _ 0 (Crawl_start "example.com")).
  reflexivity.
Defined.

(** ** The goroutines and their pages *)

Lemma followLink_effect linkURL page s :
  ∃ f news,
    (∀ p, Fail (f p) = Fail p)
    ∧ Forall (fun q => Fail q = false) news ∧ length news ≤ 1
    ∧ heap (followLink linkURL page s) = alter f page (heap s ++ news)
    ∧ goroutines (followLink linkURL page s)
      = goroutines s ++ (Spawned <$> seq (length (heap s)) (length news))
    ∧ Forall (fun q => Links q = []) news
    ∧ (∀ p link, link ∈ Links (f p) →
         link ∈ Links p
         ∨ (link = Link.mk (Some (length (heap s))) false ∧ news ≠ [])).
Proof.
  unfold followLink, lookupOrRegister.
  destruct (visitedPages s !! linkURL); simpl.
  - exists (fun p => p), []. simpl. rewrite !app_nil_r.
    repeat split; auto. now rewrite list_alter_id.
  - exists (fun p => mkPage (URL p) (Fail p)
                       (Links p ++ [Link.mk (Some (length (heap s))) false])
                       (StaticAssets p)),
           [newPage linkURL].
    simpl. repeat split; auto.
    intros p link Hin. apply elem_of_app in Hin as [Hin|Hin]; [now left|].
    right. apply list_elem_of_singleton in Hin. now subst.
Qed.

Lemma appendAssets_effect page vals s :
  ∃ f news,
    (∀ p, Fail (f p) = Fail p)
    ∧ Forall (fun q => Fail q = false) news ∧ length news ≤ 1
    ∧ heap (appendAssets page vals s) = alter f page (heap s ++ news)
    ∧ goroutines (appendAssets page vals s)
      = goroutines s ++ (Spawned <$> seq (length (heap s)) (length news))
    ∧ Forall (fun q => Links q = []) news
    ∧ (∀ p link, link ∈ Links (f p) →
         link ∈ Links p
         ∨ (link = Link.mk (Some (length (heap s))) false ∧ news ≠ [])).
Proof.
  exists (fun p => mkPage (URL p) (Fail p) (Links p) (StaticAssets p ++ vals)), [].
  simpl. rewrite !app_nil_r. repeat split; auto.
Qed.

Lemma unchanged_effect page s :
  ∃ f news,
    (∀ p, Fail (f p) = Fail p)
    ∧ Forall (fun q => Fail q = false) news ∧ length news ≤ 1
    ∧ heap s = alter f page (heap s ++ news)
    ∧ goroutines s
      = goroutines s ++ (Spawned <$> seq (length (heap s)) (length news))
    ∧ Forall (fun q => Links q = []) news
    ∧ (∀ p link, link ∈ Links (f p) →
         link ∈ Links p
         ∨ (link = Link.mk (Some (length (heap s))) false ∧ news ≠ [])).
Proof.
  exists (fun p => p), []. simpl. rewrite !app_nil_r.
  repeat split; auto. now rewrite list_alter_id.
Qed.

(** Visiting a node changes the page of the task without touching its
    [Fail] flag, and creates at most one page, not failed, together with the
    goroutine that is to crawl it. *)
Lemma visitNode_effect node page s :
  ∃ f news,
    (∀ p, Fail (f p) = Fail p)
    ∧ Forall (fun q => Fail q = false) news ∧ length news ≤ 1
    ∧ heap (visitNode node page s) = alter f page (heap s ++ news)
    ∧ goroutines (visitNode node page s)
      = goroutines s ++ (Spawned <$> seq (length (heap s)) (length news))
    ∧ Forall (fun q => Links q = []) news
    ∧ (∀ p link, link ∈ Links (f p) →
         link ∈ Links p
         ∨ (link = Link.mk (Some (length (heap s))) false ∧ news ≠ [])).
Proof.
  unfold visitNode.
  destruct (Type_ node); try apply unchanged_effect.
  destruct (String.eqb (Data node) "a").
  { rewrite anchor_anchorSpec. unfold anchorSpec.
    destruct (List.find _ _); [|apply unchanged_effect]. simpl.
    destruct (HasPrefix _ (domain s)); [|apply unchanged_effect].
    apply followLink_effect. }
  destruct (String.eqb (Data node) "link").
  { rewrite assets_appendAssets. apply appendAssets_effect. }
  destruct (String.eqb (Data node) "img" || String.eqb (Data node) "script").
  { rewrite assets_appendAssets. apply appendAssets_effect. }
  apply unchanged_effect.
Qed.

Section OwnLivePages.
Variables (h : list Page) (pages : list (option addr)).
Hypothesis Hinv : ownLivePages h pages.

Lemma ownLivePages_return i : ownLivePages h (<[i := None]> pages).
Proof.
  destruct Hinv as [Hlive Hdist]. split.
  - intros k a Hk. apply list_lookup_insert_Some in Hk as [(_ & ? & _)|[_ Hk]];
      [discriminate|]. eauto.
  - intros k j a Hk Hj.
    apply list_lookup_insert_Some in Hk as [(_ & ? & _)|[_ Hk]]; [discriminate|].
    apply list_lookup_insert_Some in Hj as [(_ & ? & _)|[_ Hj]]; [discriminate|].
    eauto.
Qed.

Lemma ownLivePages_fail i a :
  pages !! i = Some (Some a) →
  ownLivePages
    (alter (fun p => mkPage (URL p) true (Links p) (StaticAssets p)) a h)
    (<[i := None]> pages).
Proof.
  intros Hi. destruct Hinv as [Hlive Hdist]. split.
  - intros k b Hk.
    apply list_lookup_insert_Some in Hk as [(_ & ? & _)|[Hne Hk]]; [discriminate|].
    assert (a ≠ b) by (intros ->; apply Hne; eauto).
    rewrite list_lookup_alter_ne by assumption. eauto.
  - intros k j b Hk Hj.
    apply list_lookup_insert_Some in Hk as [(_ & ? & _)|[_ Hk]]; [discriminate|].
    apply list_lookup_insert_Some in Hj as [(_ & ? & _)|[_ Hj]]; [discriminate|].
    eauto.
Qed.

Lemma ownLivePages_visit i page f news :
  pages !! i = Some (Some page) →
  (∀ p, Fail (f p) = Fail p) →
  Forall (fun q => Fail q = false) news → length news ≤ 1 →
  ownLivePages (alter f page (h ++ news))
    (pages ++ (Some <$> seq (length h) (length news))).
Proof.
  intros Hi Hf Hnews Hlen. destruct Hinv as [Hlive Hdist].
  assert (Hold : ∀ k a, pages !! k = Some (Some a) → a < length h).
  { intros k a Hk. destruct (Hlive k a Hk) as (p & Hp & _).
    now apply lookup_lt_Some in Hp. }
  assert (Hnew : ∀ k a,
    (pages ++ (Some <$> seq (length h) (length news))) !! k = Some (Some a) →
    pages !! k = Some (Some a) ∨
    (k = length pages ∧ a = length h ∧ ∃ q, news = [q])).
  { intros k a Hk. apply lookup_app_Some in Hk as [Hk|[Hge Hk]]; [now left|].
    right. destruct news as [|q [|q' news']]; simpl in *; try lia.
    - now rewrite lookup_nil in Hk.
    - destruct (k - length pages) as [|n] eqn:E; simpl in Hk.
      + assert (k = length pages) by lia.
        inversion Hk; subst. repeat split; eauto.
      + now rewrite lookup_nil in Hk. }
  split.
  - intros k a Hk. destruct (Hnew k a Hk) as [Hk'|(-> & -> & q & ->)].
    + destruct (Hlive k a Hk') as (p & Hp & Hfail).
      destruct (decide (page = a)) as [->|Hne].
      * rewrite list_lookup_alter_eq, (lookup_app_l_Some _ _ _ _ Hp). simpl.
        eexists; split; [reflexivity|]. now rewrite Hf.
      * rewrite list_lookup_alter_ne, (lookup_app_l_Some _ _ _ _ Hp) by exact Hne.
        eauto.
    + assert (page ≠ length h) by (specialize (Hold i page Hi); lia).
      rewrite list_lookup_alter_ne by assumption.
      rewrite lookup_app_r, Nat.sub_diag by lia. simpl.
      inversion Hnews; subst. eauto.
  - intros k j a Hk Hj.
    destruct (Hnew k a Hk) as [Hk'|(Hk1 & Hk2 & _)];
      destruct (Hnew j a Hj) as [Hj'|(Hj1 & Hj2 & _)]; [eauto| | |].
    + specialize (Hold k _ Hk'). lia.
    + specialize (Hold j _ Hj'). lia.
    + congruence.
Qed.
End OwnLivePages.

Lemma invariant_live s i g page :
  invariant s → goroutines s !! i = Some g → pageOf g = Some page →
  ∃ p, heap s !! page = Some p ∧ Fail p = false.
Proof.
  intros [Hlive _] Hg Hpage. apply (Hlive i).
  now rewrite list_lookup_fmap, Hg, <- Hpage.
Qed.

Lemma pages_replace (gs : list goroutine) i g g' :
  gs !! i = Some g → pageOf g' = pageOf g →
  pageOf <$> <[i := g']> gs = pageOf <$> gs.
Proof.
  intros Hg Hpage. rewrite list_fmap_insert, Hpage.
  apply list_insert_id. now rewrite list_lookup_fmap, Hg.
Qed.

Section Steps.
Context {F : Type} `{Fetcher F}.
Variable Parse : string → option Node.

(** A goroutine changes the [Page] objects only when it sets the [Fail] flag of
    its page or visits a node. *)
Lemma step_invariant i c : invariant c.2 → invariant (step Parse i c).2.
Proof.
  destruct c as [fetcher s]. simpl. intros Hinv. unfold step.
  destruct (goroutines s !! i) as [[page|page|page [|node todo]|]|] eqn:Hg;
    try exact Hinv.
  - destruct (sem s =? 0); [exact Hinv|].
    unfold invariant; simpl. now rewrite (pages_replace _ _ _ _ Hg).
  - assert (Hfail : invariant
              (finish i (setFail page
                 (with_fetched (fun l => l ++ [(page, domain s)]) s)))).
    { unfold invariant; simpl. rewrite list_fmap_insert. simpl.
      apply ownLivePages_fail; [exact Hinv|].
      now rewrite list_lookup_fmap, Hg. }
    simpl. destruct (Fetch fetcher (domain s)) as [[r|] fetcher']; [|exact Hfail].
    destruct (Parse r) as [root|]; [|exact Hfail].
    unfold invariant; simpl. now rewrite (pages_replace _ _ _ _ Hg).
  - unfold invariant; simpl. rewrite list_fmap_insert. simpl.
    now apply ownLivePages_return.
  - destruct (visitNode_effect node page s)
      as (f & news & Hf & Hnews & Hlen & Hheap & Hgs & _).
    unfold invariant; simpl. rewrite Hheap, Hgs.
    rewrite (pages_replace _ _ (Walking page (node :: todo)))
      by (auto using lookup_app_l_Some).
    rewrite fmap_app, <- list_fmap_compose.
    apply ownLivePages_visit with (i := i); auto.
    now rewrite list_lookup_fmap, Hg.
Qed.

Lemma run_invariant sched : ∀ c, invariant c.2 → invariant (run Parse sched c).2.
Proof.
  induction sched as [|i sched IH]; intros c Hc; simpl; [exact Hc|].
  apply IH, step_invariant, Hc.
Qed.

Lemma Crawl_start_invariant url : invariant (Crawl_start url).
Proof.
  split; simpl.
  - intros [|i] a Hi; simpl in Hi; inversion Hi; subst.
    exists (newPage url). auto.
  - intros [|i] [|j] a Hi Hj; simpl in Hi, Hj; auto; inversion Hi; inversion Hj.
Qed.

Lemma reachable_invariant fetcher url c :
  reachable fetcher Parse url c → invariant c.2.
Proof.
  intros [sched ->]. apply run_invariant, Crawl_start_invariant.
Qed.

Lemma run_app sched1 sched2 c :
  run Parse (sched1 ++ sched2) c = run Parse sched2 (run Parse sched1 c).
Proof. apply fold_left_app. Qed.

Lemma run_cons i sched c :
  run Parse (i :: sched) c = run Parse sched (step Parse i c).
Proof. reflexivity. Qed.

(** A step leaves a failed page as it is. *)
Lemma step_keeps_failed_page i c a p :
  invariant c.2 → heap c.2 !! a = Some p → Fail p = true →
  heap (step Parse i c).2 !! a = Some p.
Proof.
  destruct c as [fetcher s]. simpl. intros Hinv Ha Hfail. unfold step.
  destruct (goroutines s !! i) as [[page|page|page [|node todo]|]|] eqn:Hg;
    try exact Ha.
  - now destruct (sem s =? 0).
  - assert (Hne : page ≠ a).
    { intros ->. destruct (invariant_live s i _ a Hinv Hg eq_refl)
        as (p0 & Hp0 & Hf0). congruence. }
    assert (Hset : heap (finish i (setFail page
              (with_fetched (fun l => l ++ [(page, domain s)]) s))) !! a
            = Some p).
    { simpl. now rewrite list_lookup_alter_ne. }
    simpl. destruct (Fetch fetcher (domain s)) as [[r|] fetcher']; [|exact Hset].
    destruct (Parse r) as [root|]; [|exact Hset]. exact Ha.
  - assert (Hne : a ≠ page).
    { intros ->. destruct (invariant_live s i _ page Hinv Hg eq_refl)
        as (p0 & Hp0 & Hf0). congruence. }
    destruct (visitNode_heap node page s a p Ha) as (p' & Hp' & _ & _ & Heq & _).
    simpl. rewrite Hp'. f_equal. auto.
Qed.

Lemma run_keeps_failed_page sched :
  ∀ c a p, invariant c.2 → heap c.2 !! a = Some p → Fail p = true →
           heap (run Parse sched c).2 !! a = Some p.
Proof.
  induction sched as [|i sched IH]; intros c a p Hinv Ha Hfail; simpl; [exact Ha|].
  apply IH; auto using step_invariant, step_keeps_failed_page.
Qed.
End Steps.

(** C9: in a crawl, once the [Fail] flag of a page is set, no step of any
    goroutine, in any order, changes the page: its [Links] and its
    [StaticAssets] stay as they were, and the flag stays set. *)
Theorem failed_page_is_never_extended
    {F : Type} `{Fetcher F} (fetcher : F) (Parse : string → option Node)
    (url : string) (c : F * state) (a : addr) (p : Page) (sched : list nat) :
  reachable fetcher Parse url c →
  heap c.2 !! a = Some p → Fail p = true →
  ∃ p', heap (run Parse sched c).2 !! a = Some p'
        ∧ Fail p' = true
        ∧ Links p' = Links p ∧ StaticAssets p' = StaticAssets p.
Proof.
  intros Hreach Ha Hfail. exists p.
  rewrite (run_keeps_failed_page Parse sched c a p); auto.
  eapply reachable_invariant, Hreach.
Qed.

Lemma failed_page_is_never_extended_witness :
  let c := run testParse (repeat 0 8 ++ [1; 1])
             (mkFlaky 1, Crawl_start "example.com") in
  ∃ p', heap (run testParse (repeat 0 4) c).2 !! 1 = Some p'
        ∧ Fail p' = true ∧ Links p' = [] ∧ StaticAssets p' = [].
Proof.
  apply (failed_page_is_never_extended (mkFlaky 1) testParse "example.com"
           (run testParse (repeat 0 8 ++ [1; 1])
              (mkFlaky 1, Crawl_start "example.com"))
           1 (mkPage "example.com/test" true [] []) (repeat 0 4)).
  - exists (repeat 0 8 ++ [1; 1]). reflexivity.
  - vm_compute. reflexivity.
  - reflexivity.
Defined.

(** ** A goroutine left alone runs parseHTML *)

Lemma with_goroutines_insert_insert i g g' s :
  with_goroutines <[i := g]> (with_goroutines <[i := g']> s)
  = with_goroutines <[i := g]> s.
Proof. unfold with_goroutines; simpl. now rewrite list_insert_insert_eq. Qed.

Lemma followLink_frame i g linkURL page s :
  i < length (goroutines s) →
  followLink linkURL page (with_goroutines <[i := g]> s)
  = with_goroutines <[i := g]> (followLink linkURL page s).
Proof.
  intros Hi. unfold followLink, lookupOrRegister; simpl.
  destruct (visitedPages s !! linkURL); simpl; [reflexivity|].
  unfold with_goroutines; simpl. now rewrite insert_app_l.
Qed.

Lemma assets_frame i g key attrs page s :
  assets key attrs page (with_goroutines <[i := g]> s)
  = with_goroutines <[i := g]> (assets key attrs page s).
Proof. now rewrite !assets_appendAssets. Qed.

(** Visiting a node does not look at the goroutines. *)
Lemma visitNode_frame i g node page s :
  i < length (goroutines s) →
  visitNode node page (with_goroutines <[i := g]> s)
  = with_goroutines <[i := g]> (visitNode node page s).
Proof.
  intros Hi. unfold visitNode.
  destruct (Type_ node); try reflexivity.
  destruct (String.eqb (Data node) "a").
  { rewrite !anchor_anchorSpec. unfold anchorSpec.
    destruct (List.find _ _); [|reflexivity]. simpl.
    destruct (HasPrefix _ (domain s)); [|reflexivity].
    now apply followLink_frame. }
  destruct (String.eqb (Data node) "link"); [apply assets_frame|].
  destruct (String.eqb (Data node) "img" || String.eqb (Data node) "script");
    [apply assets_frame|reflexivity].
Qed.

Lemma visitNode_goroutines_length node page s :
  length (goroutines s) ≤ length (goroutines (visitNode node page s)).
Proof.
  destruct (visitNode_effect node page s) as (f & news & _ & _ & _ & _ & Hgs & _).
  rewrite Hgs, length_app. lia.
Qed.

Lemma parseAll_cons node nodes page s :
  parseAll (node :: nodes) page s = parseAll nodes page (parseHTML node page s).
Proof. reflexivity. Qed.

Lemma parseAll_app nodes1 nodes2 page s :
  parseAll (nodes1 ++ nodes2) page s = parseAll nodes2 page (parseAll nodes1 page s).
Proof. apply fold_left_app. Qed.

Lemma parseHTML_parseAll node page s :
  parseHTML node page s = parseAll (Children node) page (visitNode node page s).
Proof. apply parseHTML_unfold. Qed.

Lemma forestCount_cons node nodes :
  forestCount (node :: nodes) = S (forestCount (Children node ++ nodes)).
Proof.
  unfold forestCount. rewrite map_app, list_sum_app. destruct node; simpl. lia.
Qed.

(** [parseHTML] and [parseAll] do not look at the goroutines. *)
Lemma parseHTML_frame i g page :
  ∀ node s, i < length (goroutines s) →
    parseHTML node page (with_goroutines <[i := g]> s)
    = with_goroutines <[i := g]> (parseHTML node page s)
    ∧ i < length (goroutines (parseHTML node page s)).
Proof.
  induction node as [t d attrs ch IHch] using Node_induction.
  intros s Hi. rewrite !parseHTML_unfold. simpl Children.
  rewrite visitNode_frame by exact Hi.
  pose proof (visitNode_goroutines_length (mkNode t d attrs ch) page s) as Hlen.
  assert (Hi' : i < length (goroutines (visitNode (mkNode t d attrs ch) page s)))
    by lia.
  revert Hi'. generalize (visitNode (mkNode t d attrs ch) page s).
  clear Hlen Hi s.
  induction IHch as [|c ch Hc _ IHl]; intros s Hi; simpl; [auto|].
  destruct (Hc s Hi) as [-> Hi']. now apply IHl.
Qed.

Lemma parseAll_frame i g page nodes :
  ∀ s, i < length (goroutines s) →
    parseAll nodes page (with_goroutines <[i := g]> s)
    = with_goroutines <[i := g]> (parseAll nodes page s)
    ∧ i < length (goroutines (parseAll nodes page s)).
Proof.
  induction nodes as [|node nodes IH]; intros s Hi; [auto|].
  rewrite !parseAll_cons.
  destruct (parseHTML_frame i g page node s Hi) as [-> Hi']. now apply IH.
Qed.

Section Alone.
Context {F : Type} `{Fetcher F}.
Variable Parse : string → option Node.

(** A goroutine in [parseHTML] that runs [k] steps in a row, [k] the number
    of nodes of the documents [nodes] it has before it, has done what
    [parseHTML] does on these nodes one after the other. *)
Lemma walking_alone (fetcher : F) i page todo :
  ∀ k nodes s,
    forestCount nodes = k →
    goroutines s !! i = Some (Walking page (nodes ++ todo)) →
    run Parse (repeat i k) (fetcher, s)
    = (fetcher, with_goroutines <[i := Walking page todo]> (parseAll nodes page s)).
Proof.
  induction k as [|k IH]; intros nodes s Hk Hg.
  - destruct nodes as [|node nodes];
      [|rewrite forestCount_cons in Hk; discriminate].
    simpl. unfold with_goroutines. rewrite list_insert_id by exact Hg.
    now destruct s.
  - destruct nodes as [|node nodes]; [discriminate|].
    rewrite forestCount_cons in Hk. injection Hk as Hk.
    assert (Hi : i < length (goroutines s)) by (eapply lookup_lt_Some, Hg).
    pose proof (visitNode_goroutines_length node page s) as Hlen.
    assert (Hstep : step Parse i (fetcher, s)
              = (fetcher,
                 with_goroutines
                   <[i := Walking page (Children node ++ nodes ++ todo)]>
                   (visitNode node page s))).
    { unfold step. simpl in Hg. now rewrite Hg. }
    change (run Parse (repeat i (S k)) (fetcher, s))
      with (run Parse (repeat i k) (step Parse i (fetcher, s))).
    rewrite Hstep, (IH (Children node ++ nodes)).
    + f_equal.
      rewrite parseAll_cons, parseAll_app, parseHTML_parseAll.
      generalize (Walking page (Children node ++ nodes ++ todo)). intros g.
      destruct (parseAll_frame i g page (Children node)
                  (visitNode node page s) ltac:(lia)) as [-> Hi1].
      destruct (parseAll_frame i g page nodes
                  (parseAll (Children node) page (visitNode node page s)) Hi1)
        as [-> _].
      apply with_goroutines_insert_insert.
    + exact Hk.
    + simpl. rewrite list_lookup_insert_eq by lia. now rewrite app_assoc.
Qed.
End Alone.

(** ** The assets of a page under every interleaving *)

Section Conservation.
Context {F : Type} `{Fetcher F}.
Variable Parse : string → option Node.

(** A step of a goroutine leaves the other goroutines as they are. *)
Lemma step_other_goroutine i j c g :
  i ≠ j → goroutines c.2 !! j = Some g →
  goroutines (step Parse i c).2 !! j = Some g.
Proof.
  destruct c as [fetcher s]. simpl. intros Hne Hj. unfold step.
  destruct (goroutines s !! i) as [[page|page|page [|node todo]|]|] eqn:Hg;
    try exact Hj.
  - destruct (sem s =? 0); [exact Hj|]. simpl.
    now rewrite list_lookup_insert_ne.
  - simpl. destruct (Fetch fetcher (domain s)) as [[r|] fetcher'];
      [destruct (Parse r)|]; simpl; now rewrite list_lookup_insert_ne.
  - simpl. now rewrite list_lookup_insert_ne.
  - destruct (visitNode_effect node page s) as (f & news & _ & _ & _ & _ & Hgs & _).
    simpl. rewrite list_lookup_insert_ne, Hgs by exact Hne.
    now apply lookup_app_l_Some.
Qed.

(** A step of a goroutine leaves the pages of the other goroutines as they
    are. *)
Lemma step_other_page i c a p :
  (∀ g, goroutines c.2 !! i = Some g → pageOf g ≠ Some a) →
  heap c.2 !! a = Some p → heap (step Parse i c).2 !! a = Some p.
Proof.
  destruct c as [fetcher s]. simpl. intros Hne Ha. unfold step.
  destruct (goroutines s !! i) as [[page|page|page [|node todo]|]|] eqn:Hg;
    try exact Ha.
  - now destruct (sem s =? 0).
  - assert (page ≠ a) by (intros ->; now apply (Hne _ eq_refl)).
    simpl. destruct (Fetch fetcher (domain s)) as [[r|] fetcher'];
      [destruct (Parse r)|]; simpl; auto; now rewrite list_lookup_alter_ne.
  - assert (a ≠ page) by (intros ->; now apply (Hne _ eq_refl)).
    destruct (visitNode_heap node page s a p Ha) as (p' & Hp' & _ & _ & Heq & _).
    simpl. rewrite Hp'. f_equal. auto.
Qed.

(** After a step a goroutine works on the page it worked on before, or on a
    page that did not exist before, or it has returned. *)
Lemma step_pages i c k g' :
  goroutines (step Parse i c).2 !! k = Some g' →
  pageOf g' = None
  ∨ (∃ g, goroutines c.2 !! k = Some g ∧ pageOf g = pageOf g')
  ∨ pageOf g' = Some (length (heap c.2)).
Proof.
  destruct c as [fetcher s]. simpl. unfold step.
  assert (Hsame : ∀ g0 g1 (gs : list goroutine),
            gs !! i = Some g0 →
            <[i := g1]> gs !! k = Some g' →
            pageOf g1 = pageOf g0 ∨ pageOf g1 = None →
            pageOf g' = None ∨ (∃ g, gs !! k = Some g ∧ pageOf g = pageOf g')).
  { intros g0 g1 gs Hg0 Hk Hpg.
    apply list_lookup_insert_Some in Hk as [(-> & <- & _)|[_ Hk]]; [|eauto].
    destruct Hpg as [Hpg|Hpg]; [right; exists g0; auto|now left]. }
  destruct (goroutines s !! i) as [[page|page|page [|node todo]|]|] eqn:Hg;
    try (intros Hk; right; left; eauto; fail).
  - destruct (sem s =? 0); [intros Hk; right; left; eauto|]. simpl. intros Hk.
    destruct (Hsame _ _ _ Hg Hk) as [?|?]; auto.
  - simpl. destruct (Fetch fetcher (domain s)) as [[r|] fetcher'];
      [destruct (Parse r)|]; simpl; intros Hk;
      destruct (Hsame _ _ _ Hg Hk) as [?|?]; auto.
  - simpl. intros Hk. destruct (Hsame _ _ _ Hg Hk) as [?|?]; auto.
  - destruct (visitNode_effect node page s)
      as (f & news & _ & _ & Hlen & _ & Hgs & _).
    simpl. rewrite Hgs. intros Hk.
    destruct (Hsame _ _ _ (lookup_app_l_Some _ _ _ _ Hg) Hk)
      as [?|(g & Hgk & Hpg)]; [auto|auto|].
    apply lookup_app_Some in Hgk as [Hgk|[_ Hgk]]; [eauto|].
    right; right. rewrite <- Hpg.
    destruct news as [|q [|q' news]]; simpl in *; try lia.
    + now rewrite lookup_nil in Hgk.
    + destruct (k - length (goroutines s)); simpl in Hgk;
        [now injection Hgk as <-|now rewrite lookup_nil in Hgk].
Qed.

Lemma step_walked i page total j c :
  invariant c.2 → walked i page total c.2 →
  walked i page total (step Parse j c).2.
Proof.
  intros Hinv (p & Hp & Hcase).
  destruct Hcase as [(todo & Hg & Htot)|(Hfin & Hun & Htot)].
  - destruct (decide (j = i)) as [->|Hne].
    + destruct c as [fetcher s]. simpl in *.
      assert (Hi : i < length (goroutines s)) by (eapply lookup_lt_Some, Hg).
      unfold step. rewrite Hg. destruct todo as [|node todo];
        unfold walked; simpl.
      * exists p. split; [exact Hp|]. right.
        rewrite list_lookup_insert_eq by exact Hi.
        rewrite app_nil_r in Htot. repeat split; auto.
        intros k g Hk Hpg.
        apply list_lookup_insert_Some in Hk as [(_ & <- & _)|[Hki Hk]];
          [discriminate|].
        simpl in Hk.
        destruct Hinv as [_ Hdist]. apply Hki. apply (Hdist i k page).
        -- now rewrite list_lookup_fmap, Hg.
        -- now rewrite list_lookup_fmap, Hk, <- Hpg.
      * destruct (visitNode_heap node page s page p Hp)
          as (p' & Hp' & _ & _ & _ & Hassets).
        exists p'. split; [exact Hp'|]. left.
        exists (Children node ++ todo). split.
        -- apply list_lookup_insert_eq.
           pose proof (visitNode_goroutines_length node page s). lia.
        -- rewrite (Hassets eq_refl), flat_map_app, <- Htot. simpl.
           rewrite (documentAssets_unfold node), <- !app_assoc. reflexivity.
    + exists p. split.
      * apply step_other_page; [|exact Hp].
        intros g Hj Hpg. destruct Hinv as [_ Hdist]. apply Hne.
        apply (Hdist j i page).
        -- now rewrite list_lookup_fmap, Hj, <- Hpg.
        -- now rewrite list_lookup_fmap, Hg.
      * left. exists todo. split; [|exact Htot].
        now apply step_other_goroutine.
  - exists p. split; [|right; repeat split; auto].
    + apply step_other_page; [|exact Hp]. intros g Hj. now apply (Hun j).
    + destruct (decide (j = i)) as [->|Hne]; [|now apply step_other_goroutine].
      destruct c as [fetcher s]. simpl in *. unfold step. now rewrite Hfin.
    + intros k g' Hk Hpg.
      destruct (step_pages j c k g' Hk) as [Hnone|[(g & Hgk & Hsame)|Hnew]].
      * congruence.
      * apply (Hun k g Hgk). congruence.
      * apply lookup_lt_Some in Hp. rewrite Hpg in Hnew. injection Hnew as ->. lia.
Qed.

(** What a goroutine in [parseHTML] has appended to the assets of its page
    and what the nodes before it will append make up the same list at
    every moment, whatever the other goroutines do in between; when the
    goroutine has returned, the page has these assets and keeps them. *)
Lemma assets_conserved i page total sched :
  ∀ c, invariant c.2 → walked i page total c.2 →
       walked i page total (run Parse sched c).2.
Proof.
  induction sched as [|j sched IH]; intros c Hinv Hw; [exact Hw|].
  rewrite run_cons. apply IH; [now apply step_invariant|now apply step_walked].
Qed.
End Conservation.

(** ** Crawl *)

Section SeedFails.
Context {F : Type} `{Fetcher F} (fetcher : F).
Variable Parse : string → option Node.
Variable url : string.
Hypothesis Hfetch : (Fetch fetcher url).1 = None.

Lemma step_seed_start i :
  step Parse i (fetcher, Crawl_start url) = (fetcher, Crawl_start url)
  ∨ step Parse i (fetcher, Crawl_start url) = (fetcher, seedRunning url).
Proof. destruct i as [|i]; [right|left]; reflexivity. Qed.

Lemma step_seed_running i :
  step Parse i (fetcher, seedRunning url) = (fetcher, seedRunning url)
  ∨ step Parse i (fetcher, seedRunning url)
    = ((Fetch fetcher url).2, seedFailed url).
Proof.
  destruct i as [|i]; [right|left]; [|reflexivity].
  unfold step; simpl. destruct (Fetch fetcher url) as [r fetcher'].
  simpl in Hfetch. subst r. reflexivity.
Qed.

Lemma step_seed_failed fetcher' i :
  step Parse i (fetcher', seedFailed url) = (fetcher', seedFailed url).
Proof. destruct i as [|i]; reflexivity. Qed.

Lemma run_seed_failed fetcher' sched :
  run Parse sched (fetcher', seedFailed url) = (fetcher', seedFailed url).
Proof.
  induction sched as [|i sched IH]; [reflexivity|].
  now rewrite run_cons, step_seed_failed.
Qed.

Lemma run_seed_running sched :
  (run Parse sched (fetcher, seedRunning url)).2 = seedRunning url
  ∨ (run Parse sched (fetcher, seedRunning url)).2 = seedFailed url.
Proof.
  induction sched as [|i sched IH]; [now left|].
  rewrite run_cons.
  destruct (step_seed_running i) as [->| ->]; [exact IH|].
  right. now rewrite run_seed_failed.
Qed.

Lemma run_seed_start sched :
  (run Parse sched (fetcher, Crawl_start url)).2 = Crawl_start url
  ∨ (run Parse sched (fetcher, Crawl_start url)).2 = seedRunning url
  ∨ (run Parse sched (fetcher, Crawl_start url)).2 = seedFailed url.
Proof.
  induction sched as [|i sched IH]; [now left|].
  rewrite run_cons.
  destruct (step_seed_start i) as [->| ->]; [exact IH|].
  right. apply run_seed_running.
Qed.
End SeedFails.

(** C5: when the fetch of the seed URL fails, [Crawl] returns (after the
    two steps of the seed task, and under every schedule under which it
    returns) the page of the seed with its URL, [Fail] set, and neither
    links nor assets. *)
Theorem Crawl_of_unreachable_seed
    {F : Type} `{Fetcher F} (fetcher : F) (Parse : string → option Node)
    (url : string) :
  (Fetch fetcher url).1 = None →
  (∃ s, Crawl Parse fetcher [0; 0] url = Some (s, mkPage url true [] []))
  ∧ (∀ sched s p, Crawl Parse fetcher sched url = Some (s, p) →
       p = mkPage url true [] []).
Proof.
  intros Hfetch. split.
  - exists (seedFailed url). unfold Crawl.
    assert (E1 : step Parse 0 (fetcher, Crawl_start url)
                 = (fetcher, seedRunning url)) by reflexivity.
    assert (E2 : step Parse 0 (fetcher, seedRunning url)
                 = ((Fetch fetcher url).2, seedFailed url)).
    { unfold step; simpl. destruct (Fetch fetcher url) as [r fetcher'].
      simpl in Hfetch. subst r. reflexivity. }
    rewrite run_cons, E1, run_cons, E2. reflexivity.
  - intros sched s p. unfold Crawl.
    destruct (run_seed_start fetcher Parse url Hfetch sched) as [->|[->| ->]];
      simpl; try discriminate.
    intros Heq. now inversion Heq.
Qed.

Lemma Crawl_of_unreachable_seed_witness :
  ∃ s, Crawl testParse failingFetcher [0; 0] "example.com"
       = Some (s, mkPage "example.com" true [] []).
Proof.
  exact (proj1 (Crawl_of_unreachable_seed failingFetcher testParse
                  "example.com" eq_refl)).
Defined.

(** Every call of [Fetch] in a crawl asks for the seed URL. *)
Lemma fetched_is_domain {F : Type} `{Fetcher F}
    (Parse : string → option Node) (sched : list nat) :
  ∀ c : F * state,
    Forall (fun call => call.2 = domain c.2) (fetched c.2) →
    domain (run Parse sched c).2 = domain c.2
    ∧ Forall (fun call => call.2 = domain c.2) (fetched (run Parse sched c).2).
Proof.
  induction sched as [|i sched IH]; intros c Hc; simpl; [auto|].
  assert (Hstep : domain (step Parse i c).2 = domain c.2
                  ∧ Forall (fun call => call.2 = domain c.2)
                      (fetched (step Parse i c).2)).
  { destruct c as [fetcher s]. simpl in *. unfold step.
    destruct (goroutines s !! i) as [[page|page|page [|node todo]|]|]; auto.
    - destruct (sem s =? 0); auto.
    - assert (Forall (fun call => call.2 = domain s)
                (fetched s ++ [(page, domain s)])).
      { apply Forall_app; auto. }
      simpl. destruct (Fetch fetcher (domain s)) as [[r|] fetcher']; [|auto].
      destruct (Parse r); auto.
    - simpl. unfold visitNode.
      destruct (Type_ node); auto.
      destruct (String.eqb (Data node) "a").
      { rewrite anchor_anchorSpec. unfold anchorSpec.
        destruct (List.find _ _); auto. simpl.
        destruct (HasPrefix _ (domain s)); auto.
        unfold followLink, lookupOrRegister.
        destruct (visitedPages s !! _); auto. }
      destruct (String.eqb (Data node) "link").
      { rewrite assets_appendAssets. auto. }
      destruct (String.eqb (Data node) "img" || String.eqb (Data node) "script");
        [rewrite assets_appendAssets|]; auto. }
  destruct Hstep as [Hd Hf]. rewrite <- Hd in Hf.
  destruct (IH _ Hf) as [Hd' Hf']. rewrite Hd in Hd', Hf'. auto.
Qed.

(** Every task of a crawl, whatever its page, asks the fetcher for the
    seed URL. *)
Lemma every_task_fetches_the_seed {F : Type} `{Fetcher F} (fetcher : F)
    (Parse : string → option Node) (url : string) (c : F * state) :
  reachable fetcher Parse url c →
  Forall (fun call => call.2 = url) (fetched c.2).
Proof.
  intros [sched ->].
  destruct (fetched_is_domain Parse sched (fetcher, Crawl_start url)) as [_ Hall];
    [constructor|exact Hall].
Qed.

(** C1: what the code does: with a fetcher that serves the seed and fails
    for every other URL, the task of the page [example.com/test] asks for
    [example.com], the seed, again; the page is not marked failed and gets
    the assets of the seed. *)
Theorem crawlPage_fetches_the_seed_again :
  ∃ s p,
    Crawl testParse seedOnlyFetcher (repeat 0 12 ++ repeat 1 12) "example.com"
      = Some (s, p)
    ∧ heap s = expectedHeap
    ∧ fetched s = [(0, "example.com"); (1, "example.com")]
    ∧ (Fetch seedOnlyFetcher "example.com/test").1 = None.
Proof.
  eexists _, _. split; [vm_compute; reflexivity|].
  repeat split; vm_compute; reflexivity.
Qed.

(** ** The locked section under every interleaving *)

Module RegistryFacts.
Import Registry.

Section TwoTasks.
Variables (m : gmap string addr) (h : list Page) (u : string) (p1 p2 : addr).

Lemma start_inv : inv m h u p1 p2 (start m h u p1 u p2).
Proof. repeat split. Qed.

Lemma step_inv who s : inv m h u p1 p2 s → inv m h u p1 p2 (step who s).
Proof.
  destruct s as [[lk vm hp] [a1 u1 q1 ok1 l1] [a2 u2 q2 ok2 l2]].
  unfold inv, taskOk, step, exec, stored, inCritical; simpl.
  intros ((-> & -> & H1) & (-> & -> & H2) & Hlk & Hex & Hst & Hph).
  destruct who; simpl.
  - destruct a2; simpl in *.
    + destruct lk; simpl; [tauto|].
      destruct a1; simpl in *; try discriminate; tauto.
    + destruct (vm !! u) eqn:Hu; simpl;
        destruct a1; simpl in *; try discriminate; rewrite ?Hu;
        intuition eauto.
    + destruct H2 as (-> & -> & Hu).
      destruct a1; simpl in *; try discriminate;
        try (destruct ok1; simpl in *;
             [destruct H1 as [_ [x Hx]]; congruence|]);
        destruct Hph as [-> Hph];
        try (rewrite lookup_insert_eq in Hu; discriminate);
        subst hp;
        rewrite ?lookup_insert_eq; intuition eauto.
    + destruct a1; simpl in *; try discriminate; tauto.
    + tauto.
  - destruct a1; simpl in *.
    + destruct lk; simpl; [tauto|].
      destruct a2; simpl in *; try discriminate; tauto.
    + destruct (vm !! u) eqn:Hu; simpl;
        destruct a2; simpl in *; try discriminate; rewrite ?Hu;
        intuition eauto.
    + destruct H1 as (-> & -> & Hu).
      destruct a2; simpl in *; try discriminate;
        try (destruct ok2; simpl in *;
             [destruct H2 as [_ [x Hx]]; congruence|]);
        destruct Hph as [-> Hph];
        try (rewrite lookup_insert_eq in Hu; discriminate);
        subst hp;
        rewrite ?lookup_insert_eq; intuition eauto.
    + destruct a2; simpl in *; try discriminate; tauto.
    + tauto.
Qed.

Lemma run_inv sched : ∀ s, inv m h u p1 p2 s → inv m h u p1 p2 (run sched s).
Proof.
  induction sched as [|who sched IH]; intros s Hs; simpl; [exact Hs|].
  apply IH, step_inv, Hs.
Qed.

Lemma run_split sched1 sched2 s :
  run (sched1 ++ sched2) s = run sched2 (run sched1 s).
Proof. apply fold_left_app. Qed.

Lemma run_first n : ∀ s,
  run (repeat false n) s =
    mkSystem (execN n (t1 s) (sh s)).2 (execN n (t1 s) (sh s)).1 (t2 s).
Proof.
  induction n as [|n IH]; intros [s a b]; simpl; [reflexivity|].
  rewrite IH. unfold step; simpl. now destruct (exec a s).
Qed.

Lemma run_second n : ∀ s,
  run (repeat true n) s =
    mkSystem (execN n (t2 s) (sh s)).2 (t1 s) (execN n (t2 s) (sh s)).1.
Proof.
  induction n as [|n IH]; intros [s a b]; simpl; [reflexivity|].
  rewrite IH. unfold step; simpl. now destruct (exec b s).
Qed.

Lemma execN_done n t s : at_ t = Done → execN n t s = (t, s).
Proof.
  intros Ht. induction n as [|n IH]; simpl; [reflexivity|].
  unfold exec. now rewrite Ht.
Qed.

Lemma execN_blocked n t s :
  at_ t = AtLock → locked s = true → execN n t s = (t, s).
Proof.
  intros Ht Hs. induction n as [|n IH]; simpl; [reflexivity|].
  unfold exec. now rewrite Ht, Hs.
Qed.

(** Four statements take a task that holds the lock, or finds it free, to
    the end of the section. *)
Lemma execN_through t s :
  inCritical t = true ∨ (at_ t = AtLock ∧ locked s = false) →
  at_ (execN 4 t s).1 = Done.
Proof.
  destruct t as [a w q o l], s as [lk vm hp]. unfold inCritical; simpl.
  intros [Hcrit|[-> ->]].
  - destruct a; try discriminate; simpl; unfold exec; simpl;
      try reflexivity.
    destruct (vm !! w); reflexivity.
  - unfold exec; simpl. destruct (vm !! w); reflexivity.
Qed.

(** After four statements of a task, it is through, or it waits for the
    lock that the other task holds. *)
Lemma first_four s :
  inv m h u p1 p2 s →
  let s' := run (repeat false 4) s in
  t2 s' = t2 s
  ∧ (at_ (t1 s') = Done ∨ (at_ (t1 s') = AtLock ∧ inCritical (t2 s') = true)).
Proof.
  intros (_ & _ & Hlk & Hex & _). cbv zeta. rewrite run_first. cbn [t1 t2 sh].
  split; [reflexivity|].
  destruct (at_ (t1 s)) eqn:Ha.
  - destruct (locked (sh s)) eqn:Hl.
    + rewrite execN_blocked by assumption. right. split; [exact Ha|].
      assert (Hout : inCritical (t1 s) = false)
        by (unfold inCritical; now rewrite Ha).
      rewrite Hout, orb_false_l in Hlk. congruence.
    + left. apply execN_through. auto.
  - left. apply execN_through. left. unfold inCritical. now rewrite Ha.
  - left. apply execN_through. left. unfold inCritical. now rewrite Ha.
  - left. apply execN_through. left. unfold inCritical. now rewrite Ha.
  - left. now rewrite execN_done.
Qed.

Lemma second_four s :
  inv m h u p1 p2 s →
  let s' := run (repeat true 4) s in
  t1 s' = t1 s
  ∧ (at_ (t2 s') = Done ∨ (at_ (t2 s') = AtLock ∧ inCritical (t1 s') = true)).
Proof.
  intros (_ & _ & Hlk & Hex & _). cbv zeta. rewrite run_second. cbn [t1 t2 sh].
  split; [reflexivity|].
  destruct (at_ (t2 s)) eqn:Ha.
  - destruct (locked (sh s)) eqn:Hl.
    + rewrite execN_blocked by assumption. right. split; [exact Ha|].
      assert (Hout : inCritical (t2 s) = false)
        by (unfold inCritical; now rewrite Ha).
      rewrite Hout, orb_false_r in Hlk. congruence.
    + left. apply execN_through. auto.
  - left. apply execN_through. left. unfold inCritical. now rewrite Ha.
  - left. apply execN_through. left. unfold inCritical. now rewrite Ha.
  - left. apply execN_through. left. unfold inCritical. now rewrite Ha.
  - left. now rewrite execN_done.
Qed.

(** Whatever the moment, the first task running four steps, then the second
    four, then the first four again brings both to the end of the section:
    no interleaving leaves a task waiting for ever. *)
Lemma run_to_the_end s :
  inv m h u p1 p2 s →
  finished (run (repeat false 4 ++ repeat true 4 ++ repeat false 4) s) = true.
Proof.
  intros Hinv. rewrite !run_split.
  pose proof (run_inv (repeat false 4) s Hinv) as Hinv1.
  destruct (first_four s Hinv) as [_ H1].
  set (s1 := run (repeat false 4) s) in *.
  pose proof (run_inv (repeat true 4) s1 Hinv1) as Hinv2.
  destruct (second_four s1 Hinv1) as [E2 H2].
  set (s2 := run (repeat true 4) s1) in *.
  destruct (first_four s2 Hinv2) as [E3 H3].
  set (s3 := run (repeat false 4) s2) in *.
  assert (Hdone : ∀ t, at_ t = Done → inCritical t = false)
    by (intros t Ht; unfold inCritical; now rewrite Ht).
  assert (Hwait : ∀ t, at_ t = AtLock → inCritical t = false)
    by (intros t Ht; unfold inCritical; now rewrite Ht).
  assert (D2 : at_ (t2 s2) = Done).
  { destruct H2 as [H2|[_ H2]]; [exact H2|]. rewrite E2 in H2.
    destruct H1 as [H1|[H1 _]]; [rewrite (Hdone _ H1) in H2|
                                 rewrite (Hwait _ H1) in H2]; discriminate. }
  assert (D3 : at_ (t1 s3) = Done).
  { destruct H3 as [H3|[_ H3]]; [exact H3|]. rewrite E3, (Hdone _ D2) in H3.
    discriminate. }
  unfold finished. rewrite D3, E3, D2. reflexivity.
Qed.
End TwoTasks.
End RegistryFacts.

(** A task that runs the locked section alone does what the atomic step
    [lookupOrRegister] of the crawl does. *)
Lemma section_alone_is_lookupOrRegister (s : state) (u : string) (page : addr) :
  let r := Registry.execN 4
             (Registry.mkTask Registry.AtLock u page true Link.zero)
             (Registry.mkShared false (visitedPages s) (heap s)) in
  Registry.at_ r.1 = Registry.Done
  ∧ Registry.locked r.2 = false
  ∧ lookupOrRegister u page Link.zero s
    = (Registry.ok r.1, Registry.link r.1,
       with_visitedPages (fun _ => Registry.visitedPages r.2)
         (with_heap (fun _ => Registry.heap r.2) s)).
Proof.
  unfold lookupOrRegister.
  destruct (visitedPages s !! u) eqn:E;
    unfold Registry.execN, Registry.exec; simpl; rewrite E; simpl;
    repeat split; now destruct s.
Qed.

(** Two tasks run the locked section for the same URL [u], their statements
    interleaved in any order: what holds of them at every moment, and when
    both are through. *)
Lemma two_tasks_on_one_URL
    (m : gmap string addr) (h : list Page) (u : string) (p1 p2 : addr)
    (sched : list bool) :
  let s := Registry.run sched (Registry.start m h u p1 u p2) in
  Registry.inCritical (Registry.t1 s) && Registry.inCritical (Registry.t2 s) = false
  ∧ (Registry.finished s = true →
       match m !! u with
       | None =>
           Registry.created (Registry.t1 s) = negb (Registry.created (Registry.t2 s))
           ∧ Registry.visitedPages (Registry.sh s) = <[u := length h]> m
           ∧ Registry.heap (Registry.sh s) = h ++ [newPage u]
       | Some _ =>
           Registry.created (Registry.t1 s) = false
           ∧ Registry.created (Registry.t2 s) = false
           ∧ Registry.visitedPages (Registry.sh s) = m
           ∧ Registry.heap (Registry.sh s) = h
       end
       ∧ Registry.link (Registry.t1 s)
         = (if Registry.created (Registry.t1 s)
            then Link.mk (Some (length h)) false else Link.mk (Some p1) true)
       ∧ Registry.link (Registry.t2 s)
         = (if Registry.created (Registry.t2 s)
            then Link.mk (Some (length h)) false else Link.mk (Some p2) true))
  ∧ ∃ rest, Registry.finished (Registry.run rest s) = true.
Proof.
  intros s.
  assert (Hinv : Registry.inv m h u p1 p2 s)
    by apply RegistryFacts.run_inv, RegistryFacts.start_inv.
  split; [|split].
  - apply Hinv.
  - unfold Registry.finished. intros Hfin.
    destruct Hinv as ((_ & _ & H1) & (_ & _ & H2) & _ & _ & Hst & Hph).
    unfold Registry.stored, Registry.created in *.
    destruct (Registry.at_ (Registry.t1 s)); try discriminate.
    destruct (Registry.at_ (Registry.t2 s)); try discriminate.
    destruct (Registry.ok (Registry.t1 s)), (Registry.ok (Registry.t2 s));
      simpl in *; try discriminate.
    + destruct Hph as [Hm Hh]. destruct H1 as [Hl1 [a Ha]].
      rewrite Hm in Ha. rewrite Ha. destruct H2 as [Hl2 _]. auto 10.
    + destruct Hph as (Hm & Hh & Hu). rewrite Hu. destruct H1 as [Hl1 _]. auto 10.
    + destruct Hph as (Hm & Hh & Hu). rewrite Hu. destruct H2 as [Hl2 _]. auto 10.
  - eexists. apply (RegistryFacts.run_to_the_end m h u p1 p2 s Hinv).
Qed.

(** C3: two tasks, of pages of the heap, run the locked section for the
    same URL [u], which is not registered, their statements interleaved in
    any order. The check and the insert are atomic: the two are never both
    between [Lock] and [Unlock], both get through, and when they are
    through exactly one has seen [u] absent and has stored the one new page
    for [u], and the other has seen it present. But the task that has seen
    it present does not get the page that is registered for [u]: the map
    value is dropped ([_, ok = c.visitedPages[linkURL]]) and the link gets
    the page of the task itself. *)
Theorem found_present_but_the_registered_page_is_dropped
    (m : gmap string addr) (h : list Page) (u : string) (p1 p2 : addr)
    (sched : list bool) :
  m !! u = None → p1 < length h → p2 < length h →
  let s := Registry.run sched (Registry.start m h u p1 u p2) in
  Registry.inCritical (Registry.t1 s) && Registry.inCritical (Registry.t2 s) = false
  ∧ (∃ rest, Registry.finished (Registry.run rest s) = true)
  ∧ (Registry.finished s = true →
       Registry.created (Registry.t1 s) = negb (Registry.created (Registry.t2 s))
       ∧ Registry.heap (Registry.sh s) = h ++ [newPage u]
       ∧ ∃ registered,
           Registry.visitedPages (Registry.sh s) !! u = Some registered
           ∧ Registry.heap (Registry.sh s) !! registered = Some (newPage u)
           ∧ (Registry.created (Registry.t1 s) = false →
                Link.Page (Registry.link (Registry.t1 s)) = Some p1
                ∧ p1 ≠ registered)
           ∧ (Registry.created (Registry.t2 s) = false →
                Link.Page (Registry.link (Registry.t2 s)) = Some p2
                ∧ p2 ≠ registered)).
Proof.
  intros Hnew Hp1 Hp2 s.
  destruct (two_tasks_on_one_URL m h u p1 p2 sched) as (Hexcl & Hfin & Hrest).
  fold s in Hexcl, Hfin, Hrest.
  split; [exact Hexcl|split; [exact Hrest|]].
  intros Hdone. destruct (Hfin Hdone) as (Hcase & Hl1 & Hl2).
  rewrite Hnew in Hcase. destruct Hcase as (Hone & Hm & Hh).
  split; [exact Hone|split; [exact Hh|]].
  exists (length h). rewrite Hm, Hh, lookup_insert_eq.
  split; [reflexivity|split; [|split]].
  - rewrite lookup_app_r, Nat.sub_diag by lia. reflexivity.
  - intros Hc. rewrite Hc in Hl1. rewrite Hl1. split; [reflexivity|lia].
  - intros Hc. rewrite Hc in Hl2. rewrite Hl2. split; [reflexivity|lia].
Qed.

(** The tasks of the pages [example.com/a] and [example.com/b] both meet an
    anchor to [example.com/c], which is new; the first takes the lock first
    and creates the page, at address 3; the second finds the URL present,
    and its link gets page 2, its own. *)
Lemma found_present_but_the_registered_page_is_dropped_witness :
  let h := [newPage "example.com"; newPage "example.com/a"; newPage "example.com/b"] in
  let m : gmap string addr :=
    {[ "example.com" := 0; "example.com/a" := 1; "example.com/b" := 2 ]} in
  let s := Registry.run [false; true; false; true; false; false; true; true; true]
             (Registry.start m h "example.com/c" 1 "example.com/c" 2) in
  Registry.created (Registry.t1 s) = true
  ∧ Registry.created (Registry.t2 s) = false
  ∧ Registry.visitedPages (Registry.sh s) !! "example.com/c" = Some 3
  ∧ Registry.link (Registry.t2 s) = Link.mk (Some 2) true
  ∧ (Registry.heap (Registry.sh s) = h ++ [newPage "example.com/c"]
     ∧ ∃ registered,
         Registry.visitedPages (Registry.sh s) !! "example.com/c" = Some registered
         ∧ Registry.heap (Registry.sh s) !! registered = Some (newPage "example.com/c")
         ∧ (Registry.created (Registry.t1 s) = false →
              Link.Page (Registry.link (Registry.t1 s)) = Some 1 ∧ 1 ≠ registered)
         ∧ (Registry.created (Registry.t2 s) = false →
              Link.Page (Registry.link (Registry.t2 s)) = Some 2 ∧ 2 ≠ registered)).
Proof.
  intros h m s.
  split; [vm_compute; reflexivity|]. split; [vm_compute; reflexivity|].
  split; [vm_compute; reflexivity|]. split; [vm_compute; reflexivity|].
  apply (found_present_but_the_registered_page_is_dropped m h "example.com/c" 1 2
           [false; true; false; true; false; false; true; true; true]).
  - vm_compute. reflexivity.
  - simpl. lia.
  - simpl. lia.
  - vm_compute. reflexivity.
Defined.

(** ** The page graph a crawl builds *)

Lemma linksForward_alter h f a :
  (∀ p, Links (f p) = Links p) → linksForward h → linksForward (alter f a h).
Proof.
  intros Hf Hh b p link Hb Hin. rewrite length_alter.
  destruct (decide (a = b)) as [->|Hne].
  - rewrite list_lookup_alter_eq in Hb.
    destruct (h !! b) as [p0|] eqn:Hp0; [|discriminate].
    simpl in Hb. injection Hb as <-. rewrite Hf in Hin. eauto.
  - rewrite list_lookup_alter_ne in Hb by exact Hne. eauto.
Qed.

Lemma linksForward_visit h page f news :
  page < length h → linksForward h →
  Forall (fun q => Links q = []) news →
  (∀ p link, link ∈ Links (f p) →
     link ∈ Links p ∨ (link = Link.mk (Some (length h)) false ∧ news ≠ [])) →
  linksForward (alter f page (h ++ news)).
Proof.
  intros Hpage Hh Hnews Hf a p link Ha Hin.
  rewrite length_alter, length_app.
  assert (Hold : ∀ p0, h !! a = Some p0 → link ∈ Links p0 →
            ∃ b, Link.Page link = Some b ∧ a < b < length h + length news
                 ∧ Link.CyclicPage link = false).
  { intros p0 Hp0 Hin0. destruct (Hh a p0 link Hp0 Hin0) as (b & ? & ? & ?).
    exists b. repeat split; auto; lia. }
  destruct (decide (page = a)) as [->|Hne].
  - rewrite list_lookup_alter_eq, lookup_app_l in Ha by exact Hpage.
    destruct (h !! a) as [p0|] eqn:Hp0; [|discriminate].
    simpl in Ha. injection Ha as <-.
    destruct (Hf p0 link Hin) as [Hin0|[-> Hne]]; [now apply (Hold p0)|].
    exists (length h). simpl.
    assert (0 < length news) by (destruct news; [contradiction|simpl; lia]).
    repeat split; auto; lia.
  - rewrite list_lookup_alter_ne in Ha by exact Hne.
    apply lookup_app_Some in Ha as [Ha|[_ Ha]]; [now apply (Hold p)|].
    apply list_elem_of_lookup_2 in Ha.
    rewrite Forall_forall in Hnews. rewrite (Hnews p Ha) in Hin.
    now apply elem_of_nil in Hin.
Qed.

Section Graph.
Context {F : Type} `{Fetcher F}.
Variable Parse : string → option Node.

Lemma step_linksForward i c :
  invariant c.2 → linksForward (heap c.2) →
  linksForward (heap (step Parse i c).2).
Proof.
  destruct c as [fetcher s]. simpl. intros Hinv Hfw. unfold step.
  destruct (goroutines s !! i) as [[page|page|page [|node todo]|]|] eqn:Hg;
    try exact Hfw.
  - now destruct (sem s =? 0).
  - assert (Hset : linksForward
              (heap (finish i (setFail page
                 (with_fetched (fun l => l ++ [(page, domain s)]) s))))).
    { simpl. now apply linksForward_alter. }
    simpl. destruct (Fetch fetcher (domain s)) as [[r|] fetcher']; [|exact Hset].
    destruct (Parse r); [exact Hfw|exact Hset].
  - destruct (visitNode_effect node page s)
      as (f & news & _ & _ & _ & Hheap & _ & Hnews & Hlinks).
    simpl. rewrite Hheap.
    destruct (invariant_live s i _ page Hinv Hg eq_refl) as (p & Hp & _).
    apply linksForward_visit; auto. now apply lookup_lt_Some in Hp.
Qed.

Lemma run_linksForward sched :
  ∀ c, invariant c.2 → linksForward (heap c.2) →
       linksForward (heap (run Parse sched c).2).
Proof.
  induction sched as [|i sched IH]; intros c Hinv Hfw; simpl; [exact Hfw|].
  apply IH; auto using step_invariant, step_linksForward.
Qed.

(** In a crawl every link points to a page and is not marked cyclic. *)
Lemma reachable_linksForward fetcher url c :
  reachable fetcher Parse url c → linksForward (heap c.2).
Proof.
  intros [sched ->]. apply run_linksForward.
  - apply Crawl_start_invariant.
  - intros [|a] p link Ha Hin; simpl in Ha; [|now rewrite lookup_nil in Ha].
    injection Ha as <-. now apply elem_of_nil in Hin.
Qed.
End Graph.

Lemma linksForward_pointersValid h : linksForward h → pointersValid h.
Proof.
  intros Hfw a p link b Ha Hin Hb.
  destruct (Hfw a p link Ha Hin) as (b' & Hb' & Hlt & _).
  assert (b' = b) by congruence. subst b'.
  apply lookup_lt_is_Some. lia.
Qed.

Lemma linksForward_Acc h : linksForward h → ∀ a, Acc (flip (expands h)) a.
Proof.
  intros Hfw.
  assert (Hn : ∀ n a, length h - a ≤ n → Acc (flip (expands h)) a).
  { induction n as [|n IH]; intros a Hle; constructor;
      intros b (p & link & Ha & Hin & Hb & _);
      destruct (Hfw a p link Ha Hin) as (b' & Hb' & Hlt & _);
      assert (b' = b) by congruence; subst b'; [lia|].
    apply IH. lia. }
  intros a. now apply (Hn (length h - a)).
Qed.

(** Whatever [Crawl] returns, [String] returns on it. *)
Lemma Crawl_result_renders {F : Type} `{Fetcher F} (fetcher : F)
    (Parse : string → option Node) (sched : list nat) (url : string) s p :
  Crawl Parse fetcher sched url = Some (s, p) →
  ∃ fuel str, PageString (heap s) fuel p = Some str.
Proof.
  unfold Crawl. destruct (wg _ =? 0); [|discriminate].
  destruct (heap _ !! 0) as [p0|] eqn:Hp0; [|discriminate].
  simpl. intros Heq. injection Heq as <- <-.
  assert (Hfw : linksForward (heap (run Parse sched (fetcher, Crawl_start url)).2))
    by (apply (reachable_linksForward Parse fetcher url); now exists sched).
  destruct (PageString_returns _ (linksForward_pointersValid _ Hfw) 0
              (linksForward_Acc _ Hfw 0) p0 Hp0) as [n Hn].
  destruct (Hn n (le_n n)) as [str Hstr]. eauto.
Qed.

(** [TestCrawler]: with the fetcher of the test, which serves the same
    document for every URL, the page [Crawl] returns prints as the expected
    page does. *)
Lemma TestCrawler_passes :
  ∃ s p expected,
    Crawl testParse testFetcher (repeat 0 12 ++ repeat 1 12) "example.com"
      = Some (s, p)
    ∧ Fail p = false
    ∧ expectedHeap !! 0 = Some expected
    ∧ PageString (heap s) 2 p = PageString expectedHeap 2 expected
    ∧ is_Some (PageString (heap s) 2 p).
Proof.
  eexists _, _, _. split; [vm_compute; reflexivity|].
  repeat split; vm_compute; eauto.
Qed.

(** * Further properties of the crawl *)

(** ** Every step is a transition *)

Lemma followLink_register linkURL page s :
  visitedPages s !! linkURL = None →
  followLink linkURL page s = register linkURL page s.
Proof.
  intros Hnew. unfold followLink, lookupOrRegister, register. now rewrite Hnew.
Qed.

(** Visiting a node appends assets to the page of the task (none, for a
    node that is no [link], [img] or [script] element), or registers one
    URL of the domain that was not registered. *)
Lemma visitNode_cases node page s :
  (∃ vals, visitNode node page s = appendAssets page vals s)
  ∨ (∃ u, visitedPages s !! u = None ∧ HasPrefix u (domain s) = true
          ∧ visitNode node page s = register u page s).
Proof.
  assert (Hsame : ∃ vals, s = appendAssets page vals s)
    by (exists []; now rewrite appendAssets_nil).
  unfold visitNode. destruct (Type_ node); try (left; exact Hsame).
  destruct (String.eqb (Data node) "a").
  { rewrite anchor_anchorSpec. unfold anchorSpec.
    destruct (List.find _ _) as [attr|]; [|left; exact Hsame].
    cbv zeta.
    destruct (HasPrefix _ (domain s)) eqn:Hpre; [|left; exact Hsame].
    match goal with |- context [followLink ?u page s] => set (url := u) in * end.
    destruct (visitedPages s !! url) eqn:Hreg.
    - left. rewrite followLink_present by eauto. exact Hsame.
    - right. exists url. repeat split; auto. now apply followLink_register. }
  destruct (String.eqb (Data node) "link").
  { left. eexists. apply assets_appendAssets. }
  destruct (String.eqb (Data node) "img" || String.eqb (Data node) "script").
  { left. eexists. apply assets_appendAssets. }
  left. exact Hsame.
Qed.

Lemma visit_transition i page node todo s :
  goroutines s !! i = Some (Walking page (node :: todo)) →
  transition s
    (with_goroutines <[i := Walking page (Children node ++ todo)]>
       (visitNode node page s)).
Proof.
  intros Hg.
  destruct (visitNode_cases node page s) as [[vals ->]|(u & Hnew & Hpre & ->)].
  - now apply tr_assets.
  - now apply tr_register.
Qed.

Lemma step_transition {F : Type} `{Fetcher F} (Parse : string → option Node)
    i (c : F * state) :
  transition c.2 (step Parse i c).2.
Proof.
  destruct c as [fetcher s]. simpl. unfold step.
  destruct (goroutines s !! i) as [[page|page|page [|node todo]|]|] eqn:Hg;
    try apply tr_none.
  - destruct (sem s =? 0) eqn:Hsem; [apply tr_none|].
    simpl. apply tr_acquire; [exact Hg|]. now apply Nat.eqb_neq.
  - simpl. destruct (Fetch fetcher (domain s)) as [[r|] fetcher'];
      [destruct (Parse r)|]; simpl.
    + now apply (tr_parsed s i page (page, domain s)).
    + now apply (tr_fail s i page (page, domain s)).
    + now apply (tr_fail s i page (page, domain s)).
  - simpl. now apply (tr_return s i page).
  - simpl. now apply visit_transition.
Qed.

Lemma earlier_step_transition {F : Type} `{Fetcher F}
    (Parse : string → option Node) i (c : F * state) :
  transition c.2 (Earlier.step Parse i c).2.
Proof.
  destruct c as [network s]. simpl. unfold Earlier.step.
  destruct (goroutines s !! i) as [[page|page|page [|node todo]|]|] eqn:Hg;
    try apply tr_none.
  - destruct (sem s =? 0) eqn:Hsem; [apply tr_none|].
    simpl. apply tr_acquire; [exact Hg|]. now apply Nat.eqb_neq.
  - destruct (heap s !! page) as [p|]; [|apply tr_none].
    simpl. destruct (Fetch network (URL p)) as [[r|] network'];
      [destruct (Parse r)|]; simpl.
    + now apply (tr_parsed s i page (page, URL p)).
    + now apply (tr_fail s i page (page, URL p)).
    + now apply (tr_fail s i page (page, URL p)).
  - simpl. now apply (tr_return s i page).
  - simpl. now apply visit_transition.
Qed.

(** What every transition keeps holds all along a crawl, in either
    revision. *)
Lemma run_keeps {F : Type} `{Fetcher F} (Parse : string → option Node)
    (P : state → Prop) :
  (∀ s s', transition s s' → P s → P s') →
  ∀ sched (c : F * state), P c.2 → P (run Parse sched c).2.
Proof.
  intros Hkeep. induction sched as [|i sched IH]; intros c Hc; [exact Hc|].
  rewrite run_cons. apply IH. eapply Hkeep; [apply step_transition|exact Hc].
Qed.

Lemma earlier_run_keeps {F : Type} `{Fetcher F} (Parse : string → option Node)
    (P : state → Prop) :
  (∀ s s', transition s s' → P s → P s') →
  ∀ sched (c : F * state), P c.2 → P (Earlier.run Parse sched c).2.
Proof.
  intros Hkeep. induction sched as [|i sched IH]; intros c Hc; [exact Hc|].
  change (Earlier.run Parse (i :: sched) c)
    with (Earlier.run Parse sched (Earlier.step Parse i c)).
  apply IH. eapply Hkeep; [apply earlier_step_transition|exact Hc].
Qed.

(** ** The counters: wg and sem *)

Lemma countIf_app f gs1 gs2 :
  countIf f (gs1 ++ gs2) = countIf f gs1 + countIf f gs2.
Proof. unfold countIf. now rewrite List.filter_app, length_app. Qed.

Lemma countIf_insert f (gs : list goroutine) i g g' :
  gs !! i = Some g →
  countIf f (<[i := g']> gs) + Nat.b2n (f g) = countIf f gs + Nat.b2n (f g').
Proof.
  intros Hg.
  rewrite insert_take_drop by (eapply lookup_lt_Some, Hg).
  rewrite <- (take_drop_middle gs i g Hg) at 3.
  rewrite !countIf_app. unfold countIf. simpl.
  destruct (f g), (f g'); simpl; lia.
Qed.

Lemma countIf_zero f gs :
  countIf f gs = 0 ↔ Forall (fun g => f g = false) gs.
Proof.
  unfold countIf. induction gs as [|g gs IH]; simpl.
  - split; [constructor|reflexivity].
  - destruct (f g) eqn:Hg; simpl.
    + split; [discriminate|]. intros Hall. inversion Hall; congruence.
    + rewrite IH. split; [now constructor|]. intros Hall. now inversion Hall.
Qed.

Lemma transition_accounted s s' : transition s s' → accounted s → accounted s'.
Proof.
  intros Htr [Hwg Hsem]. unfold accounted.
  destruct Htr as [s|s i page Hg Hfree|s i page call Hg _|s i page call root Hg _
                   |s i page Hg|s i page node todo vals Hg
                   |s i page node todo u Hg Hnew Hpre]; simpl.
  - auto.
  - pose proof (countIf_insert live _ i _ (Running page) Hg).
    pose proof (countIf_insert holdsSlot _ i _ (Running page) Hg).
    simpl in *. lia.
  - pose proof (countIf_insert live _ i _ Finished Hg).
    pose proof (countIf_insert holdsSlot _ i _ Finished Hg).
    simpl in *. lia.
  - pose proof (countIf_insert live _ i _ (Walking page [root]) Hg).
    pose proof (countIf_insert holdsSlot _ i _ (Walking page [root]) Hg).
    simpl in *. lia.
  - pose proof (countIf_insert live _ i _ Finished Hg).
    pose proof (countIf_insert holdsSlot _ i _ Finished Hg).
    simpl in *. lia.
  - pose proof (countIf_insert live _ i _ (Walking page (Children node ++ todo)) Hg).
    pose proof (countIf_insert holdsSlot _ i _ (Walking page (Children node ++ todo)) Hg).
    simpl in *. lia.
  - assert (Hg' : (goroutines s ++ [Spawned (length (heap s))]) !! i
                  = Some (Walking page (node :: todo)))
      by now apply lookup_app_l_Some.
    pose proof (countIf_insert live _ i _ (Walking page (Children node ++ todo)) Hg').
    pose proof (countIf_insert holdsSlot _ i _ (Walking page (Children node ++ todo)) Hg').
    rewrite !countIf_app in *. unfold countIf in *. simpl in *. lia.
Qed.

Lemma Crawl_start_accounted url : accounted (Crawl_start url).
Proof. split; reflexivity. Qed.

(** X2: at every moment of a crawl the free slots of [sem] and the
    goroutines between [<-sem] and the deferred [sem <- 1] add up to
    [maxOutstanding]; so at most 256 tasks fetch or parse at a time, and
    when [Crawl] returns every slot is free again. *)
Theorem sem_bounds_the_running_tasks
    {F : Type} `{Fetcher F} (fetcher : F) (Parse : string → option Node)
    (url : string) (sched : list nat) :
  let s := (run Parse sched (fetcher, Crawl_start url)).2 in
  sem s + countIf holdsSlot (goroutines s) = maxOutstanding
  ∧ countIf holdsSlot (goroutines s) ≤ 256
  ∧ (wg s = 0 → sem s = maxOutstanding).
Proof.
  intros s.
  assert (Hacc : accounted s).
  { apply (run_keeps Parse accounted transition_accounted).
    apply Crawl_start_accounted. }
  destruct Hacc as [Hwg Hsem].
  split; [exact Hsem|split].
  - change 256 with maxOutstanding. lia.
  - intros Hzero. rewrite Hwg in Hzero. apply countIf_zero in Hzero.
    assert (Hnone : countIf holdsSlot (goroutines s) = 0).
    { apply countIf_zero. eapply Forall_impl; [exact Hzero|].
      intros [| | |]; simpl; congruence. }
    lia.
Qed.

(** ** The registry and the pages *)

Lemma grows_refl p : grows p p.
Proof. repeat split; auto. Qed.

Lemma grows_trans p1 p2 p3 : grows p1 p2 → grows p2 p3 → grows p1 p3.
Proof.
  intros (Hu & Hf & Hl & Ha) (Hu' & Hf' & Hl' & Ha').
  repeat split; [congruence|auto|now transitivity (Links p2)
                |now transitivity (StaticAssets p2)].
Qed.

Lemma alter_grows (f : Page → Page) i (h : list Page) a p :
  (∀ q, grows q (f q)) → h !! a = Some p →
  ∃ p', alter f i h !! a = Some p' ∧ grows p p'.
Proof.
  intros Hf Ha. destruct (decide (i = a)) as [->|Hne].
  - rewrite list_lookup_alter_eq, Ha. simpl. eauto.
  - rewrite list_lookup_alter_ne by exact Hne. eauto using grows_refl.
Qed.

Lemma alter_URL (f : Page → Page) i (h : list Page) a :
  (∀ q, URL (f q) = URL q) → URL <$> alter f i h !! a = URL <$> h !! a.
Proof.
  intros Hf. destruct (decide (i = a)) as [->|Hne].
  - rewrite list_lookup_alter_eq. destruct (h !! a); simpl; [|reflexivity].
    now rewrite Hf.
  - now rewrite list_lookup_alter_ne.
Qed.

(** A transition keeps the pages there are, each as it was or grown, and
    the registrations there are. *)
Lemma transition_grows s s' :
  transition s s' →
  (∀ a p, heap s !! a = Some p → ∃ p', heap s' !! a = Some p' ∧ grows p p')
  ∧ (∀ u a, visitedPages s !! u = Some a → visitedPages s' !! u = Some a)
  ∧ domain s' = domain s.
Proof.
  intros Htr.
  assert (Hfail : ∀ q, grows q (mkPage (URL q) true (Links q) (StaticAssets q)))
    by (intros q; repeat split; auto).
  assert (Hassets : ∀ vals q,
            grows q (mkPage (URL q) (Fail q) (Links q) (StaticAssets q ++ vals)))
    by (intros vals q; repeat split; auto; now apply prefix_app_r).
  assert (Hlink : ∀ link q,
            grows q (mkPage (URL q) (Fail q) (Links q ++ [link]) (StaticAssets q)))
    by (intros link q; repeat split; auto; now apply prefix_app_r).
  destruct Htr as [s|s i page Hg Hfree|s i page call Hg _|s i page call root Hg _
                   |s i page Hg|s i page node todo vals Hg
                   |s i page node todo u Hg Hnew Hpre]; simpl;
    (split; [|split; [|reflexivity]]); eauto using grows_refl.
  - intros a p Ha. now apply alter_grows.
  - intros a p Ha. now apply alter_grows.
  - intros a p Ha. apply alter_grows; [apply Hlink|].
    now apply lookup_app_l_Some.
  - intros u' a Hu'. rewrite lookup_insert_ne; [exact Hu'|]. congruence.
Qed.

Lemma transition_registryAgrees s s' :
  transition s s' → registryAgrees s → registryAgrees s'.
Proof.
  intros Htr Hagree.
  destruct Htr as [s|s i page Hg Hfree|s i page call Hg _|s i page call root Hg _
                   |s i page Hg|s i page node todo vals Hg
                   |s i page node todo u Hg Hnew Hpre];
    intros u' a; simpl; rewrite ?alter_URL by reflexivity; try apply Hagree.
  destruct (decide (a < length (heap s))) as [Hlt|Hge].
  - rewrite lookup_app_l by exact Hlt.
    destruct (decide (u = u')) as [<-|Hne].
    + rewrite lookup_insert_eq. split.
      * intros [= <-]. lia.
      * intros Hu. apply Hagree in Hu. congruence.
    + rewrite lookup_insert_ne by exact Hne. apply Hagree.
  - rewrite lookup_app_r by lia.
    destruct (a - length (heap s)) as [|k] eqn:Hk; simpl.
    + assert (a = length (heap s)) by lia. subst a.
      destruct (decide (u = u')) as [<-|Hne].
      * rewrite lookup_insert_eq. split; reflexivity.
      * rewrite lookup_insert_ne by exact Hne. split; [|congruence].
        intros Hu. apply Hagree in Hu.
        destruct (heap s !! length (heap s)) eqn:Hl; [|discriminate].
        apply lookup_lt_Some in Hl. lia.
    + rewrite ?lookup_nil. simpl. split; [|discriminate].
      destruct (decide (u = u')) as [<-|Hne].
      * rewrite lookup_insert_eq. intros [= <-]. lia.
      * rewrite lookup_insert_ne by exact Hne. intros Hu. apply Hagree in Hu.
        destruct (heap s !! a) eqn:Hl; [|discriminate].
        apply lookup_lt_Some in Hl. lia.
Qed.

Lemma Crawl_start_registryAgrees url : registryAgrees (Crawl_start url).
Proof.
  intros u a. simpl. split.
  - intros Hu. apply lookup_singleton_Some in Hu as [<- <-]. reflexivity.
  - destruct a as [|a]; simpl; [|discriminate].
    intros [= <-]. apply lookup_singleton_eq.
Qed.

Lemma transition_registry_size s s' :
  transition s s' → size (visitedPages s) = length (heap s) →
  size (visitedPages s') = length (heap s').
Proof.
  intros Htr Hsize.
  destruct Htr as [s|s i page Hg Hfree|s i page call Hg _|s i page call root Hg _
                   |s i page Hg|s i page node todo vals Hg
                   |s i page node todo u Hg Hnew Hpre];
    simpl; rewrite ?length_alter; auto.
  rewrite length_app, map_size_insert_None by exact Hnew. simpl. lia.
Qed.

(** X3: at every moment of a crawl [visitedPages] maps a URL to a page
    exactly when the page has this URL: there is one [Page] for every
    registered URL, two pages never have the same URL, and the map has as
    many entries as there are pages. *)
Theorem one_page_for_every_URL
    {F : Type} `{Fetcher F} (fetcher : F) (Parse : string → option Node)
    (url : string) (sched : list nat) :
  let s := (run Parse sched (fetcher, Crawl_start url)).2 in
  (∀ u a, visitedPages s !! u = Some a ↔ URL <$> heap s !! a = Some u)
  ∧ (∀ a b p q, heap s !! a = Some p → heap s !! b = Some q →
                URL p = URL q → a = b)
  ∧ size (visitedPages s) = length (heap s).
Proof.
  intros s.
  assert (Hagree : registryAgrees s).
  { apply (run_keeps Parse registryAgrees transition_registryAgrees).
    apply Crawl_start_registryAgrees. }
  split; [exact Hagree|split].
  - intros a b p q Ha Hb Heq.
    assert (Hua : visitedPages s !! URL p = Some a)
      by (apply Hagree; now rewrite Ha).
    assert (Hub : visitedPages s !! URL p = Some b)
      by (apply Hagree; rewrite Hb; simpl; congruence).
    congruence.
  - apply (run_keeps Parse (fun s => size (visitedPages s) = length (heap s))
             transition_registry_size).
    simpl. apply map_size_singleton.
Qed.

Lemma HasPrefix_refl s : HasPrefix s s = true.
Proof.
  unfold HasPrefix. induction s as [|ch s IH]; simpl; [reflexivity|].
  destruct (ascii_dec ch ch); [exact IH|contradiction].
Qed.

(** The URL of a page after a transition is the one it had, or the page is
    new and its URL is a URL of the domain that was not registered. *)
Lemma transition_URLs s s' a :
  transition s s' →
  URL <$> heap s' !! a = URL <$> heap s !! a
  ∨ (∃ u, URL <$> heap s' !! a = Some u ∧ heap s !! a = None
          ∧ HasPrefix u (domain s) = true).
Proof.
  intros Htr.
  destruct Htr as [s|s i page Hg Hfree|s i page call Hg _|s i page call root Hg _
                   |s i page Hg|s i page node todo vals Hg
                   |s i page node todo u Hg Hnew Hpre];
    simpl; rewrite ?alter_URL by reflexivity; auto.
  destruct (decide (a < length (heap s))) as [Hlt|Hge].
  - left. now rewrite lookup_app_l.
  - rewrite lookup_app_r by lia.
    destruct (a - length (heap s)) as [|k] eqn:Hk; simpl.
    + right. exists u. repeat split; auto. apply lookup_ge_None. lia.
    + left. rewrite ?lookup_nil. simpl.
      now rewrite (proj2 (lookup_ge_None (heap s) a)) by lia.
Qed.

(** X4: at every moment of a crawl of [url], the URL of every page, hence
    every registered URL, starts with [url]: [parseHTML] registers no URL
    outside the domain. *)
Theorem every_page_is_in_the_domain
    {F : Type} `{Fetcher F} (fetcher : F) (Parse : string → option Node)
    (url : string) (sched : list nat) :
  let s := (run Parse sched (fetcher, Crawl_start url)).2 in
  domain s = url
  ∧ Forall (fun p => HasPrefix (URL p) url = true) (heap s)
  ∧ (∀ u a, visitedPages s !! u = Some a → HasPrefix u url = true).
Proof.
  intros s.
  assert (Hinv : domain s = url
                 ∧ ∀ a u, URL <$> heap s !! a = Some u → HasPrefix u url = true).
  { apply (run_keeps Parse
             (fun s => domain s = url
                       ∧ ∀ a u, URL <$> heap s !! a = Some u
                                → HasPrefix u url = true)).
    - intros s0 s1 Htr [Hdom Hall]. split.
      + destruct (transition_grows s0 s1 Htr) as (_ & _ & ->). exact Hdom.
      + intros a u Hu.
        destruct (transition_URLs s0 s1 a Htr) as [Heq|(u' & Hu' & _ & Hpre)].
        * rewrite Heq in Hu. eauto.
        * rewrite Hu' in Hu. injection Hu as <-. now rewrite <- Hdom.
    - split; [reflexivity|]. intros [|a] u; simpl; [|discriminate].
      intros [= <-]. apply HasPrefix_refl. }
  destruct Hinv as [Hdom Hall]. split; [exact Hdom|split].
  - apply Forall_forall. intros p Hp.
    apply list_elem_of_lookup in Hp as [a Ha]. apply (Hall a). now rewrite Ha.
  - intros u a Hu. apply (Hall a).
    assert (Hagree : registryAgrees s).
    { apply (run_keeps Parse registryAgrees transition_registryAgrees).
      apply Crawl_start_registryAgrees. }
    now apply Hagree.
Qed.

(** X5: whatever the state and the steps taken, a page that exists stays,
    with its URL; its [Fail] flag, once set, stays set; its links and its
    assets are only ever appended to; and a registered URL stays registered
    to the same page. *)
Theorem pages_and_registrations_only_grow
    {F : Type} `{Fetcher F} (Parse : string → option Node)
    (c : F * state) (sched : list nat) :
  (∀ a p, heap c.2 !! a = Some p →
     ∃ p', heap (run Parse sched c).2 !! a = Some p'
           ∧ URL p' = URL p ∧ (Fail p = true → Fail p' = true)
           ∧ Links p `prefix_of` Links p'
           ∧ StaticAssets p `prefix_of` StaticAssets p')
  ∧ (∀ u a, visitedPages c.2 !! u = Some a →
            visitedPages (run Parse sched c).2 !! u = Some a).
Proof.
  apply (run_keeps Parse
           (fun s' =>
              (∀ a p, heap c.2 !! a = Some p →
                 ∃ p', heap s' !! a = Some p' ∧ grows p p')
              ∧ (∀ u a, visitedPages c.2 !! u = Some a →
                        visitedPages s' !! u = Some a))).
  - intros s0 s1 Htr [Hpages Hreg].
    destruct (transition_grows s0 s1 Htr) as (Hp & Hr & _). split.
    + intros a p Ha. destruct (Hpages a p Ha) as (p0 & Hp0 & Hg0).
      destruct (Hp a p0 Hp0) as (p1 & Hp1 & Hg1).
      exists p1. split; [exact Hp1|]. eapply grows_trans; eauto.
    + intros u a Hu. auto.
  - split; [|auto]. intros a p Ha. exists p. split; [exact Ha|apply grows_refl].
Qed.

(** ** One goroutine and one fetch for every page *)

Lemma ownPage_replace (gs : list goroutine) i g g' :
  (∀ k h, gs !! k = Some h → pageOf h = Some k ∨ h = Finished) →
  gs !! i = Some g → pageOf g' = pageOf g ∨ g' = Finished →
  ∀ k h, <[i := g']> gs !! k = Some h → pageOf h = Some k ∨ h = Finished.
Proof.
  intros Hown Hg Hpage k h Hk.
  apply list_lookup_insert_Some in Hk as [(<- & <- & _)|[_ Hk]]; [|eauto].
  destruct Hpage as [Hpage|Hfin]; [|now right].
  destruct (Hown i g Hg) as [Hi| ->]; [left; congruence|].
  right. destruct g'; simpl in Hpage; congruence.
Qed.

Lemma transition_ownPage s s' : transition s s' → ownPage s → ownPage s'.
Proof.
  intros Htr [Hlen Hown]. unfold ownPage.
  destruct Htr as [s|s i page Hg Hfree|s i page call Hg _|s i page call root Hg _
                   |s i page Hg|s i page node todo vals Hg
                   |s i page node todo u Hg Hnew Hpre];
    simpl; rewrite ?length_insert, ?length_alter, ?length_app; simpl;
    (split; [lia|]); auto;
    try (eapply ownPage_replace; eauto; fail).
  apply (ownPage_replace _ i (Walking page (node :: todo)));
    [|now apply lookup_app_l_Some|auto].
  intros k h Hk. apply lookup_app_Some in Hk as [Hk|[Hge Hk]]; [eauto|].
  destruct (k - length (goroutines s)) as [|n] eqn:E; simpl in Hk;
    [|now rewrite lookup_nil in Hk].
  injection Hk as <-. left. simpl. f_equal. lia.
Qed.

Lemma Crawl_start_ownPage url : ownPage (Crawl_start url).
Proof.
  split; [reflexivity|]. intros [|i] g; simpl; [|discriminate].
  intros [= <-]. now left.
Qed.

(** The page of the goroutine that makes a transition is the page of its
    index. *)
Lemma ownPage_page s i g page :
  ownPage s → goroutines s !! i = Some g → pageOf g = Some page → page = i.
Proof.
  intros [_ Hown] Hg Hpage. destruct (Hown i g Hg) as [Hi| ->]; simpl in *; congruence.
Qed.

Lemma fetchedOnce_insert (gs : list goroutine) i g g' a :
  gs !! i = Some g → pastFetch g' = pastFetch g →
  (∃ h, <[i := g']> gs !! a = Some h ∧ pastFetch h = true)
  ↔ (∃ h, gs !! a = Some h ∧ pastFetch h = true).
Proof.
  intros Hg Hsame. pose proof (lookup_lt_Some _ _ _ Hg) as Hi.
  destruct (decide (i = a)) as [->|Hne].
  - rewrite list_lookup_insert_eq by exact Hi. split.
    + intros (h & [= <-] & Hp). exists g. split; [exact Hg|congruence].
    + intros (h & Hh & Hp). exists g'. split; [reflexivity|congruence].
  - now rewrite list_lookup_insert_ne.
Qed.

Lemma fetchedOnce_fetch (gs : list goroutine) i g g' a :
  gs !! i = Some g → pastFetch g = false → pastFetch g' = true →
  (∃ h, <[i := g']> gs !! a = Some h ∧ pastFetch h = true)
  ↔ a = i ∨ (∃ h, gs !! a = Some h ∧ pastFetch h = true).
Proof.
  intros Hg Hbefore Hafter. pose proof (lookup_lt_Some _ _ _ Hg) as Hi.
  destruct (decide (i = a)) as [->|Hne].
  - rewrite list_lookup_insert_eq by exact Hi. split; [auto|].
    intros _. eauto.
  - rewrite list_lookup_insert_ne by exact Hne. split; [auto|].
    intros [->|Hh]; [contradiction|exact Hh].
Qed.

Lemma transition_fetchedOnce s s' :
  transition s s' → ownPage s → fetchedOnce s → fetchedOnce s'.
Proof.
  intros Htr Hown [Hnodup Hlog]. unfold fetchedOnce.
  destruct Htr as [s|s i page Hg Hfree|s i page call Hg Hcall
                   |s i page call root Hg Hcall
                   |s i page Hg|s i page node todo vals Hg
                   |s i page node todo u Hg Hnew Hpre]; simpl.
  - auto.
  - split; [exact Hnodup|]. intros a.
    now rewrite (fetchedOnce_insert _ i _ (Running page) a Hg eq_refl).
  - assert (Hpage : page = i) by (eapply ownPage_page; eauto).
    rewrite Hpage in Hcall, Hg. rewrite ?Hpage. clear Hpage.
    rewrite fmap_app. simpl. rewrite Hcall.
    assert (Hnew : i ∉ (fetched s).*1).
    { intros Hin. apply Hlog in Hin as (h & Hh & Hp).
      rewrite Hg in Hh. injection Hh as <-. discriminate. }
    split.
    + apply NoDup_app. repeat split; auto.
      * intros x Hx Hx'. apply list_elem_of_singleton in Hx'. now subst.
      * apply NoDup_singleton.
    + intros a.
      rewrite (fetchedOnce_fetch _ i _ Finished a Hg eq_refl eq_refl).
      rewrite elem_of_app, list_elem_of_singleton, Hlog. tauto.
  - assert (Hpage : page = i) by (eapply ownPage_page; eauto).
    rewrite Hpage in Hcall, Hg. rewrite ?Hpage. clear Hpage.
    rewrite fmap_app. simpl. rewrite Hcall.
    assert (Hnew : i ∉ (fetched s).*1).
    { intros Hin. apply Hlog in Hin as (h & Hh & Hp).
      rewrite Hg in Hh. injection Hh as <-. discriminate. }
    split.
    + apply NoDup_app. repeat split; auto.
      * intros x Hx Hx'. apply list_elem_of_singleton in Hx'. now subst.
      * apply NoDup_singleton.
    + intros a.
      rewrite (fetchedOnce_fetch _ i _ (Walking i [root]) a Hg eq_refl eq_refl).
      rewrite elem_of_app, list_elem_of_singleton, Hlog. tauto.
  - split; [exact Hnodup|]. intros a.
    now rewrite (fetchedOnce_insert _ i _ Finished a Hg eq_refl).
  - split; [exact Hnodup|]. intros a.
    now rewrite (fetchedOnce_insert _ i _ (Walking page (Children node ++ todo))
                   a Hg eq_refl).
  - split; [exact Hnodup|]. intros a.
    rewrite (fetchedOnce_insert _ i (Walking page (node :: todo))
               (Walking page (Children node ++ todo)) a
               (lookup_app_l_Some _ _ _ _ Hg) eq_refl).
    rewrite Hlog. split; intros (h & Hh & Hp).
    + exists h. split; [now apply lookup_app_l_Some|exact Hp].
    + apply lookup_app_Some in Hh as [Hh|[Hge Hh]]; [eauto|].
      destruct (a - length (goroutines s)) as [|n]; simpl in Hh;
        [|now rewrite lookup_nil in Hh].
      injection Hh as <-. discriminate.
Qed.

Lemma Crawl_start_fetchedOnce url : fetchedOnce (Crawl_start url).
Proof.
  split; [constructor|]. intros a. simpl. split.
  - intros Hin. now apply elem_of_nil in Hin.
  - intros (g & Hg & Hp). destruct a as [|a]; simpl in Hg; [|discriminate].
    injection Hg as <-. discriminate.
Qed.

Lemma NoDup_below_length (l : list nat) n :
  NoDup l → (∀ a, a ∈ l ↔ a < n) → length l = n.
Proof.
  intros Hnodup Hall.
  assert (Hperm : l ≡ₚ seq 0 n).
  { apply NoDup_Permutation; [exact Hnodup|apply NoDup_seq|].
    intros a. rewrite Hall, elem_of_seq. lia. }
  now rewrite Hperm, length_seq.
Qed.

(** X6: in a crawl no page is fetched twice: the log of the calls of
    [Fetch] names a page once if its goroutine has called [Fetch], and not
    at all otherwise; when [Crawl] returns, [Fetch] has been called exactly
    once for every page created. *)
Theorem every_page_is_fetched_once
    {F : Type} `{Fetcher F} (fetcher : F) (Parse : string → option Node)
    (url : string) (sched : list nat) :
  let s := (run Parse sched (fetcher, Crawl_start url)).2 in
  NoDup (fetched s).*1
  ∧ (∀ a, a ∈ (fetched s).*1
          ↔ ∃ g, goroutines s !! a = Some g ∧ pastFetch g = true)
  ∧ (wg s = 0 → length (fetched s) = length (heap s)).
Proof.
  intros s.
  assert (Hinv : ownPage s ∧ fetchedOnce s ∧ accounted s).
  { apply (run_keeps Parse (fun s => ownPage s ∧ fetchedOnce s ∧ accounted s)).
    - intros s0 s1 Htr (Hown & Honce & Hacc).
      split; [|split];
        eauto using transition_ownPage, transition_fetchedOnce, transition_accounted.
    - simpl. split; [|split];
        auto using Crawl_start_ownPage, Crawl_start_fetchedOnce, Crawl_start_accounted. }
  destruct Hinv as ([Hlen Hown] & [Hnodup Hlog] & [Hwg _]).
  split; [exact Hnodup|split; [exact Hlog|]].
  intros Hzero. rewrite Hwg in Hzero. apply countIf_zero in Hzero.
  rewrite <- (length_fmap fst (fetched s)).
  apply NoDup_below_length; [exact Hnodup|].
  intros a. rewrite Hlog, <- Hlen. split.
  - intros (g & Hg & _). eapply lookup_lt_Some, Hg.
  - intros Hlt. apply lookup_lt_is_Some in Hlt as [g Hg]. exists g.
    split; [exact Hg|]. rewrite Forall_forall in Hzero.
    assert (live g = false) by (apply Hzero; eapply list_elem_of_lookup_2, Hg).
    destruct g; simpl in *; congruence.
Qed.

(** ** The Fail flag *)

Lemma alter_Fail (f : Page → Page) i (h : list Page) a :
  (∀ q, Fail (f q) = Fail q) → Fail <$> alter f i h !! a = Fail <$> h !! a.
Proof.
  intros Hf. destruct (decide (i = a)) as [->|Hne].
  - rewrite list_lookup_alter_eq. destruct (h !! a); simpl; [|reflexivity].
    now rewrite Hf.
  - now rewrite list_lookup_alter_ne.
Qed.

Lemma insert_keeps (Q : goroutine → Prop) (gs : list goroutine) i g' :
  (∀ k g, gs !! k = Some g → Q g) → Q g' →
  ∀ k g, <[i := g']> gs !! k = Some g → Q g.
Proof.
  intros Hall Hg' k g Hk.
  apply list_lookup_insert_Some in Hk as [(_ & <- & _)|[_ Hk]]; eauto.
Qed.

(** When the fetch for a page is behind, a transition leaves its [Fail]
    flag unset. *)
Lemma transition_unfailed a s s' :
  transition s s' →
  fetchDone s a ∧ Fail <$> heap s !! a = Some false →
  fetchDone s' a ∧ Fail <$> heap s' !! a = Some false.
Proof.
  intros Htr [Hdone Hfail]. unfold fetchDone in *.
  destruct Htr as [s|s i page Hg Hfree|s i page call Hg _|s i page call root Hg _
                   |s i page Hg|s i page node todo vals Hg
                   |s i page node todo u Hg Hnew Hpre]; simpl.
  - auto.
  - split; [|exact Hfail]. apply insert_keeps; [exact Hdone|].
    destruct (Hdone i _ Hg) as [Hne _]. split; congruence.
  - destruct (Hdone i _ Hg) as [_ Hne]. split.
    + apply insert_keeps; [exact Hdone|]. split; discriminate.
    + rewrite list_lookup_alter_ne; [exact Hfail|]. congruence.
  - split; [|exact Hfail]. apply insert_keeps; [exact Hdone|].
    split; discriminate.
  - split; [|exact Hfail]. apply insert_keeps; [exact Hdone|].
    split; discriminate.
  - split; [|now rewrite alter_Fail]. apply insert_keeps; [exact Hdone|].
    split; discriminate.
  - assert (Ha : a < length (heap s)).
    { destruct (heap s !! a) eqn:E; [|discriminate].
      eapply lookup_lt_Some, E. }
    split.
    + apply insert_keeps; [|split; discriminate].
      intros k g Hk. apply lookup_app_Some in Hk as [Hk|[_ Hk]]; [eauto|].
      destruct (k - length (goroutines s)); simpl in Hk;
        [|now rewrite lookup_nil in Hk].
      injection Hk as <-. split; [|discriminate]. intros [= Heq]. lia.
    + rewrite alter_Fail by reflexivity. now rewrite lookup_app_l.
Qed.

Lemma run_unfailed {F : Type} `{Fetcher F} (Parse : string → option Node)
    (c : F * state) (a : addr) (sched : list nat) :
  fetchDone c.2 a → Fail <$> heap c.2 !! a = Some false →
  Fail <$> heap (run Parse sched c).2 !! a = Some false.
Proof.
  intros Hdone Hfail.
  apply (run_keeps Parse
           (fun s => fetchDone s a ∧ Fail <$> heap s !! a = Some false)
           (fun s s' => transition_unfailed a s s') sched c).
  now split.
Qed.



Section SeedFetch.
Context {F : Type} `{Fetcher F} (fetcher : F).
Variable Parse : string → option Node.
Variable url : string.

Lemma run_seed_waiting sched :
  (run Parse sched (fetcher, seedRunning url)).2 = seedRunning url
  ∨ ∃ rest, run Parse sched (fetcher, seedRunning url)
            = run Parse rest (step Parse 0 (fetcher, seedRunning url)).
Proof.
  induction sched as [|i sched IH]; [now left|].
  rewrite run_cons. destruct i as [|i]; [right; now exists sched|].
  exact IH.
Qed.

(** Up to the first call of [Fetch], which is the one of the seed task,
    a crawl is in one of two states. *)
Lemma run_until_seed_fetch sched :
  (run Parse sched (fetcher, Crawl_start url)).2 = Crawl_start url
  ∨ (run Parse sched (fetcher, Crawl_start url)).2 = seedRunning url
  ∨ ∃ rest, run Parse sched (fetcher, Crawl_start url)
            = run Parse rest (step Parse 0 (fetcher, seedRunning url)).
Proof.
  induction sched as [|i sched IH]; [now left|].
  rewrite run_cons. destruct i as [|i]; [|exact IH].
  right. apply run_seed_waiting.
Qed.

Lemma run_seed_URL sched (c : F * state) :
  URL <$> heap c.2 !! 0 = Some url →
  URL <$> heap (run Parse sched c).2 !! 0 = Some url.
Proof.
  apply (run_keeps Parse (fun s => URL <$> heap s !! 0 = Some url)).
  intros s s' Htr Hs.
  destruct (transition_URLs s s' 0 Htr) as [->|(u & _ & Hnone & _)];
    [exact Hs|].
  rewrite Hnone in Hs. discriminate.
Qed.
End SeedFetch.

(** X8: the page [Crawl] returns is the page of the seed URL, and its
    [Fail] flag is set exactly when the first call of [Fetch], which asks
    for the seed URL, fails or returns a content that [html.Parse]
    rejects. *)
Theorem seed_fails_iff_its_fetch_or_parse_fails
    {F : Type} `{Fetcher F} (fetcher : F) (Parse : string → option Node)
    (sched : list nat) (url : string) (s : state) (p : Page) :
  Crawl Parse fetcher sched url = Some (s, p) →
  URL p = url
  ∧ (Fail p = true ↔ (Fetch fetcher url).1 ≫= Parse = None).
Proof.
  unfold Crawl.
  destruct (run_until_seed_fetch fetcher Parse url sched)
    as [->|[->|[rest ->]]]; [simpl; discriminate|simpl; discriminate|].
  assert (Hstep : ∃ c, step Parse 0 (fetcher, seedRunning url) = c
            ∧ URL <$> heap c.2 !! 0 = Some url
            ∧ (((Fetch fetcher url).1 ≫= Parse = None
                ∧ c.2 = seedFailed url)
               ∨ ((Fetch fetcher url).1 ≫= Parse ≠ None
                  ∧ fetchDone c.2 0
                  ∧ Fail <$> heap c.2 !! 0 = Some false))).
  { eexists. split; [reflexivity|]. unfold step. simpl.
    destruct (Fetch fetcher url) as [[body|] fetcher']; simpl;
      [destruct (Parse body) as [root|]|]; simpl;
      (split; [reflexivity|]); auto.
    right. split; [discriminate|]. split; [|reflexivity].
    intros [|i] g Hg; simpl in Hg; [|discriminate].
    injection Hg as <-. split; discriminate. }
  destruct Hstep as (c & -> & Hurl & Hcase).
  pose proof (run_seed_URL Parse url rest c Hurl) as Hurl'.
  destruct (wg (run Parse rest c).2 =? 0); [|discriminate].
  destruct (heap (run Parse rest c).2 !! 0) as [p0|] eqn:Hp0; [|discriminate].
  simpl. intros [= <- <-]. simpl in Hurl'. injection Hurl' as Hurl'.
  split; [exact Hurl'|].
  destruct Hcase as [[Hnone Hc]|(Hsome & Hdone & Hfail)].
  - destruct c as [fetcher' s1]. simpl in Hc. subst s1.
    rewrite run_seed_failed in Hp0. simpl in Hp0. injection Hp0 as <-.
    simpl. tauto.
  - pose proof (run_unfailed Parse c 0 rest Hdone Hfail) as Hkeep.
    rewrite Hp0 in Hkeep. simpl in Hkeep. injection Hkeep as ->.
    split; [discriminate|contradiction].
Qed.

Lemma seed_fails_iff_its_fetch_or_parse_fails_witness :
  ∃ p, URL p = "example.com"
       ∧ (Fail p = true
          ↔ (Fetch testFetcher "example.com").1 ≫= testParse = None).
Proof.
  eexists.
  eapply (seed_fails_iff_its_fetch_or_parse_fails testFetcher testParse
            (repeat 0 12 ++ repeat 1 12) "example.com").
  vm_compute. reflexivity.
Defined.

(** ** The links of all pages *)

Lemma flat_map_Links_alter (f : Page → Page) a (h : list Page) :
  (∀ p, Links (f p) = Links p) →
  flat_map Links (alter f a h) = flat_map Links h.
Proof.
  intros Hf. revert a. induction h as [|p h IH]; intros [|a]; simpl; auto.
  - now rewrite Hf.
  - f_equal. apply IH.
Qed.

Lemma flat_map_Links_append (link : Link.t) a (h : list Page) :
  a < length h →
  flat_map Links
    (alter (fun p => mkPage (URL p) (Fail p) (Links p ++ [link]) (StaticAssets p))
       a h)
  ≡ₚ flat_map Links h ++ [link].
Proof.
  revert a. induction h as [|p h IH]; intros [|a] Ha; simpl in *; try lia.
  - rewrite <- !app_assoc. apply Permutation_app_head, Permutation_app_comm.
  - rewrite <- app_assoc. apply Permutation_app_head, IH. lia.
Qed.

(** ** The result of a crawl can be printed *)

Lemma linksForward_renders h :
  linksForward h →
  ∀ fuel a p, h !! a = Some p → length h - a ≤ fuel →
              is_Some (PageString h fuel p).
Proof.
  intros Hfw. induction fuel as [|fuel IH]; intros a p Ha Hle.
  - apply lookup_lt_Some in Ha. lia.
  - rewrite PageString_unfold.
    assert (Hall : Forall (fun link => is_Some (linkPage h fuel link)) (Links p)).
    { apply Forall_forall. intros link Hin.
      destruct (Hfw a p link Ha Hin) as (b & Hb & Hlt & Hc).
      destruct (lookup_lt_is_Some_2 h b ltac:(lia)) as [q Hq].
      destruct (IH b q Hq ltac:(lia)) as [str Hstr].
      unfold linkPage. rewrite Hb. simpl. rewrite Hq. simpl.
      rewrite Hc, Hstr. simpl. eauto. }
    destruct (links_loop_Some h fuel (Links p) "" Hall) as [ls Hls].
    rewrite Hls. simpl. eauto.
Qed.

(** X10: [String] returns on the page [Crawl] returns, and its calls of
    itself nest no deeper than the crawl has pages. *)
Theorem String_returns_on_the_result_of_Crawl
    {F : Type} `{Fetcher F} (fetcher : F) (Parse : string → option Node)
    (sched : list nat) (url : string) (s : state) (p : Page) :
  Crawl Parse fetcher sched url = Some (s, p) →
  is_Some (PageString (heap s) (length (heap s)) p).
Proof.
  unfold Crawl.
  destruct (wg _ =? 0); [|discriminate].
  destruct (heap (run Parse sched (fetcher, Crawl_start url)).2 !! 0)
    as [p0|] eqn:Hp0; [|discriminate].
  simpl. intros [= <- <-].
  apply (linksForward_renders _
           (reachable_linksForward Parse fetcher url _
              (ex_intro _ sched eq_refl)) _ 0); [exact Hp0|lia].
Qed.

Lemma String_returns_on_the_result_of_Crawl_witness :
  ∃ s p, Crawl testParse testFetcher (repeat 0 12 ++ repeat 1 12) "example.com"
         = Some (s, p)
         ∧ is_Some (PageString (heap s) (length (heap s)) p).
Proof.
  eexists _, _. split; [vm_compute; reflexivity|].
  apply (String_returns_on_the_result_of_Crawl testFetcher testParse
           (repeat 0 12 ++ repeat 1 12) "example.com").
  vm_compute. reflexivity.
Defined.

(** ** Page.String, line by line *)

Lemma nonEmpty_false s : nonEmpty s = false → s = "".
Proof. destruct s; [reflexivity|discriminate]. Qed.

Lemma nonEmpty_append_r a b : nonEmpty b = true → nonEmpty (a +:+ b) = true.
Proof.
  unfold nonEmpty. rewrite !Nat.ltb_lt, length_append_string. lia.
Qed.

(** The loops of [String] put a newline before every line but the first,
    which makes them a join of the lines, none of which is empty. *)
Lemma join_loop (items : list string) :
  Forall (fun item => nonEmpty item = true) items →
  ∀ acc,
    fold_left
      (fun acc item => (if nonEmpty acc then acc +:+ nl else acc) +:+ item)
      items acc
    = if nonEmpty acc
      then match items with
           | [] => acc
           | _ => acc +:+ nl +:+ String.concat nl items
           end
      else String.concat nl items.
Proof.
  induction 1 as [|item items Hitem _ IH]; intros acc.
  - simpl. destruct (nonEmpty acc) eqn:Hacc; [reflexivity|].
    now apply nonEmpty_false.
  - cbn [fold_left]. rewrite IH.
    rewrite (nonEmpty_append_r _ item Hitem).
    destruct (nonEmpty acc) eqn:Hacc.
    + destruct items as [|item' items]; cbn [String.concat];
        now rewrite !append_assoc_string.
    + apply nonEmpty_false in Hacc. subst acc.
      destruct items as [|item' items]; reflexivity.
Qed.

Lemma join_loop_map (f : string → string) (items : list string) :
  ∀ acc,
    fold_left
      (fun acc item => (if nonEmpty acc then acc +:+ nl else acc) +:+ f item)
      items acc
    = fold_left
        (fun acc item => (if nonEmpty acc then acc +:+ nl else acc) +:+ item)
        (map f items) acc.
Proof. induction items as [|item items IH]; intros acc; simpl; auto. Qed.

Lemma links_loop_mapM h fuel links :
  ∀ acc,
    fold_left
      (fun acc link =>
         links ← acc;
         linkPage ← linkPage h fuel link;
         Some ((if nonEmpty links then links +:+ nl else links)
               +:+ "  Links in current page: " +:+ linkPage))
      links (Some acc)
    = linkPages ← mapM (linkPage h fuel) links;
      Some (fold_left
              (fun acc item => (if nonEmpty acc then acc +:+ nl else acc) +:+ item)
              (map (String.append "  Links in current page: ") linkPages) acc).
Proof.
  induction links as [|link links IH]; intros acc; [reflexivity|].
  cbn [fold_left mapM]. simpl.
  destruct (linkPage h fuel link) as [lp|]; simpl.
  - rewrite IH. now destruct (mapM (linkPage h fuel) links).
  - apply links_loop_None.
Qed.

(** X11: [String] prints the header of the page, then, when there are any,
    the assets, one line for each, then, when there are any, the links, one
    entry for each (the text of each link as [linkPage] gives it); the lines
    of a block are joined by newlines, and a block is left out when the
    page has no asset, or no link. *)
Theorem String_joins_the_lines_of_each_block (h : list Page) (fuel : nat) (p : Page) :
  PageString h (S fuel) p =
    linkPages ← mapM (linkPage h fuel) (Links p);
    Some (renderPage p
            (String.concat nl
               (map (String.append "  StaticAsset:  ") (StaticAssets p)))
            (String.concat nl
               (map (String.append "  Links in current page: ") linkPages))).
Proof.
  assert (Hjoin : ∀ pre items,
            nonEmpty pre = true →
            fold_left
              (fun acc item => (if nonEmpty acc then acc +:+ nl else acc) +:+ item)
              (map (String.append pre) items) ""
            = String.concat nl (map (String.append pre) items)).
  { intros pre items Hpre. rewrite join_loop; [reflexivity|].
    apply Forall_forall. intros item Hin.
    apply list_elem_of_In, in_map_iff in Hin as (x & <- & _).
    unfold nonEmpty in *. rewrite Nat.ltb_lt in *.
    change (String.append pre x) with (pre +:+ x).
    rewrite length_append_string. lia. }
  rewrite PageString_unfold, links_loop_mapM.
  destruct (mapM (linkPage h fuel) (Links p)) as [lps|]; [|reflexivity].
  simpl. unfold renderAssets.
  rewrite (join_loop_map (String.append "  StaticAsset:  ")).
  now rewrite !Hjoin.
Qed.

(** ** What parseHTML makes of a document *)

Lemma documentURLs_unfold dom node :
  documentURLs dom node
  = option_list (nodeURL dom node) ++ flat_map (documentURLs dom) (Children node).
Proof. destruct node; reflexivity. Qed.

Lemma registerAll_snoc us u :
  ∀ n m, registerAll n (us ++ [u]) m = <[u := n + length us]> (registerAll n us m).
Proof.
  induction us as [|a us IH]; intros n m; simpl.
  - now rewrite Nat.add_0_r.
  - now rewrite IH, Nat.add_succ_r.
Qed.

Lemma registerAll_None us u :
  ∀ n m, registerAll n us m !! u = None ↔ m !! u = None ∧ u ∉ us.
Proof.
  induction us as [|a us IH]; intros n m; simpl.
  - split; [intros Hm; split; [exact Hm|apply not_elem_of_nil]|tauto].
  - rewrite IH, lookup_insert_None, not_elem_of_cons. intuition congruence.
Qed.

Lemma afterDocument_nothing s page : afterDocument s page [] [] = s.
Proof.
  unfold afterDocument. simpl. rewrite !app_nil_r, Nat.add_0_r.
  rewrite list_alter_id; [now destruct s|].
  intros [u f l a]; simpl. now rewrite !app_nil_r.
Qed.

Lemma afterDocument_assets s page us vals more :
  appendAssets page more (afterDocument s page us vals)
  = afterDocument s page us (vals ++ more).
Proof.
  unfold afterDocument, appendAssets, with_heap. simpl. f_equal.
  rewrite list_alter_alter_eq. apply list_alter_ext; [|reflexivity].
  intros p _. simpl. now rewrite app_assoc.
Qed.

Lemma afterDocument_register s page us vals u :
  page < length (heap s) →
  register u page (afterDocument s page us vals)
  = afterDocument s page (us ++ [u]) vals.
Proof.
  intros Hpage.
  unfold afterDocument, register, spawn, appendLink, with_wg, with_heap,
    with_visitedPages, with_goroutines.
  simpl. rewrite length_alter, !length_app, !length_fmap. simpl.
  f_equal.
  - lia.
  - now rewrite registerAll_snoc.
  - rewrite <- alter_app_l by (rewrite length_app; lia).
    rewrite list_alter_alter_eq, fmap_app, app_assoc. simpl.
    apply list_alter_ext; [|reflexivity].
    intros p _. simpl. now rewrite seq_app, fmap_app, <- app_assoc.
  - now rewrite seq_app, fmap_app, <- app_assoc.
Qed.

(** One node: an anchor adds its URL to the URLs found unless it is
    registered or found before; a [link], [img] or [script] element adds
    its assets. *)
Lemma visitNode_afterDocument node page s us vals :
  page < length (heap s) →
  visitNode node page (afterDocument s page us vals)
  = afterDocument s page
      (fold_left (collect (visitedPages s)) (option_list (nodeURL (domain s) node)) us)
      (vals ++ nodeAssets node).
Proof.
  intros Hpage.
  assert (Hsame : afterDocument s page us vals
                  = afterDocument s page us (vals ++ []))
    by now rewrite app_nil_r.
  destruct node as [t d attrs ch]. unfold visitNode, nodeURL, nodeAssets.
  cbn [Type_ Data Attr].
  destruct t; try exact Hsame.
  destruct (String.eqb d "a") eqn:Ea.
  - apply String.eqb_eq in Ea. subst d.
    change (String.eqb "a" "link") with false.
    change (String.eqb "a" "img" || String.eqb "a" "script") with false.
    cbv iota. rewrite anchor_anchorSpec. unfold anchorSpec, resolve.
    change (domain (afterDocument s page us vals)) with (domain s).
    destruct (List.find _ attrs) as [attr|]; [|exact Hsame].
    cbn [mbind option_bind]. cbv zeta.
    match goal with |- context [followLink ?x page _] => set (u := x) end.
    destruct (HasPrefix u (domain s)); [|exact Hsame].
    cbn [option_list option_rect fold_left]. unfold collect.
    destruct (decide (is_Some (visitedPages s !! u) ∨ u ∈ us)) as [Hold|Hnew].
    + rewrite followLink_present; [exact Hsame|].
      change (visitedPages (afterDocument s page us vals))
        with (registerAll (length (heap s)) us (visitedPages s)).
      destruct (registerAll (length (heap s)) us (visitedPages s) !! u) eqn:E;
        [eauto|].
      apply registerAll_None in E as [Hm Hus].
      destruct Hold as [[a Ha]|Hin]; [congruence|contradiction].
    + rewrite followLink_register.
      * rewrite afterDocument_register by exact Hpage. now rewrite app_nil_r.
      * change (visitedPages (afterDocument s page us vals))
          with (registerAll (length (heap s)) us (visitedPages s)).
        apply registerAll_None. split.
        -- destruct (visitedPages s !! u) eqn:E; [|reflexivity].
           exfalso. apply Hnew. left. eauto.
        -- intros Hin. apply Hnew. now right.
  - cbn [option_list option_rect fold_left].
    destruct (String.eqb d "link").
    { now rewrite assets_appendAssets, afterDocument_assets. }
    destruct (String.eqb d "img" || String.eqb d "script").
    { now rewrite assets_appendAssets, afterDocument_assets. }
    exact Hsame.
Qed.

Lemma parseHTML_afterDocument page s :
  page < length (heap s) →
  ∀ node us vals,
    parseHTML node page (afterDocument s page us vals)
    = afterDocument s page
        (fold_left (collect (visitedPages s)) (documentURLs (domain s) node) us)
        (vals ++ documentAssets node).
Proof.
  intros Hpage.
  induction node as [t d attrs ch IH] using Node_induction. intros us vals.
  rewrite parseHTML_unfold, documentURLs_unfold, documentAssets_unfold.
  rewrite visitNode_afterDocument by exact Hpage.
  rewrite fold_left_app, app_assoc. cbn [Children].
  generalize (fold_left (collect (visitedPages s))
                (option_list (nodeURL (domain s) (mkNode t d attrs ch))) us).
  generalize (vals ++ nodeAssets (mkNode t d attrs ch)).
  clear us vals.
  induction IH as [|c ch Hc _ IHch]; intros vals us; simpl.
  - now rewrite app_nil_r.
  - rewrite Hc, IHch, fold_left_app, app_assoc. reflexivity.
Qed.

Lemma collect_spec m urls :
  ∀ found,
    NoDup found → (∀ u, u ∈ found → m !! u = None) →
    NoDup (fold_left (collect m) urls found)
    ∧ ∀ u, u ∈ fold_left (collect m) urls found
           ↔ u ∈ found ∨ (u ∈ urls ∧ m !! u = None).
Proof.
  induction urls as [|x urls IH]; intros found Hnodup Hnew; simpl.
  - split; [exact Hnodup|]. intros u. rewrite elem_of_nil. tauto.
  - unfold collect at 2 4.
    destruct (decide (is_Some (m !! x) ∨ x ∈ found)) as [Hold|Hfresh].
    + destruct (IH found Hnodup Hnew) as [Hnd Hin]. split; [exact Hnd|].
      intros u. rewrite Hin, elem_of_cons. split; [tauto|].
      intros [Hu|[[->|Hu] Hm]]; auto.
      destruct Hold as [[a Ha]|Hx]; [congruence|auto].
    + assert (Hx : m !! x = None).
      { destruct (m !! x) eqn:E; [|reflexivity].
        exfalso. apply Hfresh. left. eauto. }
      destruct (IH (found ++ [x])) as [Hnd Hin].
      * apply NoDup_app. repeat split; [exact Hnodup| |apply NoDup_singleton].
        intros u Hu Hu'. apply list_elem_of_singleton in Hu'. subst u.
        apply Hfresh. now right.
      * intros u Hu. apply elem_of_app in Hu as [Hu|Hu]; [auto|].
        apply list_elem_of_singleton in Hu. now subst u.
      * split; [exact Hnd|]. intros u.
        rewrite Hin, elem_of_app, list_elem_of_singleton, elem_of_cons.
        split; [|tauto]. intros [[Hu| ->]|[Hu Hm]]; auto.
Qed.

(** X12: what [parseHTML] makes of a whole document, called for a page of
    the heap and left alone: with [us] the URLs of the domain that the
    anchors of the document stand for and that were not registered, each
    once and in the order of their first occurrence, it creates one page
    for each URL of [us], registers it, adds one to [wg] and starts one
    goroutine for it, and appends to the page of the task one link to each
    new page and the assets of the document; it changes nothing else. *)
Theorem parseHTML_registers_the_new_URLs_of_the_document
    (root : Node) (page : addr) (s : state) :
  page < length (heap s) →
  let us := newURLs (visitedPages s) (documentURLs (domain s) root) in
  parseHTML root page s = afterDocument s page us (documentAssets root)
  ∧ NoDup us
  ∧ ∀ u, u ∈ us ↔ u ∈ documentURLs (domain s) root ∧ visitedPages s !! u = None.
Proof.
  intros Hpage us. split.
  - rewrite <- (afterDocument_nothing s page) at 1.
    now rewrite parseHTML_afterDocument.
  - destruct (collect_spec (visitedPages s) (documentURLs (domain s) root) [])
      as [Hnd Hin].
    + constructor.
    + intros u Hu. now apply elem_of_nil in Hu.
    + split; [exact Hnd|]. intros u. unfold us, newURLs. rewrite Hin.
      rewrite elem_of_nil. tauto.
Qed.

Lemma parseHTML_registers_the_new_URLs_of_the_document_witness :
  let s := Crawl_start "example.com" in
  let us := newURLs (visitedPages s) (documentURLs (domain s) testDocument) in
  parseHTML testDocument 0 s = afterDocument s 0 us (documentAssets testDocument)
  ∧ NoDup us
  ∧ ∀ u, u ∈ us ↔ u ∈ documentURLs (domain s) testDocument
                   ∧ visitedPages s !! u = None.
Proof.
  apply (parseHTML_registers_the_new_URLs_of_the_document testDocument 0
           (Crawl_start "example.com")).
  simpl. lia.
Defined.

(** ** crawlPage as one function *)

Lemma finish_insert i g s : finish i (with_goroutines <[i := g]> s) = finish i s.
Proof.
  unfold finish, with_goroutines, with_wg, with_sem. simpl.
  now rewrite list_insert_insert_eq.
Qed.

(** X13: a goroutine that is started for a page and runs from [<-sem] to
    its return with no step of another goroutine in between does what
    [crawlPage] does as a function: it takes a slot, fetches, sets [Fail]
    and returns when the fetch or [html.Parse] fails, and else runs
    [parseHTML] on the whole document; then it gives the slot back and
    counts [wg] down. *)
Theorem crawlPage_left_alone
    {F : Type} `{Fetcher F} (Parse : string → option Node)
    (fetcher : F) (i : nat) (page : addr) (s : state) :
  goroutines s !! i = Some (Spawned page) → sem s ≠ 0 →
  run Parse (repeat i (crawlPageSteps Parse (fetcher, s))) (fetcher, s)
  = crawlPage Parse i page (fetcher, s).
Proof.
  intros Hg Hsem.
  assert (Hi : i < length (goroutines s)) by (eapply lookup_lt_Some, Hg).
  assert (E1 : step Parse i (fetcher, s)
               = (fetcher, with_goroutines <[i := Running page]>
                             (with_sem (fun n => n - 1) s))).
  { unfold step. rewrite Hg. destruct (sem s =? 0) eqn:E; [|reflexivity].
    apply Nat.eqb_eq in E. contradiction. }
  unfold crawlPageSteps, crawlPage. simpl fst. simpl snd.
  change (domain (with_fetched _ _)) with (domain s).
  change (domain (with_sem _ _)) with (domain s).
  destruct (Fetch fetcher (domain s)) as [r fetcher'] eqn:Hfetch.
  assert (E2 : step Parse i
                 (fetcher, with_goroutines <[i := Running page]>
                             (with_sem (fun n => n - 1) s))
               = match r ≫= Parse with
                 | Some root =>
                     (fetcher',
                      with_goroutines <[i := Walking page [root]]>
                        (with_fetched (fun l => l ++ [(page, domain s)])
                           (with_sem (fun n => n - 1) s)))
                 | None =>
                     (fetcher',
                      finish i (setFail page
                        (with_fetched (fun l => l ++ [(page, domain s)])
                           (with_sem (fun n => n - 1) s))))
                 end).
  { unfold step. simpl. rewrite list_lookup_insert_eq by exact Hi.
    rewrite Hfetch.
    destruct r as [body|]; simpl; [destruct (Parse body)|]; simpl;
      unfold finish, setFail, with_goroutines, with_wg, with_sem, with_heap,
        with_fetched; simpl; now rewrite list_insert_insert_eq. }
  simpl fst.
  destruct r as [body|]; cbn [mbind option_bind] in E2 |- *;
    [destruct (Parse body) as [root|] eqn:Hparse|];
    try (change (repeat i 2) with [i; i];
         now rewrite !run_cons, E1, E2).
  replace (nodeCount root + 3) with (2 + (nodeCount root + 1)) by lia.
  rewrite !repeat_app. change (repeat i 2) with [i; i].
  change (repeat i 1) with [i]. simpl app.
  rewrite !run_cons, E1, E2, run_app.
  set (s0 := with_fetched (fun l => l ++ [(page, domain s)])
               (with_sem (fun n => n - 1) s)).
  assert (Hi0 : i < length (goroutines s0)) by exact Hi.
  rewrite (walking_alone Parse fetcher' i page [] (nodeCount root) [root]).
  - destruct (parseHTML_frame i (Walking page [root]) page root s0 Hi0)
      as [Hframe Hi1].
    change (parseAll [root] page (with_goroutines <[i := Walking page [root]]> s0))
      with (parseHTML root page (with_goroutines <[i := Walking page [root]]> s0)).
    rewrite Hframe, with_goroutines_insert_insert.
    unfold run, fold_left, step. simpl.
    rewrite list_lookup_insert_eq by exact Hi1.
    now rewrite finish_insert.
  - unfold forestCount. simpl. lia.
  - simpl. now rewrite list_lookup_insert_eq.
Qed.

Lemma crawlPage_left_alone_witness :
  run testParse
    (repeat 0 (crawlPageSteps testParse (testFetcher, Crawl_start "example.com")))
    (testFetcher, Crawl_start "example.com")
  = crawlPage testParse 0 0 (testFetcher, Crawl_start "example.com").
Proof.
  apply (crawlPage_left_alone testParse testFetcher 0 0
           (Crawl_start "example.com")).
  - reflexivity.
  - simpl. discriminate.
Defined.

(** ** The assets of a page under every schedule *)

(** X14: the assets of a page do not depend on the schedule: from a moment
    of a crawl at which the task of a page is in [parseHTML], with the
    nodes [todo] still before it, to any later moment at which the task has
    returned, whatever the goroutines did in between, the page has gained
    the assets of [todo] in document order, and nothing else. *)
Theorem assets_do_not_depend_on_the_schedule
    {F : Type} `{Fetcher F} (fetcher : F) (Parse : string → option Node)
    (url : string) (before after : list nat)
    (i : nat) (page : addr) (todo : list Node) (p : Page) :
  let c := run Parse before (fetcher, Crawl_start url) in
  let s' := (run Parse after c).2 in
  goroutines c.2 !! i = Some (Walking page todo) →
  heap c.2 !! page = Some p →
  goroutines s' !! i = Some Finished →
  ∃ p', heap s' !! page = Some p'
        ∧ StaticAssets p' = StaticAssets p ++ flat_map documentAssets todo.
Proof.
  intros c s' Hg Hp Hfin.
  assert (Hinv : invariant c.2)
    by (apply (reachable_invariant Parse fetcher url); now exists before).
  destruct (assets_conserved Parse i page
              (StaticAssets p ++ flat_map documentAssets todo) after c Hinv)
    as (p' & Hp' & Hcase).
  { exists p. split; [exact Hp|]. left. eauto. }
  exists p'. split; [exact Hp'|].
  destruct Hcase as [(todo' & Hg' & _)|(_ & _ & Htotal)]; [|exact Htotal].
  unfold s' in Hfin. congruence.
Qed.

Lemma assets_do_not_depend_on_the_schedule_witness :
  ∃ p', heap (run testParse (repeat 0 12 ++ repeat 1 12)
                (run testParse [0; 0] (testFetcher, Crawl_start "example.com"))).2
          !! 0 = Some p'
        ∧ StaticAssets p'
          = StaticAssets (newPage "example.com")
            ++ flat_map documentAssets [testDocument].
Proof.
  apply (assets_do_not_depend_on_the_schedule testFetcher testParse
           "example.com" [0; 0] (repeat 0 12 ++ repeat 1 12) 0 0
           [testDocument] (newPage "example.com"));
    vm_compute; reflexivity.
Defined.

(** ** An anchor seen twice *)

(** X15: visiting an anchor element a second time changes nothing: its URL
    is registered after the first visit, by this visit or from before, and
    the second visit appends no link and starts no task. *)
Theorem second_visit_of_an_anchor_changes_nothing
    (attrs : list Attribute) (ch : list Node) (page : addr) (s : state) :
  let node := mkNode ElementNode "a" attrs ch in
  visitNode node page (visitNode node page s) = visitNode node page s.
Proof.
  intros node. unfold node. rewrite !visitNode_anchor. unfold anchorSpec.
  destruct (List.find _ attrs) as [attr|]; [|reflexivity].
  cbv zeta.
  match goal with |- context [followLink ?x page s] => set (u := x) end.
  destruct (HasPrefix u (domain s)) eqn:Hpre.
  - assert (Hdom : domain (followLink u page s) = domain s).
    { unfold followLink, lookupOrRegister.
      now destruct (visitedPages s !! u). }
    rewrite Hdom. fold u. rewrite Hpre.
    apply followLink_present.
    unfold followLink, lookupOrRegister.
    destruct (visitedPages s !! u) as [a|] eqn:Hu; simpl.
    + rewrite Hu. eauto.
    + rewrite lookup_insert_eq. eauto.
  - fold u. now rewrite Hpre.
Qed.

(** ** The earlier revision of crawlPage *)

Lemma visitNode_fetched node page s : fetched (visitNode node page s) = fetched s.
Proof.
  destruct (visitNode_cases node page s) as [[vals ->]|(u & _ & _ & ->)];
    reflexivity.
Qed.

Lemma earlier_step_fetched {F : Type} `{Fetcher F}
    (Parse : string → option Node) i (c : F * state) :
  fetched (Earlier.step Parse i c).2 = fetched c.2
  ∨ ∃ page p, heap c.2 !! page = Some p
              ∧ fetched (Earlier.step Parse i c).2 = fetched c.2 ++ [(page, URL p)].
Proof.
  destruct c as [network s]. simpl. unfold Earlier.step.
  destruct (goroutines s !! i) as [[page|page|page [|node todo]|]|];
    try (left; reflexivity).
  - left. now destruct (sem s =? 0).
  - destruct (heap s !! page) as [p|] eqn:Hp; [|left; reflexivity].
    right. exists page, p. split; [exact Hp|]. simpl.
    destruct (Fetch network (URL p)) as [[r|] network'];
      [destruct (Parse r)|]; reflexivity.
  - left. simpl. apply visitNode_fetched.
Qed.

Lemma earlier_step_logged {F : Type} `{Fetcher F}
    (Parse : string → option Node) i (c : F * state) :
  logged c.2 → logged (Earlier.step Parse i c).2.
Proof.
  intros Hlog a u Hin.
  pose proof (earlier_step_transition Parse i c) as Htr.
  assert (Hkeep : URL <$> heap c.2 !! a = Some u →
                  URL <$> heap (Earlier.step Parse i c).2 !! a = Some u).
  { intros Ha.
    destruct (transition_URLs _ _ a Htr) as [->|(_ & _ & Hnone & _)];
      [exact Ha|].
    rewrite Hnone in Ha. discriminate. }
  apply Hkeep.
  destruct (earlier_step_fetched Parse i c) as [Heq|(page & p & Hp & Heq)];
    rewrite Heq in Hin.
  - now apply Hlog.
  - apply elem_of_app in Hin as [Hin|Hin]; [now apply Hlog|].
    apply list_elem_of_singleton in Hin. injection Hin as -> ->.
    now rewrite Hp.
Qed.

Lemma earlier_run_logged {F : Type} `{Fetcher F}
    (Parse : string → option Node) (sched : list nat) :
  ∀ c : F * state, logged c.2 → logged (Earlier.run Parse sched c).2.
Proof.
  induction sched as [|i sched IH]; intros c Hc; [exact Hc|].
  apply (IH (Earlier.step Parse i c)). now apply earlier_step_logged.
Qed.

Lemma NoDup_second {A B : Type} (l : list (A * B)) :
  NoDup l.*1 → (∀ x y, x ∈ l → y ∈ l → x.2 = y.2 → x.1 = y.1) → NoDup l.*2.
Proof.
  induction l as [|x l IH]; intros Hnd Hinj; [constructor|].
  simpl in *. apply NoDup_cons in Hnd as [Hx Hnd]. apply NoDup_cons. split.
  - intros Hin. apply list_elem_of_fmap in Hin as (y & Hy & Hin).
    apply Hx. apply list_elem_of_fmap. exists y. split; [|exact Hin].
    apply Hinj; [left|now right|exact Hy].
  - apply IH; [exact Hnd|]. intros y z Hy Hz. apply Hinj; now right.
Qed.

(** X16: in the earlier revision of [crawlPage], which asks for
    [page.URL], every task fetches the URL of its own page, and a crawl
    fetches no page and no URL twice. *)
Theorem the_earlier_crawlPage_fetches_every_URL_once
    {F : Type} `{Fetcher F} (network : F) (Parse : string → option Node)
    (url : string) (sched : list nat) :
  let s := (Earlier.run Parse sched (network, Crawl_start url)).2 in
  (∀ a u, (a, u) ∈ fetched s → URL <$> heap s !! a = Some u)
  ∧ NoDup (fetched s).*1
  ∧ NoDup (fetched s).*2.
Proof.
  intros s.
  assert (Hlog : logged s).
  { apply earlier_run_logged. intros a u Hin. now apply elem_of_nil in Hin. }
  assert (Hinv : ownPage s ∧ fetchedOnce s ∧ registryAgrees s).
  { apply (earlier_run_keeps Parse
             (fun s => ownPage s ∧ fetchedOnce s ∧ registryAgrees s)).
    - intros s0 s1 Htr (Hown & Honce & Hagree).
      split; [|split];
        eauto using transition_ownPage, transition_fetchedOnce,
                    transition_registryAgrees.
    - simpl. split; [|split];
        auto using Crawl_start_ownPage, Crawl_start_fetchedOnce,
                   Crawl_start_registryAgrees. }
  destruct Hinv as (_ & [Hnodup _] & Hagree).
  split; [exact Hlog|split; [exact Hnodup|]].
  apply NoDup_second; [exact Hnodup|].
  intros [a u] [b v] Hx Hy. simpl. intros <-.
  apply Hlog in Hx, Hy. apply Hagree in Hx, Hy. congruence.
Qed.

(** ** Every link of a parsed page is followed *)

Lemma visitNode_registers node page s u :
  nodeURL (domain s) node = Some u →
  is_Some (visitedPages (visitNode node page s) !! u).
Proof.
  destruct node as [t d attrs ch]. unfold nodeURL, visitNode.
  cbn [Type_ Data Attr].
  destruct t; try discriminate.
  destruct (String.eqb d "a"); [|discriminate].
  rewrite anchor_anchorSpec. unfold anchorSpec, resolve.
  destruct (List.find _ attrs) as [attr|]; [|discriminate].
  cbn [mbind option_bind]. cbv zeta.
  match goal with |- context [followLink ?x page s] => set (v := x) end.
  destruct (HasPrefix v (domain s)); [|discriminate].
  intros [= <-]. unfold followLink, lookupOrRegister.
  destruct (visitedPages s !! v) as [a|] eqn:Hv; simpl.
  - rewrite Hv. eauto.
  - rewrite lookup_insert_eq. eauto.
Qed.

Section Followed.
Context {F : Type} `{Fetcher F}.
Variable Parse : string → option Node.

Lemma step_registered j (c : F * state) u :
  is_Some (visitedPages c.2 !! u) →
  is_Some (visitedPages (step Parse j c).2 !! u).
Proof.
  intros [a Ha].
  destruct (transition_grows _ _ (step_transition Parse j c)) as (_ & Hreg & _).
  eauto.
Qed.

Lemma step_followed i j (c : F * state) urls :
  followed i (domain c.2) urls c.2 →
  followed i (domain c.2) urls (step Parse j c).2.
Proof.
  intros Hfol.
  destruct (decide (j = i)) as [->|Hne].
  - destruct c as [fetcher s]. simpl in *.
    destruct Hfol as [(page & todo & Hg & Hall)|[Hg Hall]].
    + assert (Hi : i < length (goroutines s)) by (eapply lookup_lt_Some, Hg).
      unfold step. rewrite Hg. destruct todo as [|node todo].
      * right. simpl. rewrite list_lookup_insert_eq by exact Hi.
        split; [reflexivity|]. intros u Hu.
        destruct (Hall u Hu) as [Hreg|Hin]; [exact Hreg|].
        now apply elem_of_nil in Hin.
      * left. exists page, (Children node ++ todo). simpl. split.
        { apply list_lookup_insert_eq.
          pose proof (visitNode_goroutines_length node page s). lia. }
        intros u Hu.
        assert (Hkeep : is_Some (visitedPages s !! u) →
                        is_Some (visitedPages (visitNode node page s) !! u)).
        { intros [a Ha].
          destruct (transition_grows _ _ (visit_transition i page node todo s Hg))
            as (_ & Hreg & _).
          exists a. apply (Hreg u a Ha). }
        destruct (Hall u Hu) as [Hreg|Hin]; [left; now apply Hkeep|].
        simpl in Hin. rewrite documentURLs_unfold in Hin.
        rewrite <- app_assoc, elem_of_app in Hin.
        destruct Hin as [Hin|Hin].
        -- left. apply visitNode_registers.
           destruct (nodeURL (domain s) node) as [v|]; simpl in Hin;
             [|now apply elem_of_nil in Hin].
           apply list_elem_of_singleton in Hin. now subst.
        -- right. rewrite flat_map_app. exact Hin.
    + right. unfold step. rewrite Hg. auto.
  - destruct Hfol as [(page & todo & Hg & Hall)|[Hg Hall]].
    + left. exists page, todo. split.
      * now apply step_other_goroutine.
      * intros u Hu. destruct (Hall u Hu) as [Hreg|Hin]; [left|now right].
        now apply step_registered.
    + right. split; [now apply step_other_goroutine|].
      intros u Hu. apply step_registered. auto.
Qed.

Lemma run_followed i urls sched :
  ∀ c : F * state,
    followed i (domain c.2) urls c.2 →
    followed i (domain c.2) urls (run Parse sched c).2.
Proof.
  induction sched as [|j sched IH]; intros c Hc; [exact Hc|].
  rewrite run_cons.
  assert (Hdom : domain (step Parse j c).2 = domain c.2).
  { now destruct (transition_grows _ _ (step_transition Parse j c)) as (_ & _ & ?). }
  rewrite <- Hdom. apply IH. rewrite Hdom. now apply step_followed.
Qed.
End Followed.

(** X17: every link of a parsed page is followed: from a moment of a crawl
    at which a task is in [parseHTML], with the nodes [todo] still before
    it, to any later moment at which the task has returned, every URL of
    the domain that an anchor of [todo] stands for has been registered and
    has its page, whatever the schedule. *)
Theorem every_link_of_a_parsed_page_gets_its_page
    {F : Type} `{Fetcher F} (fetcher : F) (Parse : string → option Node)
    (url : string) (before after : list nat)
    (i : nat) (page : addr) (todo : list Node) :
  let c := run Parse before (fetcher, Crawl_start url) in
  let s' := (run Parse after c).2 in
  goroutines c.2 !! i = Some (Walking page todo) →
  goroutines s' !! i = Some Finished →
  ∀ u, u ∈ flat_map (documentURLs url) todo →
       ∃ a q, visitedPages s' !! u = Some a ∧ heap s' !! a = Some q ∧ URL q = u.
Proof.
  intros c s' Hg Hfin u Hu.
  assert (Hdom : domain c.2 = url).
  { apply (run_keeps Parse (fun s => domain s = url)); [|reflexivity].
    intros s0 s1 Htr <-.
    now destruct (transition_grows s0 s1 Htr) as (_ & _ & ?). }
  assert (Hfol : followed i (domain c.2) (flat_map (documentURLs url) todo) s').
  { apply run_followed. left. exists page, todo.
    split; [exact Hg|]. intros v Hv. right. now rewrite Hdom. }
  destruct Hfol as [(page' & todo' & Hg' & _)|[_ Hall]];
    [rewrite Hg' in Hfin; discriminate|].
  destruct (Hall u Hu) as [a Ha]. exists a.
  assert (Hagree : registryAgrees s').
  { unfold s', c. rewrite <- run_app.
    apply (run_keeps Parse registryAgrees transition_registryAgrees).
    apply Crawl_start_registryAgrees. }
  pose proof (proj1 (Hagree u a) Ha) as Hurl.
  destruct (heap s' !! a) as [q|]; [|discriminate].
  exists q. injection Hurl as Hurl. auto.
Qed.

Lemma every_link_of_a_parsed_page_gets_its_page_witness :
  ∃ a q,
    visitedPages (run testParse (repeat 0 12 ++ repeat 1 12)
                    (run testParse [0; 0] (testFetcher, Crawl_start "example.com"))).2
      !! "example.com/test" = Some a
    ∧ heap (run testParse (repeat 0 12 ++ repeat 1 12)
              (run testParse [0; 0] (testFetcher, Crawl_start "example.com"))).2
        !! a = Some q
    ∧ URL q = "example.com/test".
Proof.
  apply (every_link_of_a_parsed_page_gets_its_page testFetcher testParse
           "example.com" [0; 0] (repeat 0 12 ++ repeat 1 12) 0 0 [testDocument]).
  - vm_compute. reflexivity.
  - vm_compute. reflexivity.
  - vm_compute. left.
Defined.

(** ** No deadlock *)

Lemma countIf_pos f gs :
  countIf f gs ≠ 0 → ∃ i g, gs !! i = Some g ∧ f g = true.
Proof.
  unfold countIf. induction gs as [|g gs IH]; simpl; [lia|].
  destruct (f g) eqn:Hg; [intros _; now exists 0, g|].
  intros Hpos. destruct (IH Hpos) as (i & g' & Hi & Hf). now exists (S i), g'.
Qed.

Section Progress.
Context {F : Type} `{Fetcher F}.
Variable Parse : string → option Node.

(** A goroutine that holds a slot can take a step, and the step changes
    the state. *)
Lemma step_of_slot_holder i (c : F * state) g :
  goroutines c.2 !! i = Some g → holdsSlot g = true →
  (step Parse i c).2 ≠ c.2.
Proof.
  destruct c as [fetcher s]. simpl. intros Hg Hslot.
  assert (Hi : i < length (goroutines s)) by (eapply lookup_lt_Some, Hg).
  unfold step. rewrite Hg.
  destruct g as [page|page|page [|node todo]|]; try discriminate.
  - assert (Hlog : ∀ (c' : F * state),
              fetched c'.2 = fetched s ++ [(page, domain s)] → c'.2 ≠ s).
    { intros c' Hc' Heq. rewrite Heq in Hc'.
      apply (f_equal length) in Hc'. rewrite length_app in Hc'. simpl in Hc'.
      lia. }
    apply Hlog. simpl.
    destruct (Fetch fetcher (domain s)) as [[r|] fetcher'];
      [destruct (Parse r)|]; reflexivity.
  - simpl. intros Heq. apply (f_equal (fun s => goroutines s !! i)) in Heq.
    simpl in Heq. rewrite list_lookup_insert_eq in Heq by exact Hi.
    congruence.
  - simpl. intros Heq. apply (f_equal (fun s => goroutines s !! i)) in Heq.
    simpl in Heq.
    rewrite list_lookup_insert_eq, Hg in Heq
      by (pose proof (visitNode_goroutines_length node page s); lia).
    injection Heq as Heq. apply (f_equal forestCount) in Heq.
    rewrite forestCount_cons in Heq. lia.
Qed.

Lemma step_of_waiting i (c : F * state) page :
  goroutines c.2 !! i = Some (Spawned page) → sem c.2 ≠ 0 →
  (step Parse i c).2 ≠ c.2.
Proof.
  destruct c as [fetcher s]. simpl. intros Hg Hsem.
  assert (Hi : i < length (goroutines s)) by (eapply lookup_lt_Some, Hg).
  unfold step. rewrite Hg.
  destruct (sem s =? 0) eqn:E; [apply Nat.eqb_eq in E; contradiction|].
  simpl. intros Heq. apply (f_equal (fun s => goroutines s !! i)) in Heq.
  simpl in Heq. rewrite list_lookup_insert_eq in Heq by exact Hi.
  congruence.
Qed.
End Progress.

(** While [wg] is not zero some goroutine can take a step that changes the
    state. *)
Lemma accounted_progress {F : Type} `{Fetcher F} (Parse : string → option Node)
    (c : F * state) :
  accounted c.2 → wg c.2 ≠ 0 → ∃ i, (step Parse i c).2 ≠ c.2.
Proof.
  intros [Hlive Hsem] Hwg. rewrite Hlive in Hwg.
  destruct (Nat.eq_dec (countIf holdsSlot (goroutines c.2)) 0) as [Hnone|Hsome].
  - destruct (countIf_pos _ _ Hwg) as (i & g & Hg & Hl).
    exists i. pose proof Hnone as Hzero.
    apply countIf_zero in Hnone. rewrite Forall_forall in Hnone.
    assert (Hslot : holdsSlot g = false)
      by (apply Hnone; eapply list_elem_of_lookup_2, Hg).
    destruct g as [page| | |]; try discriminate.
    apply (step_of_waiting Parse i c page Hg).
    unfold maxOutstanding in Hsem. lia.
  - destruct (countIf_pos _ _ Hsome) as (i & g & Hg & Hslot).
    exists i. now apply (step_of_slot_holder Parse i c g).
Qed.

(** X18: a crawl never deadlocks: at every moment at which [wg] is not
    zero, so that [Crawl] is still waiting, some goroutine can take a step
    that changes the state: one that holds a slot of [sem] can always go
    on, and when none holds a slot, all slots are free for those that
    wait. *)
Theorem a_crawl_never_deadlocks
    {F : Type} `{Fetcher F} (fetcher : F) (Parse : string → option Node)
    (url : string) (sched : list nat) :
  let c := run Parse sched (fetcher, Crawl_start url) in
  wg c.2 ≠ 0 → ∃ i, (step Parse i c).2 ≠ c.2.
Proof.
  intros c Hwg. apply accounted_progress; [|exact Hwg].
  apply (run_keeps Parse accounted transition_accounted).
  apply Crawl_start_accounted.
Qed.

Lemma a_crawl_never_deadlocks_witness :
  ∃ i, (step testParse i (run testParse [0; 0] (testFetcher, Crawl_start "example.com"))).2
       ≠ (run testParse [0; 0] (testFetcher, Crawl_start "example.com")).2.
Proof.
  apply (a_crawl_never_deadlocks testFetcher testParse "example.com" [0; 0]).
  vm_compute. discriminate.
Defined.

(** ** Crawl returns *)

(** Visiting a node appends assets to the page of the task, or registers
    the URL its anchor stands for. *)
Lemma visitNode_cases_URL node page s :
  (∃ vals, visitNode node page s = appendAssets page vals s)
  ∨ (∃ u, nodeURL (domain s) node = Some u ∧ visitedPages s !! u = None
          ∧ visitNode node page s = register u page s).
Proof.
  assert (Hsame : ∃ vals, s = appendAssets page vals s)
    by (exists []; now rewrite appendAssets_nil).
  destruct node as [t d attrs ch]. unfold nodeURL, visitNode.
  cbn [Type_ Data Attr].
  destruct t; try (left; exact Hsame).
  destruct (String.eqb d "a").
  - rewrite anchor_anchorSpec. unfold anchorSpec, resolve.
    destruct (List.find _ attrs) as [attr|]; [|left; exact Hsame].
    cbn [mbind option_bind]. cbv zeta.
    match goal with |- context [followLink ?x page s] => set (v := x) end.
    destruct (HasPrefix v (domain s)); [|left; exact Hsame].
    destruct (visitedPages s !! v) eqn:Hv.
    + left. rewrite followLink_present by eauto. exact Hsame.
    + right. exists v. rewrite followLink_register by exact Hv. auto.
  - left. destruct (String.eqb d "link").
    { rewrite assets_appendAssets. eauto. }
    destruct (String.eqb d "img" || String.eqb d "script").
    { rewrite assets_appendAssets. eauto. }
    exact Hsame.
Qed.

Lemma list_sum_insert (h : goroutine → nat) (gs : list goroutine) i g g' :
  gs !! i = Some g →
  list_sum (h <$> <[i := g']> gs) + h g = list_sum (h <$> gs) + h g'.
Proof.
  intros Hg.
  rewrite insert_take_drop by (eapply lookup_lt_Some, Hg).
  rewrite <- (take_drop_middle gs i g Hg) at 3.
  rewrite !fmap_app, !list_sum_app. simpl. lia.
Qed.

Section Replaying.
Variable f : FakeFetcher.
Variable Parse : string → option Node.
Variable url : string.

Lemma step_fake i s : (step Parse i (f, s)).1 = f.
Proof.
  unfold step.
  destruct (goroutines s !! i) as [[page|page|page [|node todo]|]|];
    try reflexivity.
  - now destruct (sem s =? 0).
  - unfold Fetch, FakeFetcher_Fetcher.
    destruct (f (domain s)) as [r|]; [destruct (Parse r)|]; reflexivity.
Qed.

Lemma step_fake_eq i s : step Parse i (f, s) = (f, (step Parse i (f, s)).2).
Proof.
  pose proof (step_fake i s). destruct (step Parse i (f, s)); simpl in *.
  congruence.
Qed.

Lemma Crawl_start_replaying : replaying f Parse url (Crawl_start url).
Proof.
  split; [reflexivity|].
  split; [apply Crawl_start_ownPage|].
  split; [apply Crawl_start_registryAgrees|].
  split; [apply Crawl_start_accounted|]. split.
  - intros u a Hu. simpl in Hu. apply lookup_singleton_Some in Hu as [<- _].
    now left.
  - intros [|k] g; simpl; [|discriminate]. now intros [= <-].
Qed.

Lemma step_replaying i s :
  replaying f Parse url s → replaying f Parse url (step Parse i (f, s)).2.
Proof.
  intros (Hdom & Hown & Hagree & Hacc & Hreg & Htodo).
  pose proof (step_transition Parse i (f, s)) as Htr.
  change (transition s (step Parse i (f, s)).2) in Htr.
  split; [destruct (transition_grows _ _ Htr) as (_ & _ & ->); exact Hdom|].
  split; [eauto using transition_ownPage|].
  split; [eauto using transition_registryAgrees|].
  split; [eauto using transition_accounted|].
  clear Htr. unfold step.
  destruct (goroutines s !! i) as [[page|page|page [|node todo]|]|] eqn:Hg;
    try (split; assumption).
  - destruct (sem s =? 0); [split; assumption|]. simpl.
    split; [exact Hreg|]. apply insert_keeps; [exact Htodo|exact I].
  - unfold Fetch, FakeFetcher_Fetcher. rewrite Hdom.
    destruct (f url) as [body|] eqn:Hbody;
      [destruct (Parse body) as [root|] eqn:Hparse|]; simpl;
      (split; [exact Hreg|]); (apply insert_keeps; [exact Htodo|]);
      try exact I.
    simpl. unfold servedURLs, served. rewrite Hbody. simpl. rewrite Hparse.
    intros u. now rewrite app_nil_r.
  - simpl. split; [exact Hreg|]. apply insert_keeps; [exact Htodo|exact I].
  - pose proof (Htodo i _ Hg) as Hnode. simpl in Hnode.
    rewrite documentURLs_unfold, <- app_assoc, <- flat_map_app in Hnode.
    destruct (visitNode_cases_URL node page s)
      as [[vals ->]|(u & Hu & Hnew & ->)]; simpl.
    + split; [exact Hreg|]. apply insert_keeps; [exact Htodo|].
      simpl. intros u Hu. apply Hnode, elem_of_app. now right.
    + rewrite Hdom in Hu. split.
      * intros u' a Hu'.
        apply lookup_insert_Some in Hu' as [[<- _]|[_ Hold]]; [|eauto].
        right. apply Hnode, elem_of_app. left. rewrite Hu. simpl. left.
      * apply insert_keeps.
        -- intros k g Hk. apply lookup_app_Some in Hk as [Hk|[_ Hk]]; [eauto|].
           destruct (k - length (goroutines s)); simpl in Hk;
             [|now rewrite lookup_nil in Hk].
           now injection Hk as <-.
        -- simpl. intros u' Hu'. apply Hnode, elem_of_app. now right.
Qed.

Lemma run_replaying sched :
  ∀ s, replaying f Parse url s →
       run Parse sched (f, s) = (f, (run Parse sched (f, s)).2)
       ∧ replaying f Parse url (run Parse sched (f, s)).2.
Proof.
  induction sched as [|i sched IH]; intros s Hs; [now split|].
  rewrite run_cons, step_fake_eq. apply IH. now apply step_replaying.
Qed.

(** A crawl has no more pages than the seed and the anchors of the
    document. *)
Lemma replaying_bound s :
  replaying f Parse url s →
  length (goroutines s) ≤ 1 + length (servedURLs f Parse url).
Proof.
  intros (_ & [Hlen _] & Hagree & _ & Hreg & _).
  rewrite Hlen, <- (length_fmap URL (heap s)).
  change (1 + length (servedURLs f Parse url))
    with (length (url :: servedURLs f Parse url)).
  apply submseteq_length, NoDup_submseteq.
  - apply NoDup_alt. intros a b u Ha Hb.
    rewrite list_lookup_fmap in Ha, Hb.
    apply Hagree in Ha, Hb. congruence.
  - intros u Hu. apply list_elem_of_lookup in Hu as [a Ha].
    rewrite list_lookup_fmap in Ha. apply Hagree in Ha.
    destruct (Hreg u a Ha) as [->|Hin]; [left|now right].
Qed.

(** A step leaves the state as it is or takes one from the work left. *)
Lemma step_workLeft i s :
  replaying f Parse url s →
  (step Parse i (f, s)).2 = s
  ∨ crawlWork f Parse url (step Parse i (f, s)).2 < crawlWork f Parse url s.
Proof.
  intros HT.
  pose proof (replaying_bound _ (step_replaying i s HT)) as Hbound.
  pose proof (replaying_bound _ HT) as Hbound0.
  destruct HT as (Hdom & _).
  unfold crawlWork, workLeft.
  set (B := 1 + length (servedURLs f Parse url)) in *.
  assert (HK : ∀ body root, f url = Some body → Parse body = Some root →
                 servedNodes f Parse url = nodeCount root).
  { intros body root Hbody Hparse. unfold servedNodes, served.
    rewrite Hbody. simpl. now rewrite Hparse. }
  set (K := servedNodes f Parse url) in *.
  unfold step in *.
  destruct (goroutines s !! i) as [[page|page|page [|node todo]|]|] eqn:Hg;
    try (left; reflexivity).
  - destruct (sem s =? 0); [left; reflexivity|right]. simpl.
    rewrite length_insert.
    pose proof (list_sum_insert (stepsLeft K) _ i _ (Running page) Hg).
    simpl in *. lia.
  - right. unfold Fetch, FakeFetcher_Fetcher in *. rewrite Hdom in *.
    destruct (f url) as [body|] eqn:Hbody;
      [destruct (Parse body) as [root|] eqn:Hparse|]; simpl;
      rewrite length_insert.
    + pose proof (list_sum_insert (stepsLeft K) _ i _ (Walking page [root]) Hg)
        as Hsum.
      simpl in Hsum. unfold forestCount in Hsum. simpl in Hsum.
      rewrite <- (HK body root eq_refl Hparse) in Hsum. fold K in Hsum. lia.
    + pose proof (list_sum_insert (stepsLeft K) _ i _ Finished Hg).
      simpl in *. lia.
    + pose proof (list_sum_insert (stepsLeft K) _ i _ Finished Hg).
      simpl in *. lia.
  - right. simpl. rewrite length_insert.
    pose proof (list_sum_insert (stepsLeft K) _ i _ Finished Hg) as Hsum.
    simpl in Hsum. unfold forestCount in Hsum. simpl in Hsum. lia.
  - right.
    destruct (visitNode_cases_URL node page s)
      as [[vals E]|(u & Hu & Hnew & E)]; rewrite E in *; simpl in *.
    + rewrite length_insert.
      pose proof (list_sum_insert (stepsLeft K) _ i _
                    (Walking page (Children node ++ todo)) Hg) as Hsum.
      simpl in Hsum. rewrite forestCount_cons in Hsum. lia.
    + rewrite length_insert, length_app in *. simpl in *.
      pose proof (list_sum_insert (stepsLeft K) _ i _
                    (Walking page (Children node ++ todo))
                    (lookup_app_l_Some _ [Spawned (length (heap s))] _ _ Hg))
        as Hsum.
      rewrite fmap_app, list_sum_app in Hsum.
      simpl in Hsum. rewrite forestCount_cons in Hsum.
      replace (B - length (goroutines s))
        with (S (B - (length (goroutines s) + 1))) by lia.
      simpl. lia.
Qed.

Lemma run_workLeft sched :
  ∀ s, replaying f Parse url s →
       crawlWork f Parse url (run Parse sched (f, s)).2 ≤ crawlWork f Parse url s.
Proof.
  induction sched as [|i sched IH]; intros s Hs; [reflexivity|].
  rewrite run_cons, step_fake_eq.
  etransitivity; [apply IH, step_replaying, Hs|].
  destruct (step_workLeft i s Hs) as [->|Hlt]; lia.
Qed.

Lemma replaying_finishes n :
  ∀ s, replaying f Parse url s → crawlWork f Parse url s ≤ n →
       ∃ after, length after ≤ n ∧ wg (run Parse after (f, s)).2 = 0.
Proof.
  induction n as [|n IH]; intros s HT Hle;
    (destruct (Nat.eq_dec (wg s) 0) as [Hz|Hnz];
     [exists []; split; [simpl; lia|exact Hz]|]);
    (assert (Hacc : accounted (f, s).2) by apply HT);
    destruct (accounted_progress Parse (f, s) Hacc Hnz) as [i Hi];
    (destruct (step_workLeft i s HT) as [Heq|Hlt]; [contradiction|]).
  - lia.
  - destruct (IH _ (step_replaying i s HT) ltac:(lia)) as (after & Hlen & Hwg).
    exists (i :: after). split; [simpl; lia|].
    now rewrite run_cons, step_fake_eq.
Qed.
End Replaying.

(** X19: with a fetcher that is a function of the URL, as the
    [FakeFetcher] of the test is, [Crawl] returns: every task parses the
    document served for the seed URL, so a crawl has no more pages than
    this document has anchors, and one more; every step that changes the
    state takes one from the work left, which is at most that many pages
    times the nodes of the document and three; and from every moment of a
    crawl a schedule of at most the work left brings [wg] to zero, at
    which [Crawl] returns the page of the seed. *)
Theorem Crawl_returns_when_the_fetcher_replays
    (f : FakeFetcher) (Parse : string → option Node) (url : string)
    (before : list nat) :
  let c := run Parse before (f, Crawl_start url) in
  length (heap c.2) ≤ 1 + length (servedURLs f Parse url)
  ∧ crawlWork f Parse url c.2
    ≤ (1 + length (servedURLs f Parse url)) * (servedNodes f Parse url + 3)
  ∧ (∀ i, (step Parse i c).2 = c.2
          ∨ crawlWork f Parse url (step Parse i c).2 < crawlWork f Parse url c.2)
  ∧ ∃ after s p,
      length after ≤ crawlWork f Parse url c.2
      ∧ Crawl Parse f (before ++ after) url = Some (s, p).
Proof.
  intros c.
  destruct (run_replaying f Parse url before (Crawl_start url)
              (Crawl_start_replaying f Parse url)) as [Hc HT].
  fold c in Hc, HT.
  split; [|split; [|split]].
  - pose proof (replaying_bound f Parse url _ HT) as Hbound.
    destruct HT as (_ & [Hlen _] & _). now rewrite <- Hlen.
  - etransitivity;
      [apply (run_workLeft f Parse url before), Crawl_start_replaying|].
    unfold crawlWork, workLeft. simpl. lia.
  - intros i. rewrite Hc. now apply step_workLeft.
  - destruct (replaying_finishes f Parse url _ c.2 HT (le_n _))
      as (after & Hlen & Hwg).
    rewrite <- Hc in Hwg.
    assert (Hurl : URL <$> heap (run Parse after c).2 !! 0 = Some url).
    { unfold c. rewrite <- run_app. now apply run_seed_URL. }
    destruct (heap (run Parse after c).2 !! 0) as [p|] eqn:Hp; [|discriminate].
    exists after, (run Parse after c).2, p. split; [exact Hlen|].
    unfold Crawl. rewrite run_app. fold c. rewrite Hwg, Hp. reflexivity.
Qed.

(** ** The site map of a fetcher that replays *)

Section Mapping.
Variable f : FakeFetcher.
Variable Parse : string → option Node.
Variables (url body : string) (D : Node).
Hypothesis Hbody : f url = Some body.
Hypothesis Hparse : Parse body = Some D.

Lemma Crawl_start_mapping : mapping f Parse url D (Crawl_start url).
Proof.
  split; [apply Crawl_start_replaying|]. split.
  - intros [|i] g; simpl; [|discriminate]. intros [= <-].
    exists (newPage url). repeat split.
  - left. now left.
Qed.

(** A step that puts [g'] in the place of goroutine [i] and leaves the
    heap as it is. *)
Lemma pageReady_insert s s' i g g' :
  heap s' = heap s → goroutines s' = <[i := g']> (goroutines s) →
  goroutines s !! i = Some g →
  (∀ q, assetsDue D g q → assetsDue D g' q) →
  (∀ k h, goroutines s !! k = Some h → pageReady D s k h) →
  ∀ k h, goroutines s' !! k = Some h → pageReady D s' k h.
Proof.
  intros Hheap Hgs Hg Hdue Hall k h Hk. unfold pageReady. rewrite Hheap.
  rewrite Hgs in Hk.
  apply list_lookup_insert_Some in Hk as [(<- & <- & _)|[_ Hk]];
    [|now apply Hall].
  destruct (Hall i g Hg) as (q & Hq & Hfail & Hq'). eauto.
Qed.

Lemma step_pageReady i s :
  replaying f Parse url s →
  (∀ k h, goroutines s !! k = Some h → pageReady D s k h) →
  ∀ k h, goroutines (step Parse i (f, s)).2 !! k = Some h →
         pageReady D (step Parse i (f, s)).2 k h.
Proof.
  intros (Hdom & Hown & _) Hall. unfold step.
  destruct (goroutines s !! i) as [[page|page|page [|node todo]|]|] eqn:Hg;
    try exact Hall.
  - destruct (sem s =? 0); [exact Hall|].
    now apply (pageReady_insert s _ i (Spawned page) (Running page)).
  - unfold Fetch, FakeFetcher_Fetcher. rewrite Hdom, Hbody, Hparse.
    apply (pageReady_insert s _ i (Running page) (Walking page [D]));
      auto.
    simpl. intros q ->. now rewrite app_nil_r.
  - apply (pageReady_insert s _ i (Walking page []) Finished); auto.
    simpl. intros q. now rewrite app_nil_r.
  - assert (page = i) by (eapply ownPage_page; eauto). subst page.
    assert (Hi : i < length (heap s)).
    { destruct Hown as [<- _]. eapply lookup_lt_Some, Hg. }
    assert (Hold : ∀ k h, goroutines s !! k = Some h →
              pageReady D (visitNode node i s) k
                (if decide (k = i) then Walking i (Children node ++ todo) else h)).
    { intros k h Hk. destruct (Hall k h Hk) as (q & Hq & Hfail & Hdue).
      destruct (visitNode_heap node i s k q Hq)
        as (q' & Hq' & _ & Hfail' & Hother & Hsame).
      exists q'. split; [exact Hq'|]. split; [congruence|].
      destruct (decide (k = i)) as [->|Hne].
      - rewrite Hg in Hk. injection Hk as <-. simpl in *.
        rewrite (Hsame eq_refl), flat_map_app, <- Hdue.
        rewrite (documentAssets_unfold node), <- !app_assoc. reflexivity.
      - now rewrite (Hother Hne). }
    simpl. intros k h Hk.
    assert (Hcase : (∃ h0, goroutines s !! k = Some h0
                           ∧ h = if decide (k = i)
                                 then Walking i (Children node ++ todo) else h0)
                    ∨ (k = length (heap s) ∧ ∃ u, h = Spawned k
                       ∧ heap (visitNode node i s) !! k = Some (newPage u))).
    { destruct (visitNode_cases_URL node i s)
        as [[vals E]|(u & _ & _ & E)]; rewrite E in Hk |- *; simpl in Hk |- *.
      - left. destruct (decide (k = i)) as [->|Hne].
        + rewrite list_lookup_insert_eq in Hk
            by (eapply lookup_lt_Some, Hg).
          injection Hk as <-. eauto.
        + rewrite list_lookup_insert_ne in Hk by congruence. eauto.
      - destruct (decide (k = i)) as [->|Hne].
        + left.
          rewrite list_lookup_insert_eq in Hk
            by (rewrite length_app; apply lookup_lt_Some in Hg; lia).
          injection Hk as <-. eauto.
        + rewrite list_lookup_insert_ne in Hk by congruence.
          apply lookup_app_Some in Hk as [Hk|[Hge Hk]].
          * left. eauto.
          * right. destruct Hown as [Hlen _].
            destruct (k - length (goroutines s)) eqn:Hsub; simpl in Hk;
              [|now rewrite lookup_nil in Hk].
            assert (k = length (heap s)) by lia. subst k.
            split; [reflexivity|]. exists u. split; [now injection Hk|].
            rewrite list_lookup_alter_ne by lia.
            rewrite lookup_app_r by lia. now rewrite Nat.sub_diag. }
    destruct Hcase as [(h0 & Hk0 & ->)|(-> & u & -> & Hnew)].
    + now apply Hold.
    + exists (newPage u). repeat split. exact Hnew.
Qed.

Lemma step_seed_followed i s :
  replaying f Parse url s →
  seedWaiting s ∨ followed 0 url (documentURLs url D) s →
  seedWaiting (step Parse i (f, s)).2
  ∨ followed 0 url (documentURLs url D) (step Parse i (f, s)).2.
Proof.
  intros (Hdom & _) [Hwait|Hfol].
  - destruct (decide (i = 0)) as [->|Hne].
    + unfold step. destruct Hwait as [Hg|Hg]; rewrite Hg.
      * destruct (sem s =? 0); [left; now left|]. left. right. simpl.
        apply list_lookup_insert_eq. eapply lookup_lt_Some, Hg.
      * unfold Fetch, FakeFetcher_Fetcher. rewrite Hdom, Hbody, Hparse.
        right. left. exists 0, [D]. simpl. split.
        -- apply list_lookup_insert_eq. eapply lookup_lt_Some, Hg.
        -- intros u Hu. right. now rewrite app_nil_r.
    + left. destruct Hwait as [Hg|Hg]; [left|right];
        now apply (step_other_goroutine Parse i 0 (f, s)).
  - right. rewrite <- Hdom in Hfol |- *.
    apply (step_followed Parse 0 i (f, s)). exact Hfol.
Qed.

Lemma run_mapping sched :
  ∀ s, mapping f Parse url D s → mapping f Parse url D (run Parse sched (f, s)).2.
Proof.
  induction sched as [|i sched IH]; intros s Hs; [exact Hs|].
  rewrite run_cons, step_fake_eq. apply IH.
  destruct Hs as (HT & Hready & Hseed).
  split; [now apply step_replaying|].
  split; [now apply step_pageReady|now apply step_seed_followed].
Qed.
End Mapping.

(** X20: the site map of a fetcher that replays: when the fetcher is a
    function of the URL and serves for the seed URL a content that parses
    to the document [D], then under every schedule under which [Crawl]
    returns, it returns the page of the seed; no page has failed; the
    pages are, each once, the page of the seed URL and a page for every
    URL of the domain that an anchor of [D] stands for; and every page,
    whatever its URL, has the assets of [D], the document served for the
    seed, since every task asks the fetcher for [c.domain]. *)
Theorem Crawl_maps_the_site_of_a_replaying_fetcher
    (f : FakeFetcher) (Parse : string → option Node) (url body : string)
    (D : Node) (sched : list nat) (s : state) (p : Page) :
  f url = Some body → Parse body = Some D →
  Crawl Parse f sched url = Some (s, p) →
  heap s !! 0 = Some p ∧ URL p = url
  ∧ Forall (fun q => Fail q = false ∧ StaticAssets q = documentAssets D) (heap s)
  ∧ NoDup (URL <$> heap s)
  ∧ ∀ u, u ∈ URL <$> heap s ↔ u = url ∨ u ∈ documentURLs url D.
Proof.
  intros Hbody Hparse. unfold Crawl.
  pose proof (run_mapping f Parse url body D Hbody Hparse sched _
                (Crawl_start_mapping f Parse url D)) as Hmap.
  pose proof (run_seed_URL Parse url sched (f, Crawl_start url) eq_refl) as Hurl.
  destruct (wg (run Parse sched (f, Crawl_start url)).2 =? 0) eqn:Hwg;
    [|discriminate].
  destruct (heap (run Parse sched (f, Crawl_start url)).2 !! 0)
    as [p0|] eqn:Hp0; [|discriminate].
  simpl. intros [= <- <-].
  set (s := (run Parse sched (f, Crawl_start url)).2) in *.
  destruct Hmap as (HT & Hready & Hseed).
  destruct HT as (Hdom & [Hlen Hown] & Hagree & [Hlive _] & Hreg & _).
  apply Nat.eqb_eq in Hwg. rewrite Hlive in Hwg. apply countIf_zero in Hwg.
  rewrite Forall_forall in Hwg.
  assert (Hfin : ∀ i g, goroutines s !! i = Some g → g = Finished).
  { intros i g Hg.
    assert (live g = false) by (apply Hwg; eapply list_elem_of_lookup_2, Hg).
    destruct g; simpl in *; congruence. }
  assert (Hserved : servedURLs f Parse url = documentURLs url D).
  { unfold servedURLs, served. rewrite Hbody. simpl. now rewrite Hparse. }
  split; [exact Hp0|]. split; [now injection Hurl|]. split; [|split].
  - apply Forall_forall. intros q Hq.
    apply list_elem_of_lookup in Hq as [a Ha].
    assert (Ha' : a < length (goroutines s))
      by (rewrite Hlen; eapply lookup_lt_Some, Ha).
    apply lookup_lt_is_Some in Ha' as [g Hg].
    destruct (Hready a g Hg) as (q' & Hq' & Hfail & Hdue).
    rewrite (Hfin a g Hg) in Hdue. simpl in Hdue.
    assert (q' = q) by congruence. subst q'. auto.
  - apply NoDup_alt. intros a b u Ha Hb.
    rewrite list_lookup_fmap in Ha, Hb.
    apply Hagree in Ha, Hb. congruence.
  - intros u. split.
    + intros Hu. apply list_elem_of_lookup in Hu as [a Ha].
      rewrite list_lookup_fmap in Ha. apply Hagree in Ha.
      rewrite <- Hserved. eauto.
    + assert (Hall : ∀ v, v ∈ documentURLs url D →
                is_Some (visitedPages s !! v)).
      { destruct Hseed as [[Hg|Hg]|[(page & todo & Hg & _)|[_ Hall]]];
          try (apply Hfin in Hg; discriminate).
        exact Hall. }
      assert (Hin : is_Some (visitedPages s !! u) → u ∈ URL <$> heap s).
      { intros [a Ha]. apply Hagree in Ha.
        apply (list_elem_of_lookup_2 _ a). now rewrite list_lookup_fmap. }
      intros [->|Hu]; apply Hin; [|now apply Hall].
      exists 0. apply Hagree. rewrite Hp0. exact Hurl.
Qed.

Lemma Crawl_maps_the_site_of_a_replaying_fetcher_witness :
  ∃ s p,
    heap s !! 0 = Some p ∧ URL p = "example.com"
    ∧ Forall (fun q => Fail q = false
                       ∧ StaticAssets q = documentAssets testDocument) (heap s)
    ∧ NoDup (URL <$> heap s)
    ∧ ∀ u, u ∈ URL <$> heap s
           ↔ u = "example.com" ∨ u ∈ documentURLs "example.com" testDocument.
Proof.
  eexists _, _.
  eapply (Crawl_maps_the_site_of_a_replaying_fetcher testFetcher testParse
            "example.com" "testData" testDocument (repeat 0 12 ++ repeat 1 12)).
  - reflexivity.
  - reflexivity.
  - vm_compute. reflexivity.
Defined.

(** ** The site map of the earlier revision *)

Section Survey.
Variable f : FakeFetcher.
Variable Parse : string → option Node.
Variable url : string.

Lemma earlier_step_fake_eq i s :
  Earlier.step Parse i (f, s) = (f, (Earlier.step Parse i (f, s)).2).
Proof.
  unfold Earlier.step.
  destruct (goroutines s !! i) as [[page|page|page [|node todo]|]|];
    try reflexivity.
  - now destruct (sem s =? 0).
  - destruct (heap s !! page) as [p|]; [|reflexivity].
    unfold Fetch, FakeFetcher_Fetcher.
    destruct (f (URL p)) as [r|]; [destruct (Parse r)|]; reflexivity.
Qed.

Lemma surveyDue_mono (m m' : gmap string addr) g q :
  (∀ u, is_Some (m !! u) → is_Some (m' !! u)) →
  surveyDue f Parse url m g q → surveyDue f Parse url m' g q.
Proof.
  intros Hmono. destruct g as [page|page|page todo|]; simpl; auto.
  - intros (Hfail & D & HD & Hassets & Hin & Hall).
    split; [exact Hfail|]. exists D. repeat split; auto.
    intros u Hu. destruct (Hall u Hu); auto.
  - destruct (docOf f Parse q); [|auto].
    intros (Hfail & Hassets & Hall). auto.
Qed.

(** A step that puts [g'] in the place of goroutine [i] and changes at most
    its page. *)
Lemma surveyed_alter s s' i g g' (t : Page → Page) :
  heap s' = alter t i (heap s) → visitedPages s' = visitedPages s →
  goroutines s' = <[i := g']> (goroutines s) →
  goroutines s !! i = Some g →
  (∀ q, heap s !! i = Some q →
        surveyDue f Parse url (visitedPages s) g q →
        surveyDue f Parse url (visitedPages s) g' (t q)) →
  (∀ k h, goroutines s !! k = Some h → pageSurveyed f Parse url s k h) →
  ∀ k h, goroutines s' !! k = Some h → pageSurveyed f Parse url s' k h.
Proof.
  intros Hheap Hreg Hgs Hg Hdue Hall k h Hk. unfold pageSurveyed.
  rewrite Hheap, Hreg. rewrite Hgs in Hk.
  apply list_lookup_insert_Some in Hk as [(<- & <- & _)|[Hne Hk]].
  - destruct (Hall i g Hg) as (q & Hq & Hq').
    exists (t q). rewrite list_lookup_alter_eq, Hq. auto.
  - rewrite list_lookup_alter_ne by exact Hne. now apply Hall.
Qed.

Lemma linkedFrom_alter (t : Page → Page) i (h : list Page) :
  (∀ q, URL (t q) = URL q) →
  linkedFrom f Parse url h → linkedFrom f Parse url (alter t i h).
Proof.
  intros Ht Hh a q' Ha.
  assert (Hback : ∀ b, ∀ q0, h !! b = Some q0 →
            ∃ q1, alter t i h !! b = Some q1 ∧ URL q1 = URL q0).
  { intros b q0 Hb. destruct (decide (i = b)) as [->|Hne].
    - rewrite list_lookup_alter_eq, Hb. simpl. eauto.
    - rewrite list_lookup_alter_ne by exact Hne. eauto. }
  assert (Hq : ∃ q, h !! a = Some q ∧ URL q' = URL q).
  { destruct (h !! a) as [q|] eqn:E.
    - destruct (Hback a q E) as (q1 & Hq1 & Hurl). exists q.
      split; [reflexivity|]. congruence.
    - apply lookup_ge_None in E. apply lookup_lt_Some in Ha.
      rewrite length_alter in Ha. lia. }
  destruct Hq as (q & Hq & Hurl).
  destruct (Hh a q Hq) as [->|(b & qb & D & Hlt & Hb & HD & Hin)]; [now left|].
  right. destruct (Hback b qb Hb) as (qb' & Hqb' & Hurl').
  exists b, qb', D. repeat split; auto.
  - unfold docOf in *. now rewrite Hurl'.
  - now rewrite Hurl.
Qed.

Lemma linkedFrom_snoc (h : list Page) u b qb D :
  h !! b = Some qb → docOf f Parse qb = Some D → u ∈ documentURLs url D →
  linkedFrom f Parse url h → linkedFrom f Parse url (h ++ [newPage u]).
Proof.
  intros Hb HD Hu Hh a q Ha.
  apply lookup_app_Some in Ha as [Ha|[Hge Ha]].
  - destruct (Hh a q Ha) as [->|(b' & qb' & D' & Hlt & Hb' & HD' & Hin)];
      [now left|].
    right. exists b', qb', D'. repeat split; auto.
    now apply lookup_app_l_Some.
  - destruct (a - length h) eqn:E; simpl in Ha; [|now rewrite lookup_nil in Ha].
    injection Ha as <-. right. exists b, qb, D.
    apply lookup_lt_Some in Hb as Hlt. repeat split; auto; [lia|].
    now apply lookup_app_l_Some.
Qed.

Lemma Crawl_start_surveying : surveying f Parse url (Crawl_start url).
Proof.
  split; [reflexivity|].
  split; [apply Crawl_start_ownPage|].
  split; [apply Crawl_start_registryAgrees|].
  split; [apply Crawl_start_accounted|]. split.
  - intros [|i] g; simpl; [|discriminate]. intros [= <-].
    exists (newPage url). repeat split.
  - intros [|a] q; simpl; [now left|discriminate].
Qed.

Lemma earlier_step_surveying i s :
  surveying f Parse url s →
  surveying f Parse url (Earlier.step Parse i (f, s)).2.
Proof.
  intros (Hdom & Hown & Hagree & Hacc & Hall & Hlink).
  pose proof (earlier_step_transition Parse i (f, s)) as Htr.
  change (transition s (Earlier.step Parse i (f, s)).2) in Htr.
  split; [destruct (transition_grows _ _ Htr) as (_ & _ & ->); exact Hdom|].
  split; [eauto using transition_ownPage|].
  split; [eauto using transition_registryAgrees|].
  split; [eauto using transition_accounted|].
  clear Htr. unfold Earlier.step.
  destruct (goroutines s !! i) as [[page|page|page [|node todo]|]|] eqn:Hg;
    try (split; assumption).
  - destruct (sem s =? 0); [split; assumption|]. cbn [snd].
    split; [|exact Hlink].
    apply (surveyed_alter s _ i (Spawned page) (Running page) (fun q => q));
      auto.
    simpl. now rewrite list_alter_id.
  - assert (page = i) by (eapply ownPage_page; eauto). subst page.
    destruct (Hall i _ Hg) as (q & Hq & _).
    rewrite Hq. unfold Fetch, FakeFetcher_Fetcher.
    assert (Hfailed : docOf f Parse q = None →
              (∀ k h, goroutines (finish i (setFail i
                         (with_fetched (fun l => l ++ [(i, URL q)]) s))) !! k
                      = Some h →
                 pageSurveyed f Parse url
                   (finish i (setFail i
                      (with_fetched (fun l => l ++ [(i, URL q)]) s))) k h)
              ∧ linkedFrom f Parse url
                  (heap (finish i (setFail i
                     (with_fetched (fun l => l ++ [(i, URL q)]) s))))).
    { intros Hnone. split.
      - apply (surveyed_alter s _ i (Running i) Finished
                 (fun p => mkPage (URL p) true (Links p) (StaticAssets p)));
          auto.
        intros q0 Hq0 [Hf Ha]. assert (q0 = q) by congruence. subst q0.
        simpl. unfold docOf in *. simpl. rewrite Hnone. auto.
      - simpl. apply linkedFrom_alter; auto. }
    destruct (f (URL q)) as [body|] eqn:Hbody;
      [destruct (Parse body) as [root|] eqn:Hparse|]; cbn [snd];
      try (apply Hfailed; unfold docOf; rewrite Hbody; simpl; auto; fail).
    split; [|exact Hlink].
    apply (surveyed_alter s _ i (Running i) (Walking i [root]) (fun q => q));
      auto.
    + simpl. now rewrite list_alter_id.
    + intros q0 Hq0 [Hf Ha]. assert (q0 = q) by congruence. subst q0.
      simpl. split; [exact Hf|]. exists root.
      rewrite Ha, !app_nil_r. repeat split; auto.
      unfold docOf. rewrite Hbody. simpl. exact Hparse.
  - cbn [snd]. split; [|exact Hlink].
    apply (surveyed_alter s _ i (Walking page []) Finished (fun q => q));
      auto.
    + simpl. now rewrite list_alter_id.
    + simpl. intros q _ (Hfail & D & -> & Hassets & _ & Hreg).
      rewrite app_nil_r in Hassets. repeat split; auto.
      intros u Hu. destruct (Hreg u Hu) as [?|Hin]; [auto|].
      now apply elem_of_nil in Hin.
  - assert (page = i) by (eapply ownPage_page; eauto). subst page.
    destruct (Hall i _ Hg)
      as (q & Hq & Hfail & D & HD & Hassets & Hwithin & Hregd).
    assert (Hi : i < length (heap s)) by (eapply lookup_lt_Some, Hq).
    assert (Hmono : ∀ u, is_Some (visitedPages s !! u) →
                         is_Some (visitedPages (visitNode node i s) !! u)).
    { intros u [a Ha].
      destruct (transition_grows _ _ (visit_transition i i node todo s Hg))
        as (_ & Hreg & _).
      exists a. apply (Hreg u a Ha). }
    assert (Hnode : ∀ u, u ∈ documentURLs url node ++ flat_map (documentURLs url) todo →
              is_Some (visitedPages (visitNode node i s) !! u)
              ∨ u ∈ flat_map (documentURLs url) (Children node ++ todo)).
    { intros u. rewrite documentURLs_unfold, <- app_assoc, <- flat_map_app.
      rewrite elem_of_app. intros [Hu|Hu]; [left|now right].
      apply visitNode_registers. rewrite Hdom.
      destruct (nodeURL url node) as [v|]; simpl in Hu;
        [|now apply elem_of_nil in Hu].
      apply list_elem_of_singleton in Hu. now subst. }
    assert (Hold : ∀ k h, goroutines s !! k = Some h →
              pageSurveyed f Parse url (visitNode node i s) k
                (if decide (k = i) then Walking i (Children node ++ todo) else h)).
    { intros k h Hk. destruct (Hall k h Hk) as (qk & Hqk & Hdue).
      destruct (visitNode_heap node i s k qk Hqk)
        as (q' & Hq' & Hurl & Hfail' & Hother & Hsame).
      exists q'. split; [exact Hq'|].
      destruct (decide (k = i)) as [->|Hne].
      - assert (qk = q) by congruence. subst qk.
        simpl. split; [congruence|]. exists D. split; [|split; [|split]].
        + unfold docOf in *. now rewrite Hurl.
        + rewrite (Hsame eq_refl), flat_map_app, <- Hassets. simpl.
          rewrite (documentAssets_unfold node), <- !app_assoc. reflexivity.
        + intros u Hu. apply Hwithin. simpl.
          rewrite documentURLs_unfold, <- app_assoc, <- flat_map_app.
          apply elem_of_app. now right.
        + intros u Hu. destruct (Hregd u Hu) as [Hreg|Hin];
            [left; now apply Hmono|].
          now apply Hnode.
      - rewrite (Hother Hne). eapply surveyDue_mono; [exact Hmono|exact Hdue]. }
    assert (Hu : ∀ u, nodeURL (domain s) node = Some u → u ∈ documentURLs url D).
    { intros u Hu. apply Hwithin. simpl. rewrite documentURLs_unfold.
      rewrite <- Hdom, Hu. simpl. left. }
    cbn [snd]. split.
    + intros k h Hk.
      assert (Hcase : (∃ h0, goroutines s !! k = Some h0
                             ∧ h = if decide (k = i)
                                   then Walking i (Children node ++ todo) else h0)
                      ∨ (k = length (heap s) ∧ ∃ u, h = Spawned k
                         ∧ heap (visitNode node i s) !! k = Some (newPage u))).
      { destruct (visitNode_cases_URL node i s)
          as [[vals E]|(u & _ & _ & E)]; rewrite E in Hk |- *;
          simpl in Hk |- *.
        - left. destruct (decide (k = i)) as [->|Hne].
          + rewrite list_lookup_insert_eq in Hk
              by (eapply lookup_lt_Some, Hg).
            injection Hk as <-. eauto.
          + rewrite list_lookup_insert_ne in Hk by congruence. eauto.
        - destruct (decide (k = i)) as [->|Hne].
          + left.
            rewrite list_lookup_insert_eq in Hk
              by (rewrite length_app; apply lookup_lt_Some in Hg; lia).
            injection Hk as <-. eauto.
          + rewrite list_lookup_insert_ne in Hk by congruence.
            apply lookup_app_Some in Hk as [Hk|[Hge Hk]].
            * left. eauto.
            * right. destruct Hown as [Hlen _].
              destruct (k - length (goroutines s)) eqn:Hsub; simpl in Hk;
                [|now rewrite lookup_nil in Hk].
              assert (k = length (heap s)) by lia. subst k.
              split; [reflexivity|]. exists u. split; [now injection Hk|].
              rewrite list_lookup_alter_ne by lia.
              rewrite lookup_app_r by lia. now rewrite Nat.sub_diag. }
      destruct Hcase as [(h0 & Hk0 & ->)|(-> & u & -> & Hnew)].
      * now apply Hold.
      * exists (newPage u). repeat split. exact Hnew.
    + destruct (visitNode_cases_URL node i s)
        as [[vals ->]|(u & Hnu & _ & ->)]; simpl.
      * apply linkedFrom_alter; auto.
      * apply linkedFrom_alter; [auto|].
        apply (linkedFrom_snoc _ u i q D); auto.
Qed.

Lemma earlier_run_surveying sched :
  ∀ s, surveying f Parse url s →
       surveying f Parse url (Earlier.run Parse sched (f, s)).2.
Proof.
  induction sched as [|i sched IH]; intros s Hs; [exact Hs|].
  change (Earlier.run Parse (i :: sched) (f, s))
    with (Earlier.run Parse sched (Earlier.step Parse i (f, s))).
  rewrite earlier_step_fake_eq. apply IH. now apply earlier_step_surveying.
Qed.
End Survey.

(** X21: the site map of the earlier revision, which asks for [page.URL]:
    when the network is a function of the URL, then under every schedule
    under which [Crawl] returns, it returns the page of the seed; no two
    pages have the same URL; a page whose URL cannot be fetched or parsed
    has [Fail] set and no assets; a page whose URL gives a document has
    the assets of this document, in document order, and every URL of the
    domain that an anchor of the document stands for has a page; and
    every page but the seed has its URL in the document of a page created
    before it. *)
Theorem the_earlier_Crawl_maps_the_site
    (f : FakeFetcher) (Parse : string → option Node) (url : string)
    (sched : list nat) (s : state) (p : Page) :
  Earlier.Crawl Parse f sched url = Some (s, p) →
  heap s !! 0 = Some p ∧ URL p = url
  ∧ NoDup (URL <$> heap s)
  ∧ (∀ q, q ∈ heap s →
       match f (URL q) ≫= Parse with
       | None => Fail q = true ∧ StaticAssets q = []
       | Some D =>
           Fail q = false ∧ StaticAssets q = documentAssets D
           ∧ ∀ u, u ∈ documentURLs url D → u ∈ URL <$> heap s
       end)
  ∧ (∀ a q, heap s !! a = Some q → a ≠ 0 →
       ∃ b qb D, b < a ∧ heap s !! b = Some qb
                 ∧ f (URL qb) ≫= Parse = Some D
                 ∧ URL q ∈ documentURLs url D).
Proof.
  unfold Earlier.Crawl.
  pose proof (earlier_run_surveying f Parse url sched _
                (Crawl_start_surveying f Parse url)) as Hsur.
  destruct (wg (Earlier.run Parse sched (f, Crawl_start url)).2 =? 0) eqn:Hwg;
    [|discriminate].
  destruct (heap (Earlier.run Parse sched (f, Crawl_start url)).2 !! 0)
    as [p0|] eqn:Hp0; [|discriminate].
  simpl. intros [= <- <-].
  set (s := (Earlier.run Parse sched (f, Crawl_start url)).2) in *.
  destruct Hsur as (Hdom & [Hlen Hown] & Hagree & [Hlive _] & Hall & Hlink).
  apply Nat.eqb_eq in Hwg. rewrite Hlive in Hwg. apply countIf_zero in Hwg.
  rewrite Forall_forall in Hwg.
  assert (Hfin : ∀ i g, goroutines s !! i = Some g → g = Finished).
  { intros i g Hg.
    assert (live g = false) by (apply Hwg; eapply list_elem_of_lookup_2, Hg).
    destruct g; simpl in *; congruence. }
  assert (Hurl : URL p0 = url).
  { assert (Hseed : ∀ c : FakeFetcher * state,
              URL <$> heap c.2 !! 0 = Some url →
              URL <$> heap (Earlier.run Parse sched c).2 !! 0 = Some url).
    { apply (earlier_run_keeps Parse (fun s => URL <$> heap s !! 0 = Some url)).
      intros s0 s1 Htr Hs0.
      destruct (transition_URLs s0 s1 0 Htr) as [->|(u & _ & Hnone & _)];
        [exact Hs0|].
      rewrite Hnone in Hs0. discriminate. }
    specialize (Hseed (f, Crawl_start url) eq_refl). fold s in Hseed.
    rewrite Hp0 in Hseed. now injection Hseed. }
  split; [exact Hp0|]. split; [exact Hurl|]. split; [|split].
  - apply NoDup_alt. intros a b u Ha Hb.
    rewrite list_lookup_fmap in Ha, Hb.
    apply Hagree in Ha, Hb. congruence.
  - intros q Hq. apply list_elem_of_lookup in Hq as [a Ha].
    assert (Ha' : a < length (goroutines s))
      by (rewrite Hlen; eapply lookup_lt_Some, Ha).
    apply lookup_lt_is_Some in Ha' as [g Hg].
    destruct (Hall a g Hg) as (q' & Hq' & Hdue).
    rewrite (Hfin a g Hg) in Hdue. simpl in Hdue.
    assert (q' = q) by congruence. subst q'. unfold docOf in Hdue.
    destruct (f (URL q) ≫= Parse) as [D|]; [|exact Hdue].
    destruct Hdue as (Hfail & Hassets & Hreg). repeat split; auto.
    intros u Hu. destruct (Hreg u Hu) as [b Hb]. apply Hagree in Hb.
    apply (list_elem_of_lookup_2 _ b). now rewrite list_lookup_fmap.
  - intros a q Ha Hne.
    destruct (Hlink a q Ha) as [->|Hparent]; [contradiction|exact Hparent].
Qed.

Lemma the_earlier_Crawl_maps_the_site_witness :
  ∃ s p,
    heap s !! 0 = Some p ∧ URL p = "example.com"
    ∧ NoDup (URL <$> heap s)
    ∧ (∀ q, q ∈ heap s →
         match testFetcher (URL q) ≫= testParse with
         | None => Fail q = true ∧ StaticAssets q = []
         | Some D =>
             Fail q = false ∧ StaticAssets q = documentAssets D
             ∧ ∀ u, u ∈ documentURLs "example.com" D → u ∈ URL <$> heap s
         end)
    ∧ (∀ a q, heap s !! a = Some q → a ≠ 0 →
         ∃ b qb D, b < a ∧ heap s !! b = Some qb
                   ∧ testFetcher (URL qb) ≫= testParse = Some D
                   ∧ URL q ∈ documentURLs "example.com" D).
Proof.
  eexists _, _.
  eapply (the_earlier_Crawl_maps_the_site testFetcher testParse "example.com"
            (repeat 0 12 ++ repeat 1 12)).
  vm_compute. reflexivity.
Defined.

(** * The crawl, statement by statement *)

(** The loop of [anchor] and the loop of [Fine.anchorURL] are the same
    loop: [anchor] goes on from the URL with the locked section and what
    follows it. *)
Lemma anchor_anchorURL attrs page :
  ∀ s, anchor attrs page Link.zero s
       = match Fine.anchorURL attrs (domain s) with
         | Some linkURL => followLink linkURL page s
         | None => s
         end.
Proof.
  induction attrs as [|attr attrs IH]; intros s; simpl; [reflexivity|].
  destruct (String.eqb (Key attr) "href"); simpl; [|apply IH].
  now destruct (HasPrefix _ (domain s)).
Qed.

(** The visit of a node leaves the task in [parseHTML] with assets appended
    to its page (none, for a node that is no [link], [img] or [script]
    element), or has registered a new page and leaves the task with the
    link to it, at the append. *)
Lemma fine_visit_cases node page rest s :
  (∃ vals, Fine.visit node page rest s
           = (Fine.Walking page rest, appendAssets page vals s))
  ∨ (∃ u, visitedPages s !! u = None
          ∧ Fine.visit node page rest s
            = (Fine.AtAppend page (linkTo (length (heap s))) rest,
               with_visitedPages <[u := length (heap s)]>
                 (with_heap (fun h => h ++ [newPage u]) s))).
Proof.
  assert (Hsame : ∃ vals, (Fine.Walking page rest, s)
                          = (Fine.Walking page rest, appendAssets page vals s))
    by (exists []; now rewrite appendAssets_nil).
  unfold Fine.visit. destruct (Type_ node); try (left; exact Hsame).
  destruct (String.eqb (Data node) "a").
  { destruct (Fine.anchorURL (Attr node) (domain s)) as [u|];
      [|left; exact Hsame].
    unfold lookupOrRegister.
    destruct (visitedPages s !! u) eqn:Hu; simpl; [left; exact Hsame|].
    right. exists u. split; [exact Hu|reflexivity]. }
  destruct (String.eqb (Data node) "link").
  { left. rewrite assets_appendAssets. eauto. }
  destruct (String.eqb (Data node) "img" || String.eqb (Data node) "script").
  { left. rewrite assets_appendAssets. eauto. }
  left. exact Hsame.
Qed.

Lemma fine_count_app f ts1 ts2 :
  Fine.count f (ts1 ++ ts2) = Fine.count f ts1 + Fine.count f ts2.
Proof. unfold Fine.count. now rewrite List.filter_app, length_app. Qed.

Lemma fine_count_insert f (ts : list Fine.task) i t t' :
  ts !! i = Some t →
  Fine.count f (<[i := t']> ts) + Nat.b2n (f t) = Fine.count f ts + Nat.b2n (f t').
Proof.
  intros Ht.
  rewrite insert_take_drop by (eapply lookup_lt_Some, Ht).
  rewrite <- (take_drop_middle ts i t Ht) at 3.
  rewrite !fine_count_app. unfold Fine.count. simpl.
  destruct (f t), (f t'); simpl; lia.
Qed.

Lemma fine_count_zero f ts :
  Fine.count f ts = 0 ↔ Forall (fun t => f t = false) ts.
Proof.
  unfold Fine.count. induction ts as [|t ts IH]; simpl.
  - split; [constructor|reflexivity].
  - destruct (f t) eqn:Ht; simpl.
    + split; [discriminate|]. intros Hall. inversion Hall; congruence.
    + rewrite IH. split; [now constructor|]. intros Hall. now inversion Hall.
Qed.

(** The links held by the tasks, when one task moves on. *)
Lemma fine_held_insert (ts : list Fine.task) i t t' :
  ts !! i = Some t →
  ∃ others, flat_map Fine.held ts ≡ₚ Fine.held t ++ others
            ∧ flat_map Fine.held (<[i := t']> ts) ≡ₚ Fine.held t' ++ others.
Proof.
  intros Ht.
  exists (flat_map Fine.held (take i ts) ++ flat_map Fine.held (drop (S i) ts)).
  rewrite insert_take_drop by (eapply lookup_lt_Some, Ht).
  rewrite <- (take_drop_middle ts i t Ht) at 1.
  rewrite !flat_map_app. simpl. split.
  - rewrite !app_assoc.
    apply Permutation_app_tail, Permutation_app_comm.
  - rewrite !app_assoc.
    apply Permutation_app_tail, Permutation_app_comm.
Qed.

Lemma fine_taskOk_mono n n' t : n ≤ n' → Fine.taskOk n t → Fine.taskOk n' t.
Proof.
  intros Hle. destruct t; simpl; try lia; auto;
    intros (b & -> & Hb); exists b; split; auto; lia.
Qed.

Lemma linksForward_snoc h u : linksForward h → linksForward (h ++ [newPage u]).
Proof.
  intros Hh a p link Ha Hin. rewrite length_app. simpl.
  apply lookup_app_Some in Ha as [Ha|[_ Ha]].
  - destruct (Hh a p link Ha Hin) as (b & Hb & Hlt & Hc).
    exists b. repeat split; auto; lia.
  - destruct (a - length h); simpl in Ha; [|now rewrite lookup_nil in Ha].
    injection Ha as <-. now apply elem_of_nil in Hin.
Qed.

Lemma linksForward_append h page b :
  page < b < length h → linksForward h →
  linksForward
    (alter (fun p => mkPage (URL p) (Fail p) (Links p ++ [linkTo b]) (StaticAssets p))
       page h).
Proof.
  intros Hb Hh a p link Ha Hin. rewrite length_alter.
  destruct (decide (page = a)) as [->|Hne].
  - rewrite list_lookup_alter_eq in Ha.
    destruct (h !! a) as [p0|] eqn:Hp0; [|discriminate].
    simpl in Ha. injection Ha as <-. simpl in Hin.
    apply elem_of_app in Hin as [Hin|Hin]; [eauto|].
    apply list_elem_of_singleton in Hin. subst link.
    exists b. repeat split; auto; lia.
  - rewrite list_lookup_alter_ne in Ha by exact Hne. eauto.
Qed.

(** A step that moves goroutine [i] from [t] to [t'] and creates [d]
    pages keeps what holds at every moment, when it keeps the account of
    [wg] and of the links. *)
Lemma fine_inv_become (y : Fine.system) i t t' s' d :
  Fine.inv y → Fine.tasks y !! i = Some t →
  length (heap s') = length (heap (Fine.shared y)) + d →
  wg s' + Fine.weight t = wg (Fine.shared y) + Fine.weight t' →
  Fine.taskOk (length (heap s')) t' →
  flat_map Links (heap s') ++ Fine.held t'
  ≡ₚ (flat_map Links (heap (Fine.shared y)) ++ Fine.held t)
     ++ (linkTo <$> seq (length (heap (Fine.shared y))) d) →
  linksForward (heap s') →
  Fine.inv (Fine.mkSystem s' (<[i := t']> (Fine.tasks y))).
Proof.
  intros (Hpos & Hwg & Hok & Hperm & Hfw) Ht Hlen Hweight Hok' Hlinks Hfw'.
  unfold Fine.inv. simpl. split; [lia|]. split; [|split; [|split]].
  - pose proof (fine_count_insert Fine.notDone _ i t t' Ht).
    pose proof (fine_count_insert Fine.atGo _ i t t' Ht).
    unfold Fine.weight in Hweight. lia.
  - intros k t0 Hk.
    apply list_lookup_insert_Some in Hk as [(_ & <- & _)|[_ Hk]];
      [exact Hok'|].
    eapply fine_taskOk_mono; [|eapply Hok, Hk]. lia.
  - destruct (fine_held_insert (Fine.tasks y) i t t' Ht)
      as (others & Hold & Hnew).
    rewrite Hnew, app_assoc, Hlinks.
    replace (length (heap s') - 1)
      with (length (heap (Fine.shared y)) - 1 + d) by lia.
    rewrite seq_app, fmap_app.
    replace (1 + (length (heap (Fine.shared y)) - 1))
      with (length (heap (Fine.shared y))) by lia.
    rewrite <- Hperm, Hold.
    rewrite <- !app_assoc. do 2 apply Permutation_app_head.
    apply Permutation_app_comm.
  - exact Hfw'.
Qed.

Section FineFacts.
Context {F : Type} `{Fetcher F}.
Variable Parse : string → option Node.

Lemma fine_run_cons i sched (c : F * Fine.system) :
  Fine.run Parse (i :: sched) c = Fine.run Parse sched (Fine.step Parse i c).
Proof. reflexivity. Qed.

Lemma fine_Crawl_start_inv url : Fine.inv (Fine.Crawl_start url).
Proof.
  unfold Fine.inv. simpl. split; [lia|]. split; [reflexivity|].
  split; [|split].
  - intros [|k] t; simpl; [|discriminate]. intros [= <-]. simpl. lia.
  - constructor.
  - intros [|a] p link Ha Hin; simpl in Ha; [|discriminate].
    injection Ha as <-. now apply elem_of_nil in Hin.
Qed.

Lemma fine_step_inv i (c : F * Fine.system) :
  Fine.inv c.2 → Fine.inv (Fine.step Parse i c).2.
Proof.
  destruct c as [fetcher y]. simpl. intros Hinv.
  pose proof Hinv as (Hpos & Hwg & Hok & Hperm & Hfw).
  unfold Fine.step.
  destruct (Fine.tasks y !! i) as [t|] eqn:Ht; [|exact Hinv].
  assert (Hkeep : ∀ t0 t' s',
            Fine.tasks y !! i = Some t0 →
            heap s' = heap (Fine.shared y) ∨
            (∃ f a, (∀ p, Links (f p) = Links p)
                    ∧ heap s' = alter f a (heap (Fine.shared y))) →
            wg s' + Fine.weight t0 = wg (Fine.shared y) + Fine.weight t' →
            Fine.taskOk (length (heap (Fine.shared y))) t' →
            Fine.held t0 = [] → Fine.held t' = [] →
            Fine.inv (Fine.mkSystem s' (<[i := t']> (Fine.tasks y)))).
  { intros t0 t' s' Ht0 Hheap Hweight Hok' Hheld Hheld'.
    assert (Hlen : length (heap s') = length (heap (Fine.shared y)))
      by (destruct Hheap as [->|(f & a & _ & ->)];
          [reflexivity|apply length_alter]).
    assert (Hlinks : flat_map Links (heap s')
                     = flat_map Links (heap (Fine.shared y)))
      by (destruct Hheap as [->|(f & a & Hf & ->)];
          [reflexivity|now apply flat_map_Links_alter]).
    apply (fine_inv_become y i t0 t' s' 0); auto.
    - lia.
    - now rewrite Hlen.
    - rewrite Hlinks, Hheld, Hheld'. simpl. now rewrite !app_nil_r.
    - destruct Hheap as [->|(f & a & Hf & ->)];
        [exact Hfw|now apply linksForward_alter]. }
  pose proof (Hok i t Ht) as Hti.
  assert (Hone : Fine.notDone t = true → 1 ≤ wg (Fine.shared y)).
  { intros Hnd.
    pose proof (fine_count_insert Fine.notDone _ i t Fine.Finished Ht) as Hc.
    rewrite Hnd in Hc. simpl in Hc. lia. }
  destruct t as [page|page|page [|node todo]|page link todo|page link todo
                 |page link todo|page|page|]; simpl in Hti.
  - destruct (sem (Fine.shared y) =? 0); [exact Hinv|]. cbn [snd].
    apply (Hkeep (Fine.Spawned page)); auto.
  - cbn zeta.
    destruct (Fetch fetcher (domain (Fine.shared y))) as [[r|] fetcher'];
      [destruct (Parse r)|]; cbn [snd];
      apply (Hkeep (Fine.Running page)); auto;
      right; eexists _, page; (split; [|reflexivity]); reflexivity.
  - cbn [snd]. apply (Hkeep (Fine.Walking page [])); auto.
  - destruct (fine_visit_cases node page (Children node ++ todo) (Fine.shared y))
      as [[vals ->]|(u & Hu & ->)]; cbn [snd].
    + apply (Hkeep (Fine.Walking page (node :: todo))); auto.
      right. eexists _, page. split; [|reflexivity]. reflexivity.
    + apply (fine_inv_become y i (Fine.Walking page (node :: todo)) _ _ 1);
        auto; simpl; rewrite ?length_app; simpl; auto.
      * exists (length (heap (Fine.shared y))). split; [reflexivity|lia].
      * rewrite flat_map_app. simpl. now rewrite !app_nil_r.
      * now apply linksForward_snoc.
  - destruct Hti as (b & -> & Hb). cbn [snd].
    apply (fine_inv_become y i (Fine.AtAppend page (linkTo b) todo) _ _ 0);
      auto; simpl; rewrite ?length_alter; auto.
    + exists b. split; [reflexivity|exact Hb].
    + rewrite flat_map_Links_append by lia. now rewrite !app_nil_r.
    + now apply linksForward_append.
  - cbn [snd]. apply (Hkeep (Fine.AtAdd page link todo)); auto.
    simpl. unfold Fine.weight. simpl. lia.
  - destruct Hti as (b & -> & Hb). cbn [snd]. simpl Fine.started.
    unfold Fine.inv. simpl. split; [exact Hpos|]. split; [|split; [|split]].
    + pose proof (fine_count_insert Fine.notDone _ i _ (Fine.Walking page todo) Ht).
      pose proof (fine_count_insert Fine.atGo _ i _ (Fine.Walking page todo) Ht).
      rewrite !fine_count_app. unfold Fine.count at 2 4. simpl in *. lia.
    + intros k t Hk. apply lookup_app_Some in Hk as [Hk|[_ Hk]].
      * apply list_lookup_insert_Some in Hk as [(_ & <- & _)|[_ Hk]];
          [simpl; lia|eauto].
      * destruct (k - _); simpl in Hk; [|now rewrite lookup_nil in Hk].
        injection Hk as <-. simpl. lia.
    + destruct (fine_held_insert _ i _ (Fine.Walking page todo) Ht)
        as (others & Hold & Hnew).
      simpl in Hold, Hnew.
      rewrite flat_map_app, Hnew, <- Hold. simpl. now rewrite app_nil_r.
    + exact Hfw.
  - cbn [snd]. apply (Hkeep (Fine.AtRelease page)); auto.
  - cbn [snd]. apply (Hkeep (Fine.AtDone page)); auto; try exact I.
    simpl. unfold Fine.weight. simpl. specialize (Hone eq_refl). lia.
  - exact Hinv.
Qed.

Lemma fine_run_inv sched :
  ∀ c : F * Fine.system, Fine.inv c.2 → Fine.inv (Fine.run Parse sched c).2.
Proof.
  induction sched as [|i sched IH]; intros c Hc; [exact Hc|].
  rewrite fine_run_cons. now apply IH, fine_step_inv.
Qed.
End FineFacts.

(** ** The counter and the goroutines *)

(** X1: at every moment of a crawl taken statement by statement, from the
    moment [Crawl] is at [c.wg.Wait()] on, under every schedule and with
    any fetcher, [wg] is the number of goroutines started that have not
    called [c.wg.Done()], plus the number of tasks that have called
    [c.wg.Add(1)] (line 510) and not yet started the goroutine it stands
    for (line 511). So [wg] runs ahead of the goroutines between these two
    statements, and never behind; it is zero, which is when [c.wg.Wait()]
    lets [Crawl] return, exactly when every goroutine started has called
    [c.wg.Done()], and then no goroutine is left to be started. *)
Theorem wg_counts_the_goroutines_and_the_pending_starts
    {F : Type} `{Fetcher F} (Parse : string → option Node) (fetcher : F)
    (sched : list nat) (url : string) :
  let y := (Fine.run Parse sched (fetcher, Fine.Crawl_start url)).2 in
  wg (Fine.shared y)
  = Fine.count Fine.notDone (Fine.tasks y) + Fine.count Fine.atGo (Fine.tasks y)
  ∧ (wg (Fine.shared y) = 0
     ↔ Forall (fun t => t = Fine.Finished) (Fine.tasks y))
  ∧ (is_Some (Fine.Crawl Parse fetcher sched url)
     ↔ Forall (fun t => t = Fine.Finished) (Fine.tasks y)).
Proof.
  intros y.
  destruct (fine_run_inv Parse sched (fetcher, Fine.Crawl_start url)
              (fine_Crawl_start_inv url)) as (Hpos & Hwg & _).
  fold y in Hpos, Hwg.
  assert (Hzero : wg (Fine.shared y) = 0
                  ↔ Forall (fun t => t = Fine.Finished) (Fine.tasks y)).
  { rewrite Hwg. split.
    - intros Hsum.
      assert (Hnone : Fine.count Fine.notDone (Fine.tasks y) = 0) by lia.
      apply fine_count_zero in Hnone.
      eapply Forall_impl; [exact Hnone|].
      intros [| | | | | | | |]; simpl; congruence.
    - intros Hall.
      assert (Hnone : Fine.count Fine.notDone (Fine.tasks y) = 0).
      { apply fine_count_zero. eapply Forall_impl; [exact Hall|].
        now intros t ->. }
      assert (Hgo : Fine.count Fine.atGo (Fine.tasks y) = 0).
      { apply fine_count_zero. eapply Forall_impl; [exact Hall|].
        now intros t ->. }
      lia. }
  split; [exact Hwg|]. split; [exact Hzero|].
  rewrite <- Hzero. unfold Fine.Crawl. fold y.
  destruct (Nat.eqb_spec (wg (Fine.shared y)) 0) as [Hz|Hz].
  - destruct (heap (Fine.shared y) !! 0) as [p|] eqn:Hp; simpl.
    + split; eauto.
    + apply lookup_ge_None in Hp. lia.
  - split; [intros [? [=]]|contradiction].
Qed.

Lemma wg_counts_the_goroutines_and_the_pending_starts_witness :
  (let y := (Fine.run testParse [0; 0; 0; 0; 0; 0; 0; 0; 0; 0]
               (testFetcher, Fine.Crawl_start "example.com")).2 in
   length (Fine.tasks y) = 1
   ∧ Fine.count Fine.atGo (Fine.tasks y) = 1
   ∧ wg (Fine.shared y) = 2)
  ∧ (let y := (Fine.run testParse (repeat 0 40 ++ repeat 1 40)
                 (testFetcher, Fine.Crawl_start "example.com")).2 in
     Fine.tasks y = [Fine.Finished; Fine.Finished]
     ∧ wg (Fine.shared y) = 0
     ∧ is_Some (Fine.Crawl testParse testFetcher
                  (repeat 0 40 ++ repeat 1 40) "example.com")).
Proof.
  split.
  - vm_compute. auto.
  - intros y.
    destruct (wg_counts_the_goroutines_and_the_pending_starts testParse
                testFetcher (repeat 0 40 ++ repeat 1 40) "example.com")
      as (_ & Hzero & Hreturns).
    fold y in Hzero, Hreturns.
    assert (Htasks : Fine.tasks y = [Fine.Finished; Fine.Finished])
      by (vm_compute; reflexivity).
    assert (Hall : Forall (fun t => t = Fine.Finished) (Fine.tasks y))
      by (rewrite Htasks; repeat constructor).
    split; [exact Htasks|]. split; [now apply Hzero|now apply Hreturns].
Defined.

(** ** The pages of a crawl form a tree *)

(** A goroutine that has called [c.wg.Done()] holds no link. *)
Lemma fine_held_none ts :
  Forall (fun t => Fine.notDone t = false) ts → flat_map Fine.held ts = [].
Proof.
  induction 1 as [|t ts Ht _ IH]; [reflexivity|].
  simpl. rewrite IH. now destruct t.
Qed.

(** X9: at every moment of a crawl taken statement by statement, under
    every schedule and with any fetcher: the links of all pages, together
    with the links that a task has made under the lock for a page it has
    registered and not yet appended (it is between [Unlock], line 506, and
    the append, line 509), are up to order exactly one link to each page
    other than the seed, none marked [CyclicPage]; and every link of a page
    points to a page created after the page that holds it. So a page can be
    registered with no link to it yet, but no page ever has two, and when
    [wg] is zero, which is when [Crawl] returns, the links of the pages
    alone make the pages a tree rooted at the seed page. *)
Theorem the_links_make_a_tree_once_they_are_appended
    {F : Type} `{Fetcher F} (Parse : string → option Node) (fetcher : F)
    (sched : list nat) (url : string) :
  let y := (Fine.run Parse sched (fetcher, Fine.Crawl_start url)).2 in
  let h := heap (Fine.shared y) in
  flat_map Links h ++ flat_map Fine.held (Fine.tasks y)
  ≡ₚ (fun b => Link.mk (Some b) false) <$> seq 1 (length h - 1)
  ∧ (∀ a p link, h !! a = Some p → link ∈ Links p →
       ∃ b, Link.Page link = Some b ∧ a < b < length h
            ∧ Link.CyclicPage link = false)
  ∧ (wg (Fine.shared y) = 0 →
     flat_map Links h
     ≡ₚ (fun b => Link.mk (Some b) false) <$> seq 1 (length h - 1)).
Proof.
  intros y h.
  destruct (fine_run_inv Parse sched (fetcher, Fine.Crawl_start url)
              (fine_Crawl_start_inv url)) as (_ & Hwg & _ & Hperm & Hfw).
  fold y in Hwg, Hperm, Hfw. fold h in Hperm, Hfw.
  split; [exact Hperm|]. split; [exact Hfw|].
  intros Hzero.
  assert (Hheld : flat_map Fine.held (Fine.tasks y) = []).
  { assert (Hnone : Fine.count Fine.notDone (Fine.tasks y) = 0) by lia.
    now apply fine_held_none, fine_count_zero. }
  rewrite Hheld, app_nil_r in Hperm. exact Hperm.
Qed.

Lemma the_links_make_a_tree_once_they_are_appended_witness :
  (let y := (Fine.run testParse [0; 0; 0; 0; 0; 0; 0; 0]
               (testFetcher, Fine.Crawl_start "example.com")).2 in
   URL <$> heap (Fine.shared y) = ["example.com"; "example.com/test"]
   ∧ flat_map Links (heap (Fine.shared y)) = []
   ∧ flat_map Fine.held (Fine.tasks y) = [Link.mk (Some 1) false])
  ∧ (let y := (Fine.run testParse (repeat 0 40 ++ repeat 1 40)
                 (testFetcher, Fine.Crawl_start "example.com")).2 in
     wg (Fine.shared y) = 0
     ∧ flat_map Links (heap (Fine.shared y))
       ≡ₚ (fun b => Link.mk (Some b) false)
          <$> seq 1 (length (heap (Fine.shared y)) - 1)).
Proof.
  split.
  - vm_compute. auto.
  - intros y.
    destruct (the_links_make_a_tree_once_they_are_appended testParse
                testFetcher (repeat 0 40 ++ repeat 1 40) "example.com")
      as (_ & _ & Htree).
    fold y in Htree.
    assert (Hzero : wg (Fine.shared y) = 0) by (vm_compute; reflexivity).
    split; [exact Hzero|exact (Htree Hzero)].
Defined.
